(** * vector_t: a shallow embedding of [include/vector.hpp]

    The header defines one class template, [vector_t<T>], that owns a raw
    buffer obtained from [std::allocator<T>] and manages the lifetime of
    the values stored in it.  The embedding below keeps the three layers of
    the source apart:

    - the allocator ([allocate] / [deallocate]) works on a heap of blocks,
      each block being a list of slots;
    - a slot is either raw storage ([None]) or holds a live value
      ([Some v]); [construct_at], [destroy_at] and element reads are the
      only transitions between the two;
    - a [vector_t] object is a record of the three data members; objects
      live in a store indexed by their identity, so that [this] and
      [other] may denote the same object.

    Every member function is a computation in a state-and-error monad over
    the whole program state.  A computation may return, propagate
    [std::bad_alloc], hit undefined behaviour, or call [std::terminate]
    (an exception that reaches a [noexcept] boundary).  A fifth outcome,
    running out of fuel, only serves to define [reserve] and [resize],
    which call each other; it is shown never to happen.

    Modelling conventions.
    - [std::size_t] values are [nat].  Every capacity stored in a vector
      is the argument of a successful [allocate], which the standard
      allocator refuses above [max_size()]; sizes never exceed capacities
      on the paths studied here, so [2 * _capacity] and [_size + 1] stay
      in range and no wrap-around is written.
    - [std::allocator<T>::allocate(n)] obtains its storage from
      [::operator new], which returns a non-null pointer for every size,
      zero included; a request is therefore always recorded and always
      yields a fresh block.  Which requests fail is decided by a plan
      carried in the state.
    - [::operator delete] ignores a null pointer, so [deallocate] of a
      null pointer does nothing.  Releasing a block with a size other than
      the one it was acquired with is undefined.
    - Constructors and destructor of [T] do not throw.  Copy construction
      duplicates the value; move construction transfers the value and
      leaves [T_moved v] behind. *)

From stdpp Require Import gmap list.

Set Warnings "-clear-no-such-hyp".

(** ** Program state *)

(** Address of a block handed out by the allocator.  The null pointer is
    [None] at type [option addr]. *)
Abbreviation addr := positive (only parsing).

(** Identity (address) of a [vector_t] object. *)
Abbreviation vid := nat (only parsing).

(** The data members of [vector_t<T>] (the allocator member is stateless). *)
Record vector_t := mk_vector {
  _data : option addr;
  _size : nat;
  _capacity : nat
}.

(** What the program asks of the allocator and of the element type. *)
Inductive event :=
| EvAllocate (n : nat) (p : addr)
| EvDeallocate (p : addr) (n : nat)
| EvConstruct (p : addr) (i : nat)
| EvDestroy (p : addr) (i : nat).

(** A pointer to an element ([T *]): the block it points into, or null, and
    an index in that block. *)
Record pointer := mk_pointer {
  ptr_block : option addr;
  ptr_index : nat
}.

(** What [vector_t<T>] needs from its element type: [T()] yields
    [T_default]; an object that has been moved from is left holding
    [T_moved v]. *)
Class Element (T : Type) := {
  T_default : T;
  T_moved : T → T
}.

Section VectorModel.

Context `{ET : Element T}.

(** The state of a program: the [vector_t] objects alive, the blocks
    currently allocated, the next address the allocator hands out, the
    outcome planned for the coming requests ([false]: the request fails;
    past the end of the plan every request succeeds), and the events so
    far, oldest first. *)
Record world := mk_world {
  w_objs : gmap nat vector_t;
  w_heap : gmap positive (list (option T));
  w_next : positive;
  w_plan : list bool;
  w_trace : list event
}.

Definition with_objs (f : gmap nat vector_t → gmap nat vector_t) (w : world) : world :=
  mk_world (f (w_objs w)) (w_heap w) (w_next w) (w_plan w) (w_trace w).

Definition with_heap (f : gmap positive (list (option T)) → gmap positive (list (option T)))
    (w : world) : world :=
  mk_world (w_objs w) (f (w_heap w)) (w_next w) (w_plan w) (w_trace w).

Definition log (e : event) (w : world) : world :=
  mk_world (w_objs w) (w_heap w) (w_next w) (w_plan w) (w_trace w ++ [e]).

(** ** The monad of member functions *)

(** How a call ends: it returns [a] in state [w]; an exception
    ([std::bad_alloc]) leaves it in state [w]; it has undefined behaviour;
    the program is terminated; or the fuel of the model ran out. *)
Inductive outcome (A : Type) :=
| Ok (a : A) (w : world)
| Throw (w : world)
| Undefined
| Terminate
| OutOfFuel.

Arguments Ok {A} a w.
Arguments Throw {A} w.
Arguments Undefined {A}.
Arguments Terminate {A}.
Arguments OutOfFuel {A}.

Definition M (A : Type) : Type := world → outcome A.

Definition ret {A} (a : A) : M A := fun w => Ok a w.

Definition bind {A B} (m : M A) (k : A → M B) : M B := fun w =>
  match m w with
  | Ok a w' => k a w'
  | Throw w' => Throw w'
  | Undefined => Undefined
  | Terminate => Terminate
  | OutOfFuel => OutOfFuel
  end.

Notation "'do' x <- m ; k" := (bind m (fun x => k))
  (at level 10, x name, m at level 100, k at level 200).
Notation "m ;; k" := (bind m (fun _ => k))
  (at level 100, k at level 200, right associativity).

(** An exception that reaches the boundary of a [noexcept] function ends
    the program. *)
Definition noexcept {A} (m : M A) : M A := fun w =>
  match m w with
  | Throw _ => Terminate
  | r => r
  end.

(** [for (std::size_t i = lo; i < lo + count; i++) body(i)] *)
Fixpoint for_range (lo count : nat) (body : nat → M unit) : M unit :=
  match count with
  | 0 => ret tt
  | S count' => body lo ;; for_range (S lo) count' body
  end.

(** ** Objects *)

Definition get_obj (this : vid) : M vector_t := fun w =>
  match w_objs w !! this with
  | Some v => Ok v w
  | None => Undefined
  end.

Definition put_obj (this : vid) (v : vector_t) : M unit := fun w =>
  Ok tt (with_objs <[this := v]> w).

Definition set_data (this : vid) (d : option addr) : M unit :=
  do v <- get_obj this; put_obj this (mk_vector d (_size v) (_capacity v)).

Definition set_size (this : vid) (n : nat) : M unit :=
  do v <- get_obj this; put_obj this (mk_vector (_data v) n (_capacity v)).

Definition set_capacity (this : vid) (n : nat) : M unit :=
  do v <- get_obj this; put_obj this (mk_vector (_data v) (_size v) n).

(** Run a constructor: the members named in the initializer list are set,
    then the body runs.  If the body throws, the object never comes into
    existence.  [_data] has no initializer and is not read before the
    body assigns it. *)
Definition construct_obj (this : vid) (init : vector_t) (body : M unit) : M unit := fun w =>
  match w_objs w !! this with
  | Some _ => Undefined
  | None =>
      match body (with_objs <[this := init]> w) with
      | Throw w' => Throw (with_objs (delete this) w')
      | r => r
      end
  end.

(** End of the lifetime of the object itself. *)
Definition end_obj (this : vid) : M unit := fun w =>
  Ok tt (with_objs (delete this) w).

(** ** Storage: [std::allocator<T>] *)

Definition allocate (n : nat) : M addr := fun w =>
  match w_plan w with
  | false :: plan' =>
      Throw (mk_world (w_objs w) (w_heap w) (w_next w) plan' (w_trace w))
  | plan =>
      let p := w_next w in
      Ok p (mk_world (w_objs w) (<[p := replicate n None]> (w_heap w))
              (Pos.succ p) (tail plan) (w_trace w ++ [EvAllocate n p]))
  end.

Definition deallocate (p : option addr) (n : nat) : M unit := fun w =>
  match p with
  | None => Ok tt w
  | Some a =>
      match w_heap w !! a with
      | Some b =>
          if length b =? n
          then Ok tt (log (EvDeallocate a n) (with_heap (delete a) w))
          else Undefined
      | None => Undefined
      end
  end.

(** ** Lifetime of elements *)

(** The slot [p + i], when [p] is a live block and [i] is within it. *)
Definition slot_at (p : option addr) (i : nat) (w : world) : option (option T) :=
  match p with
  | None => None
  | Some a =>
      match w_heap w !! a with
      | Some b => b !! i
      | None => None
      end
  end.

Definition store_slot (a : addr) (i : nat) (s : option T) (w : world) : world :=
  with_heap (alter (<[i := s]>) a) w.

(** [std::construct_at(p + i, v)] *)
Definition construct_at (p : option addr) (i : nat) (v : T) : M unit := fun w =>
  match p, slot_at p i w with
  | Some a, Some _ => Ok tt (log (EvConstruct a i) (store_slot a i (Some v) w))
  | _, _ => Undefined
  end.

(** [std::destroy_at(p + i)] *)
Definition destroy_at (p : option addr) (i : nat) : M unit := fun w =>
  match p, slot_at p i w with
  | Some a, Some (Some _) => Ok tt (log (EvDestroy a i) (store_slot a i None w))
  | _, _ => Undefined
  end.

(** [std::destroy_n(p + lo, n)], also [std::destroy(p + lo, p + lo + n)] *)
Definition destroy_n (p : option addr) (lo n : nat) : M unit :=
  for_range lo n (fun i => destroy_at p i).

(** Reading the value of [p[i]] (lvalue-to-rvalue conversion, or the
    argument of a copy constructor). *)
Definition read_slot (p : option addr) (i : nat) : M T := fun w =>
  match slot_at p i w with
  | Some (Some v) => Ok v w
  | _ => Undefined
  end.

(** [std::move(p[i])] consumed by a move constructor: yields the value and
    leaves the source alive in its moved-from state. *)
Definition move_slot (p : option addr) (i : nat) : M T := fun w =>
  match p, slot_at p i w with
  | Some a, Some (Some v) => Ok v (store_slot a i (Some (T_moved v)) w)
  | _, _ => Undefined
  end.

(** Assignment through a reference to [p[i]]. *)
Definition assign_slot (p : option addr) (i : nat) (v : T) : M unit := fun w =>
  match p, slot_at p i w with
  | Some a, Some (Some _) => Ok tt (store_slot a i (Some v) w)
  | _, _ => Undefined
  end.

(** ** Member functions of [vector_t] *)

(** [vector_t() noexcept] *)
Definition ctor_default (this : vid) : M unit :=
  construct_obj this (mk_vector None 0 0) (ret tt).

(** [explicit vector_t(std::size_t s)] *)
Definition ctor_sized (this : vid) (s : nat) : M unit :=
  construct_obj this (mk_vector None s s)
    (do p <- allocate s;
     set_data this (Some p) ;;
     do t <- get_obj this;
     for_range 0 (_size t) (fun i =>
       do t <- get_obj this;
       construct_at (_data t) i T_default)).

(** [vector_t(vector_t const &other)] *)
Definition ctor_copy (this other : vid) : M unit :=
  do o <- get_obj other;
  construct_obj this (mk_vector None (_size o) (_capacity o))
    (do o <- get_obj other;
     do p <- allocate (_capacity o);
     set_data this (Some p) ;;
     do t <- get_obj this;
     for_range 0 (_size t) (fun i =>
       do o <- get_obj other;
       do v <- read_slot (_data o) i;
       do t <- get_obj this;
       construct_at (_data t) i v)).

(** [vector_t(vector_t &&other) noexcept] *)
Definition ctor_move (this other : vid) : M unit :=
  noexcept
    (do o <- get_obj other;
     construct_obj this (mk_vector None (_size o) (_capacity o))
       (do t <- get_obj this;
        do p <- allocate (_capacity t);
        set_data this (Some p) ;;
        do o <- get_obj other;
        set_data this (_data o) ;;
        set_data other None ;;
        set_size other 0)).

(** [vector_t &operator=(vector_t const &other)] *)
Definition assign_copy (this other : vid) : M unit :=
  do o <- get_obj other;
  set_size this (_size o) ;;
  do o <- get_obj other;
  set_capacity this (_capacity o) ;;
  do t <- get_obj this;
  do p <- allocate (_capacity t);
  set_data this (Some p) ;;
  do t <- get_obj this;
  for_range 0 (_size t) (fun i =>
    do o <- get_obj other;
    do v <- read_slot (_data o) i;
    do t <- get_obj this;
    construct_at (_data t) i v).

(** [std::size_t size() const] *)
Definition size (this : vid) : M nat :=
  do t <- get_obj this; ret (_size t).

(** [vector_t &operator=(vector_t &&other) noexcept] *)
Definition assign_move (this other : vid) : M unit :=
  noexcept
    (do n <- size other;
     set_size this n ;;
     do o <- get_obj other;
     set_capacity this (_capacity o) ;;
     do t <- get_obj this;
     do p <- allocate (_capacity t);
     set_data this (Some p) ;;
     do o <- get_obj other;
     set_data this (_data o) ;;
     set_data other None ;;
     set_size other 0).

(** [T &operator[](std::size_t i)], used to read. *)
Definition index_read (this : vid) (i : nat) : M T :=
  do t <- get_obj this; read_slot (_data t) i.

(** [T &operator[](std::size_t i)], used to assign: [v[i] = x]. *)
Definition index_write (this : vid) (i : nat) (x : T) : M unit :=
  do t <- get_obj this; assign_slot (_data t) i x.

(** [reserve] and [resize] call each other; the recursion is cut by a
    fuel argument.  Two units are always enough ([reserve_fuel_enough],
    [resize_fuel_enough] below). *)
Fixpoint reserve_fuel (fuel : nat) (this : vid) (new_capacity : nat) : M unit :=
  match fuel with
  | 0 => fun _ => OutOfFuel
  | S fuel' =>
      do t <- get_obj this;
      if new_capacity <? _size t then
        resize_fuel fuel' this (_size t) ;;
        do t <- get_obj this;
        set_capacity this (_size t)
      else if _capacity t <? new_capacity then
        do new_buffer <- allocate new_capacity;
        do t <- get_obj this;
        for_range 0 (_size t) (fun i =>
          do t <- get_obj this;
          do v <- move_slot (_data t) i;
          construct_at (Some new_buffer) i v) ;;
        do t <- get_obj this;
        destroy_n (_data t) 0 (_size t) ;;
        do t <- get_obj this;
        deallocate (_data t) (_capacity t) ;;
        set_data this (Some new_buffer) ;;
        set_capacity this new_capacity
      else ret tt
  end
with resize_fuel (fuel : nat) (this : vid) (new_size : nat) : M unit :=
  match fuel with
  | 0 => fun _ => OutOfFuel
  | S fuel' =>
      do t <- get_obj this;
      (if _size t <? new_size then
         (if _capacity t <? new_size then reserve_fuel fuel' this new_size else ret tt) ;;
         do t <- get_obj this;
         for_range (_size t) (new_size - _size t) (fun i =>
           do t <- get_obj this;
           construct_at (_data t) i T_default)
       else ret tt) ;;
      do t <- get_obj this;
      (if new_size <? _size t then
         destroy_n (_data t) new_size (_size t - new_size)
       else ret tt) ;;
      set_size this new_size
  end.

(** [void reserve(std::size_t new_capacity)] *)
Definition reserve (this : vid) (new_capacity : nat) : M unit :=
  reserve_fuel 2 this new_capacity.

(** [void resize(std::size_t new_size)] *)
Definition resize (this : vid) (new_size : nat) : M unit :=
  resize_fuel 2 this new_size.

(** The argument of [emplace_back].  The function takes forwarding
    references and hands them to the constructor of [T], which reads
    them when the element is constructed.  With the constructors the
    element type offers here, an argument is
    - a value that lives in no block (a temporary, a local variable, the
      empty argument list of a default construction): [ByValue];
    - a reference to a slot, from which the element is copy-constructed:
      [ByRef], as in [v.emplace_back(u[i])] and [v.emplace_back(v[i])];
    - an rvalue reference to a slot, from which the element is
      move-constructed: [ByMove], as in [v.emplace_back(std::move(u[i]))].
    The caller evaluates [u[i]] to a reference before the call: the
    argument is the pointer, not the expression. *)
Inductive arg :=
| ByValue (x : T)
| ByRef (p : pointer)
| ByMove (p : pointer).

(** What the constructor of the new element does with the argument, at
    the time it runs. *)
Definition read_arg (a : arg) : M T :=
  match a with
  | ByValue x => ret x
  | ByRef p => read_slot (ptr_block p) (ptr_index p)
  | ByMove p => move_slot (ptr_block p) (ptr_index p)
  end.

(** [template<typename... Args> void emplace_back(Args &&...args)]: the
    argument is read by [std::construct_at], after the calls to
    [reserve]. *)
Definition emplace_back (this : vid) (a : arg) : M unit :=
  do t <- get_obj this;
  (if _size t =? _capacity t then reserve this (2 * _capacity t) else ret tt) ;;
  do t <- get_obj this;
  (if _capacity t =? 0 then reserve this 16 else ret tt) ;;
  do t <- get_obj this;
  do x <- read_arg a;
  construct_at (_data t) (_size t) x ;;
  do t <- get_obj this;
  set_size this (_size t + 1).

(** [~vector_t()] *)
Definition dtor (this : vid) : M unit :=
  do t <- get_obj this;
  (match _data t with
   | Some _ =>
       destroy_n (_data t) 0 (_size t) ;;
       do t <- get_obj this;
       deallocate (_data t) (_capacity t) ;;
       set_data this None
   | None => ret tt
   end) ;;
  end_obj this.


(** [T *begin()] and [T const *begin() const] *)
Definition begin (this : vid) : M pointer :=
  do t <- get_obj this; ret (mk_pointer (_data t) 0).

(** [T *end()] and [T const *end() const] *)
Definition end_ (this : vid) : M pointer :=
  do t <- get_obj this; ret (mk_pointer (_data t) (_size t)).

(** [p + k] *)
Definition advance (p : pointer) (k : nat) : pointer :=
  mk_pointer (ptr_block p) (ptr_index p + k).

(** [*p], read. *)
Definition deref (p : pointer) : M T :=
  read_slot (ptr_block p) (ptr_index p).

End VectorModel.

Arguments world T : clear implicits.
Arguments outcome T A : clear implicits.
Arguments M T A : clear implicits.
Arguments arg T : clear implicits.
Arguments Ok {T A} a w.
Arguments Throw {T A} w.
Arguments Undefined {T A}.
Arguments Terminate {T A}.
Arguments OutOfFuel {T A}.

Notation "'do' x <- m ; k" := (bind m (fun x => k))
  (at level 10, x name, m at level 100, k at level 200).
Notation "m ;; k" := (bind m (fun _ => k))
  (at level 100, k at level 200, right associativity).

(** ** Vocabulary of the specifications *)

Section Vocabulary.

Context `{ET : Element T}.

Implicit Types w : world T.

(** The allocator serves the next request unless the plan says that it
    fails. *)
Definition next_alloc_ok (w : world T) : Prop := head (w_plan w) ≠ Some false.

(** State after a successful [allocate(n)]. *)
Definition allocated (n : nat) (w : world T) : world T :=
  mk_world (w_objs w) (<[w_next w := replicate n None]> (w_heap w))
    (Pos.succ (w_next w)) (tail (w_plan w)) (w_trace w ++ [EvAllocate n (w_next w)]).

(** State after a failed [allocate]. *)
Definition alloc_failed (w : world T) : world T :=
  mk_world (w_objs w) (w_heap w) (w_next w) (tail (w_plan w)) (w_trace w).

(** Several events appended to the trace. *)
Definition log_all (evs : list event) (w : world T) : world T :=
  mk_world (w_objs w) (w_heap w) (w_next w) (w_plan w) (w_trace w ++ evs).

(** A buffer of [cap] slots whose first slots hold [vals]. *)
Definition block_of (vals : list T) (cap : nat) : list (option T) :=
  (Some <$> vals) ++ replicate (cap - length vals) None.

(** Every block of the heap was handed out before [w_next]. *)
Definition heap_fresh (w : world T) : Prop :=
  ∀ p, is_Some (w_heap w !! p) → (p < w_next w)%positive.

(** No request to the allocator is planned to fail. *)
Definition allocations_succeed (w : world T) : Prop :=
  ∀ b, b ∈ w_plan w → b = true.

(** The object [this] is a vector that holds exactly [vals], in a buffer
    of [cap] slots: the invariants listed at the top of the header, for one
    object. *)
Definition holds (w : world T) (this : nat) (vals : list T) (cap : nat) : Prop :=
  ∃ v, w_objs w !! this = Some v ∧
       _size v = length vals ∧ _capacity v = cap ∧
       match _data v with
       | Some p => w_heap w !! p = Some (block_of vals cap) ∧ length vals ≤ cap
       | None => vals = [] ∧ cap = 0
       end.

(** Lifetime events of a range of slots of the block [d] points to (a null
    pointer has no slot). *)
Definition construct_events (d : option addr) (lo n : nat) : list event :=
  match d with Some p => EvConstruct p <$> seq lo n | None => [] end.

Definition destroy_events (d : option addr) (lo n : nat) : list event :=
  match d with Some p => EvDestroy p <$> seq lo n | None => [] end.

Definition deallocate_events (d : option addr) (n : nat) : list event :=
  match d with Some p => [EvDeallocate p n] | None => [] end.

(** What the growing branch of [reserve] logs for the vector [v]. *)
Definition relocate_events (v : vector_t) (n : nat) (q : addr) : list event :=
  [EvAllocate n q] ++ construct_events (Some q) 0 (_size v) ++
  destroy_events (_data v) 0 (_size v) ++
  deallocate_events (_data v) (_capacity v).

(** State after the growing branch of [reserve] on the vector [v], which
    holds [vals]: the values sit in a fresh block of [n] slots and the old
    block is gone. *)
Definition relocated (this : nat) (v : vector_t) (vals : list T) (n : nat)
    (w : world T) : world T :=
  mk_world
    (<[this := mk_vector (Some (w_next w)) (_size v) n]> (w_objs w))
    (<[w_next w := block_of vals n]>
       (match _data v with Some p => delete p (w_heap w) | None => w_heap w end))
    (Pos.succ (w_next w))
    (tail (w_plan w))
    (w_trace w ++ relocate_events v n (w_next w)).

(** The growth policy of [emplace_back], as the comment above it states
    it: 16 slots for a vector without capacity, twice the capacity for a
    full one. *)
Definition grown_capacity (size cap : nat) : nat :=
  if size =? cap then (if cap =? 0 then 16 else 2 * cap) else cap.

(** Capacity after [n] calls of [emplace_back] on a vector that started
    with size 0 and capacity 0: the [k+1]-th call finds size [k] and
    applies the growth policy. *)
Fixpoint growth_schedule (n : nat) : nat :=
  match n with
  | 0 => 0
  | S k => grown_capacity k (growth_schedule k)
  end.

(** [emplace_back] called once for each value of [xs], in order. *)
Fixpoint emplace_back_all (this : nat) (xs : list T) : M T unit :=
  match xs with
  | [] => ret tt
  | x :: xs' => emplace_back this (ByValue x) ;; emplace_back_all this xs'
  end.

(** What [resize(n)] logs on the vector [v]; [d'] is the data pointer
    after the call and [q] the block a growth would obtain. *)
Definition resize_events (v : vector_t) (n : nat) (q : addr) (d' : option addr) : list event :=
  (if _capacity v <? n then relocate_events v n q else []) ++
  construct_events d' (_size v) (n - _size v) ++
  destroy_events (_data v) n (_size v - n).

(** Events of the lifetime manager, as opposed to those of storage. *)
Definition lifetime_event (e : event) : bool :=
  match e with
  | EvConstruct _ _ | EvDestroy _ _ => true
  | _ => false
  end.

(** A request to the allocator for 0 slots. *)
Definition zero_allocation (e : event) : bool :=
  match e with
  | EvAllocate 0 _ => true
  | _ => false
  end.

(** [w'] differs from [w] at most by the contents of slots and by lifetime
    events: no object, no block and nothing of the allocator changed. *)
Definition slots_only (w w' : world T) : Prop :=
  w_objs w' = w_objs w ∧ w_next w' = w_next w ∧ w_plan w' = w_plan w ∧
  dom (w_heap w') = dom (w_heap w) ∧
  ∃ evs, w_trace w' = w_trace w ++ evs ∧ Forall (λ e, lifetime_event e = true) evs.

(** A computation that only touches slots, and does not throw. *)
Definition quiet {A} (m : M T A) : Prop :=
  ∀ w, match m w with
       | Ok _ w' => slots_only w w'
       | Throw _ => False
       | _ => True
       end.

(** The two ways [reserve], [resize] and [emplace_back] can affect the
    vector [this]: it keeps its block, or it moves to the block the
    allocator hands out next and its former block is released. *)
Definition in_place (this : nat) (w w' : world T) : Prop :=
  ∃ v v', w_objs w !! this = Some v ∧
          w_objs w' = <[this := v']> (w_objs w) ∧
          _data v' = _data v ∧ (_capacity v' = 0 → _capacity v = 0) ∧
          w_next w' = w_next w ∧ w_plan w' = w_plan w ∧
          dom (w_heap w') = dom (w_heap w) ∧
          ∃ evs, w_trace w' = w_trace w ++ evs ∧
                 Forall (λ e, lifetime_event e = true) evs.

Definition block_set (d : option addr) : gset positive :=
  match d with Some p => {[ p ]} | None => ∅ end.

Definition relocation (this : nat) (w w' : world T) : Prop :=
  ∃ v v', w_objs w !! this = Some v ∧
          w_objs w' = <[this := v']> (w_objs w) ∧
          _data v' = Some (w_next w) ∧ 0 < _capacity v' ∧
          w_next w' = Pos.succ (w_next w) ∧ w_plan w' = tail (w_plan w) ∧
          dom (w_heap w') = ({[ w_next w ]} ∪ dom (w_heap w)) ∖ block_set (_data v) ∧
          ∃ evs, w_trace w' = w_trace w ++ evs ∧
                 Forall (λ e, zero_allocation e = false) evs.

Definition footprint (this : nat) (w w' : world T) : Prop :=
  in_place this w w' ∨ relocation this w w'.

(** ** Operations on vectors, and the invariants of a program *)

Inductive op :=
| OpDefault (this : nat)
| OpSized (this : nat) (s : nat)
| OpCopy (this other : nat)
| OpMove (this other : nat)
| OpAssignCopy (this other : nat)
| OpAssignMove (this other : nat)
| OpReserve (this : nat) (new_capacity : nat)
| OpResize (this : nat) (new_size : nat)
| OpEmplaceBack (this : nat) (a : arg T)
| OpAssignElement (this : nat) (i : nat) (x : T)
| OpDestroy (this : nat).

Definition exec (o : op) : M T unit :=
  match o with
  | OpDefault this => ctor_default this
  | OpSized this s => ctor_sized this s
  | OpCopy this other => ctor_copy this other
  | OpMove this other => ctor_move this other
  | OpAssignCopy this other => assign_copy this other
  | OpAssignMove this other => assign_move this other
  | OpReserve this n => reserve this n
  | OpResize this n => resize this n
  | OpEmplaceBack this a => emplace_back this a
  | OpAssignElement this i x => index_write this i x
  | OpDestroy this => dtor this
  end.

(** No block is referenced by two vectors. *)
Definition unshared (objs : gmap nat vector_t) : Prop :=
  ∀ i j vi vj p,
    objs !! i = Some vi → objs !! j = Some vj →
    _data vi = Some p → _data vj = Some p → i = j.

(** A non-null [_data] points to a block that is allocated. *)
Definition data_allocated (objs : gmap nat vector_t) (blocks : gset positive) : Prop :=
  ∀ i v p, objs !! i = Some v → _data v = Some p → p ∈ blocks.

Definition valid_world (w : world T) : Prop :=
  heap_fresh w ∧
  data_allocated (w_objs w) (dom (w_heap w)) ∧
  unshared (w_objs w).

(** What a vector lets one observe: its members and the slots of its
    block. *)
Definition view (w : world T) (this : nat) : option (vector_t * option (list (option T))) :=
  match w_objs w !! this with
  | Some v => Some (v, match _data v with Some p => w_heap w !! p | None => None end)
  | None => None
  end.

(** A vector without capacity has a null [_data]. *)
Definition null_when_empty (objs : gmap nat vector_t) : Prop :=
  ∀ i v, objs !! i = Some v → _capacity v = 0 → _data v = None.

(** The allocator was never asked for 0 slots. *)
Definition no_zero_allocation (tr : list event) : Prop :=
  Forall (λ e, zero_allocation e = false) tr.

(** A vector of capacity 0 whose [_data] is not null. *)
Definition empty_with_block (v : vector_t) : Prop :=
  _capacity v = 0 ∧ is_Some (_data v).

(** The sized constructor, the two copies and the two moves pass a
    capacity to [allocate] without looking at it: the size given, or the
    capacity of the source.  The other operations only call [allocate]
    through [reserve]. *)
Definition first_request (o : op) (w : world T) : option nat :=
  match o with
  | OpSized _ s => Some s
  | OpCopy _ other | OpMove _ other
  | OpAssignCopy _ other | OpAssignMove _ other =>
      _capacity <$> w_objs w !! other
  | _ => None
  end.

(** The vector that keeps the pointer returned for that request (the
    moves overwrite it at once). *)
Definition stores_request (o : op) : option nat :=
  match o with
  | OpSized this _ | OpCopy this _ | OpAssignCopy this _ => Some this
  | _ => None
  end.

(** The vector whose members the destination [j] of a move takes. *)
Definition adopts (o : op) (j : nat) : option nat :=
  match o with
  | OpMove this other | OpAssignMove this other =>
      if decide (j = this) then Some other else None
  | _ => None
  end.

(** State after the allocation and the copy loop shared by the copy
    constructor and copy assignment: [this] owns a fresh block holding the
    values of the source. *)
Definition copied (this : nat) (o : vector_t) (vals : list T) (w : world T) : world T :=
  mk_world (<[this := mk_vector (Some (w_next w)) (_size o) (_capacity o)]> (w_objs w))
    (<[w_next w := block_of vals (_capacity o)]> (w_heap w))
    (Pos.succ (w_next w)) (tail (w_plan w))
    (w_trace w ++ EvAllocate (_capacity o) (w_next w) ::
       (EvConstruct (w_next w) <$> seq 0 (length vals))).

(** State after a move of the vector [o], object [other], into [this]:
    the members are copied, the source is left null with size 0, and the
    block requested from the allocator stays behind, unused. *)
Definition moved (this other : nat) (o : vector_t) (w : world T) : world T :=
  mk_world
    (<[other := mk_vector None 0 (_capacity o)]>
       (<[this := mk_vector (_data o) (_size o) (_capacity o)]> (w_objs w)))
    (<[w_next w := replicate (_capacity o) None]> (w_heap w))
    (Pos.succ (w_next w)) (tail (w_plan w))
    (w_trace w ++ [EvAllocate (_capacity o) (w_next w)]).

(** ** What an operation may touch *)

(** The vectors an operation works on: the object it is called on and,
    for the two moves, the source, which is modified as well. *)
Definition targets (o : op) : gset nat :=
  match o with
  | OpDefault this | OpSized this _ | OpCopy this _ | OpAssignCopy this _
  | OpReserve this _ | OpResize this _ | OpEmplaceBack this _
  | OpAssignElement this _ _ | OpDestroy this => {[ this ]}
  | OpMove this other | OpAssignMove this other => {[ this; other ]}
  end.

(** The block an [emplace_back] moves its argument from, when the
    argument is an rvalue reference to a slot. *)
Definition moved_from (o : op) : gset positive :=
  match o with
  | OpEmplaceBack _ (ByMove p) => block_set (ptr_block p)
  | _ => ∅
  end.

(** The block [p] is the buffer of one of the vectors [who]. *)
Definition owned (who : gset nat) (w : world T) (p : addr) : Prop :=
  ∃ j v, j ∈ who ∧ w_objs w !! j = Some v ∧ _data v = Some p.

(** From [w] to [w'], only the vectors [who] changed, and of the blocks
    that existed in [w] only their buffers and the blocks [tmp]; the
    buffers they have in [w'] are buffers they had, blocks of [tmp] or
    blocks allocated since. *)
Definition frame (who : gset nat) (tmp : gset positive) (w w' : world T) : Prop :=
  (w_next w ≤ w_next w')%positive ∧
  (∀ j, j ∉ who → w_objs w' !! j = w_objs w !! j) ∧
  (∀ p, (p < w_next w)%positive → p ∉ tmp → ¬ owned who w p →
        w_heap w' !! p = w_heap w !! p) ∧
  (∀ p, owned who w' p → owned who w p ∨ p ∈ tmp ∨ (w_next w ≤ p)%positive).

(** The computation [m], run from [w], stays within that frame, whether it
    returns or throws. *)
Definition framed {A} (who : gset nat) (tmp : gset positive) (m : M T A)
    (w : world T) : Prop :=
  match m w with
  | Ok _ w' | Throw w' => frame who tmp w w'
  | _ => True
  end.

(** A pointer through which the vectors [who] may write. *)
Definition permitted (who : gset nat) (tmp : gset positive) (w : world T)
    (d : option addr) : Prop :=
  ∀ p, d = Some p → owned who w p ∨ p ∈ tmp.

(** ** A vector used from construction to destruction *)

(** Operations run one after the other. *)
Definition run_all (ops : list op) : M T unit :=
  foldr (λ o k, exec o ;; k) (ret tt) ops.

(** The operations that set the size of the vector [this] or append to
    it a value that lives in no block. *)
Definition grows (this : nat) (o : op) : bool :=
  match o with
  | OpResize t _ | OpEmplaceBack t (ByValue _) => bool_decide (t = this)
  | _ => false
  end.

(** Apart from the buffer of the vector [this], which did not exist in
    [w0], the heap of [w] is the heap of [w0], and the other objects are
    those of [w0]. *)
Definition only_buffer (this : nat) (w0 w : world T) : Prop :=
  (w_next w0 ≤ w_next w)%positive ∧
  (∀ j, j ≠ this → w_objs w !! j = w_objs w0 !! j) ∧
  ∃ v, w_objs w !! this = Some v ∧
       (∀ p, _data v = Some p → w_heap w0 !! p = None) ∧
       (∀ p, _data v ≠ Some p → w_heap w !! p = w_heap w0 !! p).

(** A computation that never runs out of fuel. *)
Definition terminates {A} (m : M T A) : Prop := ∀ w, m w ≠ OutOfFuel.

End Vocabulary.

(** ** A concrete instance: [vector_t<int>] *)

(** [int()] is zero and moving an [int] copies it. *)
#[export] Instance int_element : Element Z := {|
  T_default := 0%Z;
  T_moved := fun v => v
|}.

(** A program start: no object, an empty heap, an allocator that never
    fails. *)
Definition empty_world : world Z := mk_world ∅ ∅ 1%positive [] [].

Definition is_allocate (e : event) : bool :=
  match e with EvAllocate _ _ => true | _ => false end.

Definition is_deallocate (e : event) : bool :=
  match e with EvDeallocate _ _ => true | _ => false end.

Definition count_events (f : event → bool) (tr : list event) : nat :=
  length (List.filter f tr).

(** A destination of capacity 4 is copy-assigned from a source of capacity
    100, then both go out of scope. *)
Definition copy_assign_scenario : M Z unit :=
  ctor_sized 0 4 ;;
  ctor_sized 1 100 ;;
  assign_copy 0 1 ;;
  dtor 0 ;;
  dtor 1.

(** A vector holding 7 and 8, built by two [emplace_back]. *)
Definition two_elements : M Z unit :=
  ctor_default 0 ;;
  emplace_back 0 (ByValue 7%Z) ;;
  emplace_back 0 (ByValue 8%Z).

(** The state [two_elements] ends in. *)
Definition two_elements_world : world Z :=
  mk_world {[ 0 := mk_vector (Some 1%positive) 2 16 ]}
    {[ 1%positive := [Some 7%Z; Some 8%Z] ++ replicate 14 None ]}
    2%positive []
    [EvAllocate 16 1; EvConstruct 1 0; EvConstruct 1 1].

(** Two vectors of sizes 2 and 5, and an allocator whose third request
    fails. *)
Definition third_allocation_fails : world Z :=
  mk_world ∅ ∅ 1%positive [true; true; false] [].

(** A default-constructed vector in an otherwise empty program. *)
Definition fresh_vector_world : world Z :=
  mk_world {[ 0 := mk_vector None 0 0 ]} ∅ 1%positive [] [].

(** The values 1 to 17. *)
Definition seventeen : list Z := Z.of_nat <$> seq 1 17.

(** Two vectors of sizes 2 and 3, as left by their sized constructors. *)
Definition two_vectors_world : world Z :=
  mk_world
    {[ 0 := mk_vector (Some 1%positive) 2 2; 1 := mk_vector (Some 2%positive) 3 3 ]}
    {[ 1%positive := [Some 0%Z; Some 0%Z];
       2%positive := [Some 0%Z; Some 0%Z; Some 0%Z] ]}
    3%positive []
    [EvAllocate 2 1; EvConstruct 1 0; EvConstruct 1 1;
     EvAllocate 3 2; EvConstruct 2 0; EvConstruct 2 1; EvConstruct 2 2].

(** The vector [7, 8] of capacity 16, with an allocator that refuses the
    next request. *)
Definition refusing_world : world Z :=
  mk_world (w_objs two_elements_world) (w_heap two_elements_world)
    (w_next two_elements_world) [false] (w_trace two_elements_world).

(** Two vectors of sizes 2 and 3, with an allocator that refuses the next
    request. *)
Definition refusing_two_vectors_world : world Z :=
  mk_world (w_objs two_vectors_world) (w_heap two_vectors_world)
    (w_next two_vectors_world) [false] (w_trace two_vectors_world).

(** The values 1 to 16. *)
Definition sixteen : list Z := Z.of_nat <$> seq 1 16.

(** The state [vector_t<int> v(0)] ends in: capacity 0 and the pointer
    returned for a request of 0 slots. *)
Definition zero_sized_world : world Z :=
  mk_world {[ 0 := mk_vector (Some 1%positive) 0 0 ]}
    {[ 1%positive := [] ]} 2%positive [] [EvAllocate 0 1].
Section VectorProofs.

Context `{ET : Element T}.

Implicit Types w : world T.

(** ** Reasoning about computations *)

Section MonadLaws.
Context {A B : Type}.
Implicit Types (m : M T A) (k : A → M T B).

Lemma bind_run m k w a w1 : m w = Ok a w1 → bind m k w = k a w1.
Proof. unfold bind. by intros ->. Qed.

Lemma bind_Ok m k w b w' :
  bind m k w = Ok b w' ↔ ∃ a w1, m w = Ok a w1 ∧ k a w1 = Ok b w'.
Proof.
  unfold bind. split.
  - destruct (m w) as [a w1| | | |]; try discriminate. eauto.
  - by intros (a & w1 & -> & ?).
Qed.

Lemma bind_Throw m k w w' :
  bind m k w = Throw w' ↔
  m w = Throw w' ∨ ∃ a w1, m w = Ok a w1 ∧ k a w1 = Throw w'.
Proof.
  unfold bind. split.
  - destruct (m w) as [a w1| | | |]; naive_solver.
  - intros [-> | (a & w1 & -> & ?)]; done.
Qed.

End MonadLaws.

Lemma bind_assoc {A B C} (m : M T A) (k1 : A → M T B) (k2 : B → M T C) w :
  bind (bind m k1) k2 w = bind m (fun a => bind (k1 a) k2) w.
Proof. unfold bind. by destruct (m w). Qed.

Lemma noexcept_Ok {A} (m : M T A) w a w' : noexcept m w = Ok a w' ↔ m w = Ok a w'.
Proof. unfold noexcept. destruct (m w); split; congruence. Qed.

Lemma noexcept_Throw {A} (m : M T A) w w' : noexcept m w ≠ Throw w'.
Proof. unfold noexcept. destruct (m w); congruence. Qed.

Lemma get_obj_Ok this w v w' :
  get_obj this w = Ok v w' ↔ w_objs w !! this = Some v ∧ w' = w.
Proof.
  unfold get_obj. destruct (w_objs w !! this); split;
    try intros [? ?]; try intros ?; simplify_eq; done.
Qed.

Lemma get_obj_run this w v : w_objs w !! this = Some v → get_obj this w = Ok v w.
Proof. intros. by apply get_obj_Ok. Qed.

Lemma get_obj_Throw this w w' : get_obj this w ≠ Throw w'.
Proof. unfold get_obj. by destruct (w_objs w !! this). Qed.

Lemma set_data_Ok this d w w' :
  set_data this d w = Ok tt w' ↔
  ∃ v, w_objs w !! this = Some v ∧
       w' = with_objs <[this := mk_vector d (_size v) (_capacity v)]> w.
Proof.
  unfold set_data. rewrite bind_Ok. split.
  - intros (v & w1 & [? ->]%get_obj_Ok & Hp). unfold put_obj in Hp. naive_solver.
  - intros (v & ? & ->). exists v, w. by rewrite get_obj_Ok.
Qed.

Lemma set_size_Ok this n w w' :
  set_size this n w = Ok tt w' ↔
  ∃ v, w_objs w !! this = Some v ∧
       w' = with_objs <[this := mk_vector (_data v) n (_capacity v)]> w.
Proof.
  unfold set_size. rewrite bind_Ok. split.
  - intros (v & w1 & [? ->]%get_obj_Ok & Hp). unfold put_obj in Hp. naive_solver.
  - intros (v & ? & ->). exists v, w. by rewrite get_obj_Ok.
Qed.

Lemma set_capacity_Ok this n w w' :
  set_capacity this n w = Ok tt w' ↔
  ∃ v, w_objs w !! this = Some v ∧
       w' = with_objs <[this := mk_vector (_data v) (_size v) n]> w.
Proof.
  unfold set_capacity. rewrite bind_Ok. split.
  - intros (v & w1 & [? ->]%get_obj_Ok & Hp). unfold put_obj in Hp. naive_solver.
  - intros (v & ? & ->). exists v, w. by rewrite get_obj_Ok.
Qed.

Lemma set_data_Throw this d w w' : set_data this d w ≠ Throw w'.
Proof.
  unfold set_data. rewrite bind_Throw. intros [H | (? & ? & _ & H)]; [|done].
  by apply get_obj_Throw in H.
Qed.

Lemma set_size_Throw this n w w' : set_size this n w ≠ Throw w'.
Proof.
  unfold set_size. rewrite bind_Throw. intros [H | (? & ? & _ & H)]; [|done].
  by apply get_obj_Throw in H.
Qed.

Lemma set_capacity_Throw this n w w' : set_capacity this n w ≠ Throw w'.
Proof.
  unfold set_capacity. rewrite bind_Throw. intros [H | (? & ? & _ & H)]; [|done].
  by apply get_obj_Throw in H.
Qed.

Lemma construct_obj_Ok this init body w w' :
  construct_obj this init body w = Ok tt w' ↔
  w_objs w !! this = None ∧ body (with_objs <[this := init]> w) = Ok tt w'.
Proof.
  unfold construct_obj. destruct (w_objs w !! this); [naive_solver|].
  destruct (body _) as [[] ?| | | |]; naive_solver.
Qed.

Lemma construct_obj_Throw this init body w w' :
  construct_obj this init body w = Throw w' ↔
  w_objs w !! this = None ∧
  ∃ w1, body (with_objs <[this := init]> w) = Throw w1 ∧ w' = with_objs (delete this) w1.
Proof.
  unfold construct_obj. destruct (w_objs w !! this); [naive_solver|].
  destruct (body _) as [[] ?| | | |]; naive_solver.
Qed.

Lemma allocate_Ok n w p w' :
  allocate n w = Ok p w' ↔ next_alloc_ok w ∧ p = w_next w ∧ w' = allocated n w.
Proof.
  unfold allocate, next_alloc_ok, allocated.
  destruct (w_plan w) as [|[] ?]; simpl; naive_solver.
Qed.

Lemma allocate_Throw n w w' :
  allocate n w = Throw w' ↔ head (w_plan w) = Some false ∧ w' = alloc_failed w.
Proof.
  unfold allocate, alloc_failed.
  destruct (w_plan w) as [|[] ?]; simpl; naive_solver.
Qed.

Lemma allocate_run n w :
  next_alloc_ok w → allocate n w = Ok (w_next w) (allocated n w).
Proof. intros. by apply allocate_Ok. Qed.

Lemma deallocate_Ok p n w w' :
  deallocate p n w = Ok tt w' ↔
  match p with
  | None => w' = w
  | Some a => ∃ b, w_heap w !! a = Some b ∧ length b = n ∧
                   w' = log (EvDeallocate a n) (with_heap (delete a) w)
  end.
Proof.
  unfold deallocate. destruct p as [a|]; [|naive_solver].
  destruct (w_heap w !! a) as [b|]; [|naive_solver].
  destruct (Nat.eqb_spec (length b) n); naive_solver.
Qed.

Lemma deallocate_Throw p n w w' : deallocate p n w ≠ Throw w'.
Proof.
  unfold deallocate. destruct p as [a|]; [|done].
  destruct (w_heap w !! a) as [b|]; [|done]. by destruct (_ =? _).
Qed.

Lemma assign_slot_Ok p i x w w' :
  assign_slot p i x w = Ok tt w' ↔
  ∃ a v, p = Some a ∧ slot_at p i w = Some (Some v) ∧
         w' = store_slot a i (Some x) w.
Proof.
  unfold assign_slot. destruct p as [a|]; [|naive_solver].
  destruct (slot_at _ _ _) as [[?|]|]; naive_solver.
Qed.

Lemma construct_at_Throw p i v w w' : construct_at p i v w ≠ Throw w'.
Proof. unfold construct_at. destruct p; [|done]. by destruct (slot_at _ _ _). Qed.

Lemma with_objs_insert_id this v w :
  w_objs w !! this = Some v → with_objs <[this := v]> w = w.
Proof. intros Hv. destruct w; unfold with_objs; simpl in *. by rewrite insert_id. Qed.

Lemma set_size_run this n v w :
  w_objs w !! this = Some v →
  set_size this n w = Ok tt (with_objs <[this := mk_vector (_data v) n (_capacity v)]> w).
Proof. intros. apply set_size_Ok; eauto. Qed.

Lemma set_capacity_run this n v w :
  w_objs w !! this = Some v →
  set_capacity this n w = Ok tt (with_objs <[this := mk_vector (_data v) (_size v) n]> w).
Proof. intros. apply set_capacity_Ok; eauto. Qed.

Lemma set_data_run this d v w :
  w_objs w !! this = Some v →
  set_data this d w = Ok tt (with_objs <[this := mk_vector d (_size v) (_capacity v)]> w).
Proof. intros. apply set_data_Ok; eauto. Qed.

(** One step of forward execution: the first computation of a [bind]
    returns, by one of the [_run] lemmas or by an hypothesis. *)
Ltac solve_lookup := simpl; first [eassumption | apply lookup_insert_eq | eauto].
Ltac mrun :=
  first
    [ erewrite (bind_run (get_obj _)) by (apply get_obj_run; solve_lookup)
    | erewrite (bind_run (set_size _ _)) by (eapply set_size_run; solve_lookup)
    | erewrite (bind_run (set_capacity _ _)) by (eapply set_capacity_run; solve_lookup)
    | erewrite (bind_run (set_data _ _)) by (eapply set_data_run; solve_lookup)
    | erewrite (bind_run (allocate _)) by (apply allocate_run; simpl; eauto)
    | erewrite (bind_run (ret _)) by reflexivity ].

(** ** The mutual recursion of [reserve] and [resize] is two calls deep *)

Lemma reserve_fuel_unfold fuel this new_capacity :
  reserve_fuel (S fuel) this new_capacity =
  (do t <- get_obj this;
   if new_capacity <? _size t then
     resize_fuel fuel this (_size t) ;;
     do t <- get_obj this;
     set_capacity this (_size t)
   else if _capacity t <? new_capacity then
     do new_buffer <- allocate new_capacity;
     do t <- get_obj this;
     for_range 0 (_size t) (fun i =>
       do t <- get_obj this;
       do v <- move_slot (_data t) i;
       construct_at (Some new_buffer) i v) ;;
     do t <- get_obj this;
     destroy_n (_data t) 0 (_size t) ;;
     do t <- get_obj this;
     deallocate (_data t) (_capacity t) ;;
     set_data this (Some new_buffer) ;;
     set_capacity this new_capacity
   else ret tt).
Proof. reflexivity. Qed.

Lemma resize_fuel_unfold fuel this new_size :
  resize_fuel (S fuel) this new_size =
  (do t <- get_obj this;
   (if _size t <? new_size then
      (if _capacity t <? new_size then reserve_fuel fuel this new_size else ret tt) ;;
      do t <- get_obj this;
      for_range (_size t) (new_size - _size t) (fun i =>
        do t <- get_obj this;
        construct_at (_data t) i T_default)
    else ret tt) ;;
   do t <- get_obj this;
   (if new_size <? _size t then
      destroy_n (_data t) new_size (_size t - new_size)
    else ret tt) ;;
   set_size this new_size).
Proof. reflexivity. Qed.

(** [resize(_size)] touches nothing and never reaches [reserve]. *)
Lemma resize_to_same_size fuel this v w :
  w_objs w !! this = Some v →
  resize_fuel (S fuel) this (_size v) w = Ok tt w.
Proof.
  intros Hv. rewrite resize_fuel_unfold.
  mrun. rewrite Nat.ltb_irrefl.
  mrun. mrun. rewrite Nat.ltb_irrefl. mrun.
  erewrite set_size_run by eauto.
  f_equal. destruct v. by apply with_objs_insert_id.
Qed.

(** A request that does not exceed the capacity: nothing is allocated,
    moved or destroyed; only the branch [new_capacity < _size] writes
    [_capacity]. *)
Lemma reserve_no_growth this v new_capacity w :
  w_objs w !! this = Some v →
  new_capacity ≤ _capacity v →
  reserve this new_capacity w =
  Ok tt (if new_capacity <? _size v
         then with_objs <[this := mk_vector (_data v) (_size v) (_size v)]> w
         else w).
Proof.
  intros Hv Hle. unfold reserve. rewrite reserve_fuel_unfold.
  mrun. destruct (new_capacity <? _size v) eqn:Hlt.
  - erewrite bind_run by (by apply resize_to_same_size).
    mrun. by erewrite set_capacity_run by eauto.
  - by rewrite (proj2 (Nat.ltb_ge _ _) Hle).
Qed.

Lemma bind_ext_l {A B} (m m' : M T A) (k : A → M T B) w :
  m w = m' w → bind m k w = bind m' k w.
Proof. unfold bind. by intros ->. Qed.

Lemma bind_ext_r {A B} (m : M T A) (k k' : A → M T B) w :
  (∀ a w', k a w' = k' a w') → bind m k w = bind m k' w.
Proof. intros Hk. unfold bind. by destruct (m w). Qed.

Lemma bind_undefined {A B} (m : M T A) (k : A → M T B) w :
  m w = Undefined → bind m k w = Undefined.
Proof. unfold bind. by intros ->. Qed.

Lemma get_obj_undefined this w :
  w_objs w !! this = None → get_obj this w = Undefined.
Proof. unfold get_obj. by intros ->. Qed.

Lemma reserve_fuel_above_size fuel this v new_capacity w :
  w_objs w !! this = Some v →
  _size v ≤ new_capacity →
  reserve_fuel (S fuel) this new_capacity w = reserve_fuel 1 this new_capacity w.
Proof.
  intros Hv Hge. rewrite !reserve_fuel_unfold. do 2 mrun.
  by rewrite (proj2 (Nat.ltb_ge _ _) Hge).
Qed.

Lemma reserve_fuel_enough fuel this new_capacity w :
  reserve_fuel (S (S fuel)) this new_capacity w = reserve this new_capacity w.
Proof.
  unfold reserve. destruct (w_objs w !! this) as [v|] eqn:Hv.
  - destruct (decide (new_capacity < _size v)) as [Hlt|Hge].
    + rewrite !reserve_fuel_unfold. do 2 mrun.
      rewrite (proj2 (Nat.ltb_lt _ _) Hlt).
      apply bind_ext_l. by rewrite !resize_to_same_size.
    + rewrite (reserve_fuel_above_size (S fuel) this v) by (done || lia).
      by rewrite (reserve_fuel_above_size 1 this v) by (done || lia).
  - rewrite !reserve_fuel_unfold.
    by rewrite !(bind_undefined _ _ _ (get_obj_undefined _ _ Hv)).
Qed.

Lemma resize_fuel_enough fuel this new_size w :
  resize_fuel (S (S fuel)) this new_size w = resize this new_size w.
Proof.
  unfold resize. rewrite !resize_fuel_unfold.
  destruct (w_objs w !! this) as [v|] eqn:Hv.
  - do 2 mrun. destruct (_size v <? new_size) eqn:Hlt; [|done].
    destruct (_capacity v <? new_size); [|done].
    do 2 apply bind_ext_l. apply Nat.ltb_lt in Hlt.
    rewrite (reserve_fuel_above_size fuel this v) by (done || lia). done.
  - by rewrite !(bind_undefined _ _ _ (get_obj_undefined _ _ Hv)).
Qed.

Lemma terminates_ret {A} (a : A) : terminates (ret a : M T A).
Proof. done. Qed.

Lemma terminates_bind {A B} (m : M T A) (k : A → M T B) :
  terminates m → (∀ a, terminates (k a)) → terminates (bind m k).
Proof.
  intros Hm Hk w. unfold bind. specialize (Hm w).
  destruct (m w); try done. apply Hk.
Qed.

Lemma terminates_for_range lo count (body : nat → M T unit) :
  (∀ i, terminates (body i)) → terminates (for_range lo count body).
Proof.
  intros Hb. revert lo. induction count as [|c IH]; intros lo; simpl.
  - apply terminates_ret.
  - apply terminates_bind; auto.
Qed.

Lemma terminates_get_obj this : terminates (T:=T) (get_obj this).
Proof. intros w. unfold get_obj. by destruct (_ !! _). Qed.

Lemma terminates_put_obj this v : terminates (T:=T) (put_obj this v).
Proof. done. Qed.

Lemma terminates_allocate n : terminates (T:=T) (allocate n).
Proof. intros w. unfold allocate. by destruct (w_plan w) as [|[] ?]. Qed.

Lemma terminates_deallocate p n : terminates (T:=T) (deallocate p n).
Proof.
  intros w. unfold deallocate. destruct p; [|done].
  destruct (_ !! _); [|done]. by destruct (_ =? _).
Qed.

Lemma terminates_construct_at p i v : terminates (T:=T) (construct_at p i v).
Proof. intros w. unfold construct_at. destruct p; [|done]. by destruct (slot_at _ _ _). Qed.

Lemma terminates_destroy_at p i : terminates (T:=T) (destroy_at p i).
Proof.
  intros w. unfold destroy_at. destruct p; [|done].
  by destruct (slot_at _ _ _) as [[?|]|].
Qed.

Lemma terminates_move_slot p i : terminates (T:=T) (move_slot p i).
Proof.
  intros w. unfold move_slot. destruct p; [|done].
  by destruct (slot_at _ _ _) as [[?|]|].
Qed.

Lemma terminates_read_slot p i : terminates (T:=T) (read_slot p i).
Proof. intros w. unfold read_slot. by destruct (slot_at _ _ _) as [[?|]|]. Qed.

Ltac solve_terminates :=
  repeat first
    [ progress intros
    | apply terminates_ret | apply terminates_get_obj | apply terminates_put_obj
    | apply terminates_allocate | apply terminates_deallocate
    | apply terminates_construct_at | apply terminates_destroy_at
    | apply terminates_move_slot | apply terminates_read_slot
    | apply terminates_for_range
    | apply terminates_bind
    | match goal with |- terminates (if ?b then _ else _) => destruct b end
    | match goal with |- terminates (match ?o with Some _ => _ | None => _ end) => destruct o end
    | progress unfold set_data, set_size, set_capacity, destroy_n ].

(** Fuel never runs out: [reserve] and [resize] are total. *)
Lemma reserve_terminates this new_capacity : terminates (reserve this new_capacity).
Proof.
  intros w. unfold reserve. destruct (w_objs w !! this) as [v|] eqn:Hv.
  - destruct (decide (new_capacity < _size v)) as [Hlt|Hge].
    + rewrite reserve_fuel_unfold. mrun. rewrite (proj2 (Nat.ltb_lt _ _) Hlt).
      erewrite bind_run by (by apply resize_to_same_size).
      mrun. by erewrite set_capacity_run by eauto.
    + rewrite (reserve_fuel_above_size 1 this v) by (done || lia).
      rewrite reserve_fuel_unfold. mrun.
      rewrite (proj2 (Nat.ltb_ge _ _) (proj1 (Nat.nlt_ge _ _) Hge)).
      match goal with
      | |- ?f w ≠ OutOfFuel => assert (terminates f) as Ht by solve_terminates
      end.
      apply Ht.
  - rewrite reserve_fuel_unfold.
    by rewrite (bind_undefined _ _ _ (get_obj_undefined _ _ Hv)).
Qed.

Lemma resize_terminates this new_size : terminates (resize this new_size).
Proof.
  intros w. unfold resize. rewrite resize_fuel_unfold.
  destruct (w_objs w !! this) as [v|] eqn:Hv; cycle 1.
  { by rewrite (bind_undefined _ _ _ (get_obj_undefined _ _ Hv)). }
  mrun. destruct (_size v <? new_size) eqn:Hlt; [|revert w Hv; solve_terminates].
  destruct (_capacity v <? new_size); [|revert w Hv; solve_terminates].
  apply Nat.ltb_lt in Hlt.
  erewrite bind_ext_l; cycle 1.
  { apply bind_ext_l. symmetry. apply (reserve_fuel_above_size 1 this v); [done|lia]. }
  revert w Hv. intros w _. revert w.
  apply terminates_bind; [|solve_terminates].
  apply terminates_bind; [|solve_terminates].
  apply reserve_terminates.
Qed.

(** ** Inversion of computations that returned *)

Lemma ret_Ok {A} (a b : A) w w' : ret a w = Ok b w' ↔ b = a ∧ w' = w.
Proof. unfold ret. naive_solver. Qed.

Lemma put_obj_Ok this v w w' :
  put_obj this v w = Ok tt w' ↔ w' = with_objs <[this := v]> w.
Proof. unfold put_obj. naive_solver. Qed.

Lemma end_obj_Ok this w w' :
  end_obj this w = Ok tt w' ↔ w' = with_objs (delete this) w.
Proof. unfold end_obj. naive_solver. Qed.

Ltac minv_prim H :=
  lazymatch type of H with
  | ret _ _ = Ok _ _ => apply (proj1 (ret_Ok _ _ _ _)) in H as [? ->]; simplify_eq
  | get_obj _ _ = Ok _ _ => apply (proj1 (get_obj_Ok _ _ _ _)) in H as [H ->]
  | put_obj _ _ _ = Ok _ _ => apply (proj1 (put_obj_Ok _ _ _ _)) in H as ->
  | end_obj _ _ = Ok _ _ => apply (proj1 (end_obj_Ok _ _ _)) in H as ->
  | set_data _ _ _ = Ok _ _ => apply (proj1 (set_data_Ok _ _ _ _)) in H as (? & H & ->)
  | set_size _ _ _ = Ok _ _ => apply (proj1 (set_size_Ok _ _ _ _)) in H as (? & H & ->)
  | set_capacity _ _ _ = Ok _ _ =>
      apply (proj1 (set_capacity_Ok _ _ _ _)) in H as (? & H & ->)
  | allocate _ _ = Ok _ _ => apply (proj1 (allocate_Ok _ _ _ _)) in H as (H & -> & ->)
  | _ => idtac
  end.

(** Decompose an hypothesis [m w = Ok a w'] along the binds of [m]. *)
Ltac minv H :=
  cbv beta in H;
  lazymatch type of H with
  | bind _ _ _ = Ok _ _ =>
      let a := fresh "a" in
      let w := fresh "w" in
      let H1 := fresh "H" in
      apply (proj1 (bind_Ok _ _ _ _ _)) in H as (a & w & H1 & H);
      lazymatch type of a with unit => destruct a | _ => idtac end;
      minv H1; minv H
  | noexcept _ _ = Ok _ _ => apply (proj1 (noexcept_Ok _ _ _ _)) in H; minv H
  | construct_obj _ _ _ _ = Ok _ _ =>
      let Hnew := fresh "Hnew" in
      apply (proj1 (construct_obj_Ok _ _ _ _ _)) in H as [Hnew H]; minv H
  | size _ _ = Ok _ _ => unfold size in H; minv H
  | _ => minv_prim H
  end.

(** ** Moves of the container *)

(** The destructor of an object whose [_data] is null only ends the
    object. *)
Lemma dtor_null this v w :
  w_objs w !! this = Some v → _data v = None →
  dtor this w = Ok tt (with_objs (delete this) w).
Proof.
  intros Hv Hd. unfold dtor. mrun. rewrite Hd. by mrun.
Qed.

(** ** [reserve] within the current capacity *)

(** X24. For every vector and every [new_capacity] not above its
    capacity, [reserve(new_capacity)] returns without any allocator or
    lifetime event: the heap, the data pointer, the size and every slot
    of the vector are unchanged.  The capacity member is unchanged when
    [_size <= new_capacity] (the call then changes nothing at all); when
    [new_capacity < _size] it is overwritten with the size, although the
    block keeps the slots it has. *)
Theorem reserve_within_capacity this v new_capacity w :
  w_objs w !! this = Some v →
  new_capacity ≤ _capacity v →
  ∃ w', reserve this new_capacity w = Ok tt w' ∧
        w_heap w' = w_heap w ∧ w_trace w' = w_trace w ∧
        (∃ v', w_objs w' !! this = Some v' ∧
               _data v' = _data v ∧ _size v' = _size v ∧
               _capacity v' = (if new_capacity <? _size v
                               then _size v else _capacity v) ∧
               ∀ i, slot_at (_data v') i w' = slot_at (_data v) i w) ∧
        (_size v ≤ new_capacity → w' = w).
Proof.
  intros Hv Hle. eexists. split; [by apply reserve_no_growth|].
  destruct (Nat.ltb_spec new_capacity (_size v)); simpl.
  - repeat split; [|intros; lia].
    eexists. rewrite lookup_insert_eq. repeat split; done.
  - repeat split; eauto 10.
Qed.

(** ** Loops over the slots of a block *)

Lemma store_slot_insert a i s b w :
  w_heap w !! a = Some b →
  store_slot a i s w = with_heap <[a := <[i := s]> b]> w.
Proof.
  intros Hb. unfold store_slot, with_heap. f_equal.
  apply map_eq. intros a'. destruct (decide (a = a')) as [<-|Hne].
  - by rewrite lookup_alter_eq, lookup_insert_eq, Hb.
  - by rewrite lookup_alter_ne, lookup_insert_ne.
Qed.

Lemma slot_at_run a b i s w :
  w_heap w !! a = Some b → b !! i = Some s → slot_at (Some a) i w = Some s.
Proof. intros Hb Hi. unfold slot_at. by rewrite Hb. Qed.

Lemma construct_at_run a b i s v w :
  w_heap w !! a = Some b → b !! i = Some s →
  construct_at (Some a) i v w =
  Ok tt (log (EvConstruct a i) (with_heap <[a := <[i := Some v]> b]> w)).
Proof.
  intros Hb Hi. unfold construct_at. rewrite (slot_at_run a b i s) by done.
  by rewrite (store_slot_insert a i _ b).
Qed.

Lemma destroy_at_run a b i v w :
  w_heap w !! a = Some b → b !! i = Some (Some v) →
  destroy_at (Some a) i w =
  Ok tt (log (EvDestroy a i) (with_heap <[a := <[i := None]> b]> w)).
Proof.
  intros Hb Hi. unfold destroy_at. rewrite (slot_at_run a b i (Some v)) by done.
  by rewrite (store_slot_insert a i _ b).
Qed.

Lemma move_slot_run a b i v w :
  w_heap w !! a = Some b → b !! i = Some (Some v) →
  move_slot (Some a) i w = Ok v (with_heap <[a := <[i := Some (T_moved v)]> b]> w).
Proof.
  intros Hb Hi. unfold move_slot. rewrite (slot_at_run a b i (Some v)) by done.
  by rewrite (store_slot_insert a i _ b).
Qed.

Lemma read_slot_run a b i v w :
  w_heap w !! a = Some b → b !! i = Some (Some v) →
  read_slot (Some a) i w = Ok v w.
Proof.
  intros Hb Hi. unfold read_slot. by rewrite (slot_at_run a b i (Some v)).
Qed.

Lemma world_eq w1 w2 :
  w_objs w1 = w_objs w2 → w_heap w1 = w_heap w2 → w_next w1 = w_next w2 →
  w_plan w1 = w_plan w2 → w_trace w1 = w_trace w2 → w1 = w2.
Proof. destruct w1, w2; simpl; congruence. Qed.

Lemma log_all_nil w : log_all [] w = w.
Proof. apply world_eq; simpl; try done. apply app_nil_r. Qed.

Lemma insert_middle {A} (pre post : list A) (x y : A) k :
  k = length pre → <[k := y]> (pre ++ x :: post) = pre ++ y :: post.
Proof.
  intros ->. replace (length pre) with (length pre + 0) by lia.
  by rewrite insert_app_r.
Qed.

(** [for (i = k; i < k + n; i++) construct_at(_data + i, x)] on raw
    slots. *)
Lemma construct_loop this t p x n : ∀ k pre post w,
  w_objs w !! this = Some t → _data t = Some p →
  w_heap w !! p = Some (pre ++ replicate n None ++ post) → length pre = k →
  for_range k n (fun i => do t <- get_obj this; construct_at (_data t) i x) w =
  Ok tt (log_all (EvConstruct p <$> seq k n)
           (with_heap <[p := pre ++ replicate n (Some x) ++ post]> w)).
Proof.
  induction n as [|n IH]; intros k pre post w Ht Hp Hb Hk; simpl.
  - rewrite log_all_nil. unfold ret. f_equal.
    apply world_eq; simpl; try done. by rewrite insert_id.
  - rewrite bind_assoc. mrun. rewrite Hp.
    erewrite bind_run; cycle 1.
    { eapply construct_at_run; [done|]. simpl. by apply list_lookup_middle. }
    erewrite (IH (S k) (pre ++ [Some x]) post); simpl; try done.
    + f_equal. apply world_eq; simpl; try done.
      * by rewrite insert_insert_eq, <- app_assoc.
      * by rewrite <- app_assoc.
    + rewrite lookup_insert_eq. f_equal.
      rewrite insert_middle by done. by rewrite <- app_assoc.
    + rewrite length_app. simpl. lia.
Qed.

(** [std::destroy_n(p + k, n)] on live slots. *)
Lemma destroy_loop p : ∀ (vs : list T) k pre post w,
  w_heap w !! p = Some (pre ++ (Some <$> vs) ++ post) → length pre = k →
  destroy_n (Some p) k (length vs) w =
  Ok tt (log_all (EvDestroy p <$> seq k (length vs))
           (with_heap <[p := pre ++ replicate (length vs) None ++ post]> w)).
Proof.
  unfold destroy_n.
  induction vs as [|v vs IH]; intros k pre post w Hb Hk; simpl.
  - rewrite log_all_nil. unfold ret. f_equal.
    apply world_eq; simpl; try done. by rewrite insert_id.
  - erewrite bind_run; cycle 1.
    { eapply destroy_at_run; [done|]. simpl. by apply list_lookup_middle. }
    erewrite (IH (S k) (pre ++ [None]) post); simpl; try done.
    + f_equal. apply world_eq; simpl; try done.
      * by rewrite insert_insert_eq, <- app_assoc.
      * by rewrite <- app_assoc.
    + rewrite lookup_insert_eq. f_equal.
      rewrite insert_middle by done. by rewrite <- app_assoc.
    + rewrite length_app. simpl. lia.
Qed.

(** The relocation loop of [reserve]:
    [construct_at(new_buffer + i, std::move(_data[i]))]. *)
Lemma move_loop this t p q : ∀ (vs : list T) k pre post pre' post' w,
  w_objs w !! this = Some t → _data t = Some p → p ≠ q →
  w_heap w !! p = Some (pre ++ (Some <$> vs) ++ post) → length pre = k →
  w_heap w !! q = Some (pre' ++ replicate (length vs) None ++ post') →
  length pre' = k →
  for_range k (length vs) (fun i =>
    do t <- get_obj this;
    do v <- move_slot (_data t) i;
    construct_at (Some q) i v) w =
  Ok tt (log_all (EvConstruct q <$> seq k (length vs))
           (with_heap (fun h =>
              <[q := pre' ++ (Some <$> vs) ++ post']>
                (<[p := pre ++ (Some ∘ T_moved <$> vs) ++ post]> h)) w)).
Proof.
  induction vs as [|v vs IH]; intros k pre post pre' post' w Ht Hp Hne Hb Hk Hb' Hk'; simpl.
  - rewrite log_all_nil. unfold ret. f_equal.
    apply world_eq; simpl; try done.
    rewrite (insert_id (w_heap w) p) by done. by rewrite insert_id.
  - rewrite !bind_assoc. mrun. rewrite Hp. rewrite bind_assoc.
    erewrite bind_run; cycle 1.
    { eapply move_slot_run; [done|]. simpl. by apply list_lookup_middle. }
    erewrite bind_run; cycle 1.
    { eapply construct_at_run; simpl.
      - rewrite lookup_insert_ne by done. done.
      - simpl. by apply list_lookup_middle. }
    erewrite (IH (S k) (pre ++ [Some (T_moved v)]) post (pre' ++ [Some v]) post');
      simpl; try done.
    + f_equal. apply world_eq; simpl; try done.
      * rewrite <- !app_assoc. simpl.
        apply map_eq. intros a. rewrite !lookup_insert.
        by repeat case_decide.
      * by rewrite <- app_assoc.
    + rewrite lookup_insert_ne by done. rewrite lookup_insert_eq. f_equal.
      rewrite insert_middle by done. by rewrite <- app_assoc.
    + rewrite length_app. simpl. lia.
    + rewrite lookup_insert_eq. f_equal.
      rewrite insert_middle by done. by rewrite <- app_assoc.
    + rewrite length_app. simpl. lia.
Qed.

(** ** Growth: [reserve] above the capacity *)

Lemma deallocate_run a b n w :
  w_heap w !! a = Some b → length b = n →
  deallocate (Some a) n w = Ok tt (log (EvDeallocate a n) (with_heap (delete a) w)).
Proof. intros Hb Hn. apply deallocate_Ok. eauto. Qed.

Lemma heap_fresh_next w : heap_fresh w → w_heap w !! w_next w = None.
Proof.
  intros Hf. destruct (w_heap w !! w_next w) eqn:E; [|done].
  specialize (Hf (w_next w) (mk_is_Some _ _ E)). lia.
Qed.

Lemma allocations_succeed_next w : allocations_succeed w → next_alloc_ok w.
Proof.
  unfold allocations_succeed, next_alloc_ok. intros Ha.
  destruct (w_plan w) as [|b l]; [done|]. simpl.
  rewrite (Ha b) by apply list_elem_of_here. done.
Qed.

Lemma reserve_grow this v vals n w :
  w_objs w !! this = Some v →
  _size v = length vals →
  match _data v with
  | Some p => w_heap w !! p = Some (block_of vals (_capacity v)) ∧
              length vals ≤ _capacity v
  | None => vals = []
  end →
  _capacity v < n →
  heap_fresh w → next_alloc_ok w →
  reserve this n w = Ok tt (relocated this v vals n w).
Proof.
  intros Hv Hsz Hd Hlt Hfresh Hok.
  assert (w_heap w !! w_next w = None) as Hq by by apply heap_fresh_next.
  unfold reserve. rewrite reserve_fuel_unfold. mrun.
  assert (_size v ≤ n) as Hle.
  { destruct (_data v); [destruct Hd as [_ ?]; lia|]. subst vals. simpl in *. lia. }
  rewrite (proj2 (Nat.ltb_ge _ _) Hle), (proj2 (Nat.ltb_lt _ _) Hlt).
  mrun. mrun. rewrite Hsz.
  destruct (_data v) as [p|] eqn:Hp.
  - destruct Hd as [Hb Hcap].
    assert (p ≠ w_next w) as Hne by congruence.
    erewrite bind_run; cycle 1.
    { eapply (move_loop this v p (w_next w) vals 0 [] _ [] (replicate (n - length vals) None));
        simpl; try done.
      - rewrite lookup_insert_ne by done. apply Hb.
      - rewrite lookup_insert_eq. f_equal.
        rewrite <- replicate_add. f_equal. lia. }
    mrun. rewrite Hp, Hsz.
    erewrite bind_run; cycle 1.
    { rewrite <- (length_fmap T_moved vals).
      eapply (destroy_loop p (T_moved <$> vals) 0 []); simpl; [|done].
      rewrite lookup_insert_ne by done. rewrite lookup_insert_eq.
      by rewrite list_fmap_compose. }
    mrun. rewrite Hp.
    erewrite bind_run; cycle 1.
    { eapply deallocate_run; simpl.
      - rewrite lookup_insert_eq. done.
      - rewrite length_app, !length_replicate, length_fmap. lia. }
    mrun. erewrite set_capacity_run by (simpl; apply lookup_insert_eq).
    f_equal. apply world_eq; simpl; try done.
    + by rewrite insert_insert_eq.
    + rewrite Hp. apply map_eq. intros a.
      repeat first [rewrite lookup_delete | rewrite lookup_insert].
      repeat case_decide; try congruence.
      unfold block_of. by rewrite length_fmap.
    + unfold relocate_events. rewrite Hp, Hsz, length_fmap. simpl.
      by rewrite <- !app_assoc.
  - subst vals. simpl in *.
    mrun. mrun. rewrite Hp, Hsz. unfold destroy_n. simpl.
    mrun. mrun. rewrite Hp.
    erewrite (bind_run (deallocate _ _)) by reflexivity.
    mrun. erewrite set_capacity_run by (simpl; apply lookup_insert_eq).
    f_equal. apply world_eq; simpl; try done.
    + by rewrite insert_insert_eq.
    + rewrite Hp. unfold block_of. simpl. by rewrite ?Nat.sub_0_r.
    + unfold relocate_events. by rewrite Hp, Hsz.
Qed.

Lemma relocated_holds this v vals n w :
  _size v = length vals → length vals ≤ n →
  holds (relocated this v vals n w) this vals n.
Proof.
  intros Hsz Hle. exists (mk_vector (Some (w_next w)) (_size v) n). simpl.
  rewrite !lookup_insert_eq. done.
Qed.

Lemma relocated_fresh this v vals n w :
  heap_fresh w → heap_fresh (relocated this v vals n w).
Proof.
  intros Hf p. simpl. rewrite lookup_insert. case_decide as Hp.
  - intros _. subst p. lia.
  - intros Hs. assert (p < w_next w)%positive; [|lia].
    apply Hf. destruct (_data v) as [a|]; [|done].
    rewrite lookup_delete in Hs. case_decide; [by destruct Hs|done].
Qed.

Lemma allocations_succeed_tail w w' :
  allocations_succeed w → w_plan w' = tail (w_plan w) → allocations_succeed w'.
Proof.
  unfold allocations_succeed. intros Ha -> b Hb. apply Ha.
  destruct (w_plan w); [done|]. by apply list_elem_of_further.
Qed.

Lemma allocations_succeed_same w w' :
  allocations_succeed w → w_plan w' = w_plan w → allocations_succeed w'.
Proof. unfold allocations_succeed. by intros Ha ->. Qed.

Lemma heap_fresh_slots w w' a b :
  heap_fresh w → w_next w' = w_next w → is_Some (w_heap w !! a) →
  w_heap w' = <[a := b]> (w_heap w) → heap_fresh w'.
Proof.
  intros Hf Hn Ha Hh p. rewrite Hn, Hh, lookup_insert.
  case_decide; [subst; intros _; by apply Hf | apply Hf].
Qed.

(** The last two statements of [emplace_back], on a vector with a free
    slot. *)
Lemma emplace_back_construct this vals cap a x w :
  holds w this vals cap → length vals < cap → read_arg a w = Ok x w →
  ∃ w', (do t <- get_obj this;
         do x <- read_arg a;
         construct_at (_data t) (_size t) x ;;
         do t <- get_obj this;
         set_size this (_size t + 1)) w = Ok tt w' ∧
        holds w' this (vals ++ [x]) cap ∧
        w_next w' = w_next w ∧ w_plan w' = w_plan w ∧
        (heap_fresh w → heap_fresh w').
Proof.
  intros (v & Hv & Hsz & Hcap & Hd) Hlt Hread.
  destruct (_data v) as [p|] eqn:Hp; [|lia].
  destruct Hd as [Hb _].
  assert (block_of vals cap =
          (Some <$> vals) ++ None :: replicate (cap - length vals - 1) None) as Hblock.
  { unfold block_of. f_equal. rewrite <- replicate_S. f_equal. lia. }
  rewrite Hblock in Hb.
  eexists. split; [|split; [|split; [|split]]].
  - mrun. rewrite Hp, Hsz.
    erewrite (bind_run (read_arg _)) by done.
    erewrite bind_run; cycle 1.
    { eapply construct_at_run; [done|]. apply list_lookup_middle. by rewrite length_fmap. }
    mrun. by erewrite set_size_run by done.
  - eexists. simpl. rewrite lookup_insert_eq. split; [done|]. simpl.
    rewrite Hp, Hsz, length_app. simpl.
    split; [done|]. split; [done|]. split; [|lia].
    rewrite lookup_insert_eq. f_equal.
    rewrite insert_middle by by rewrite length_fmap.
    unfold block_of. rewrite fmap_app, length_app, <- app_assoc. simpl.
    do 3 f_equal. lia.
  - done.
  - done.
  - intros Hf. eapply (heap_fresh_slots w _ p); eauto.
Qed.

Lemma holds_data_nonzero w this vals cap v :
  holds w this vals cap → w_objs w !! this = Some v → 0 < cap →
  ∃ p, _data v = Some p ∧ w_heap w !! p = Some (block_of vals cap).
Proof.
  intros (v' & Hv' & _ & _ & Hd) Hv Hpos. rewrite Hv in Hv'. injection Hv' as <-.
  destruct (_data v) as [p|]; [|lia]. exists p. by destruct Hd.
Qed.

(** [emplace_back] on a well-formed vector, with an allocator that does
    not fail: the value lands behind the old ones, in a buffer sized by
    the growth policy. *)
Lemma emplace_back_spec this vals cap x w :
  holds w this vals cap → heap_fresh w → allocations_succeed w →
  ∃ w', emplace_back this (ByValue x) w = Ok tt w' ∧
        holds w' this (vals ++ [x]) (grown_capacity (length vals) cap) ∧
        heap_fresh w' ∧ allocations_succeed w'.
Proof.
  intros Hh Hf Ha. pose proof Hh as (v & Hv & Hsz & Hcap & Hd).
  assert (next_alloc_ok w) as Hok by by apply allocations_succeed_next.
  assert (match _data v with
          | Some p => w_heap w !! p = Some (block_of vals (_capacity v)) ∧
                      length vals ≤ _capacity v
          | None => vals = []
          end) as Hd'.
  { rewrite Hcap. destruct (_data v); [done|by destruct Hd]. }
  unfold emplace_back, grown_capacity. mrun. rewrite Hsz, Hcap.
  destruct (Nat.eqb_spec (length vals) cap) as [Heq|Hne].
  - destruct (Nat.eqb_spec cap 0) as [Hz|Hnz].
    + (* no capacity: reserve(0) does nothing, reserve(16) allocates *)
      erewrite bind_run; cycle 1.
      { rewrite (reserve_no_growth this v) by (done || lia).
        replace (2 * cap <? _size v) with false; [done|].
        symmetry. apply Nat.ltb_ge. lia. }
      mrun. rewrite Hcap, Hz. simpl.
      erewrite bind_run; cycle 1.
      { apply (reserve_grow this v vals); try done. lia. }
      destruct (emplace_back_construct this vals 16 (ByValue x) x
                  (relocated this v vals 16 w))
        as (w' & Hrun & Hh' & Hn' & Hp' & Hf'); [..|].
      { apply relocated_holds; [done|lia]. }
      { lia. }
      { done. }
      exists w'. split; [done|]. split; [done|]. split.
      * by apply Hf', relocated_fresh.
      * eapply allocations_succeed_tail; [done|]. by rewrite Hp'.
    + (* full: reserve(2 * capacity) allocates, reserve(16) is skipped *)
      erewrite bind_run; cycle 1.
      { apply (reserve_grow this v vals); try done. lia. }
      erewrite (bind_run (get_obj _)) by (apply get_obj_run; simpl; apply lookup_insert_eq).
      simpl. replace (cap + (cap + 0) =? 0) with false
        by (symmetry; apply Nat.eqb_neq; lia).
      mrun.
      destruct (emplace_back_construct this vals (2 * cap) (ByValue x) x
                  (relocated this v vals (2 * cap) w))
        as (w' & Hrun & Hh' & Hn' & Hp' & Hf'); [..|].
      { apply relocated_holds; [done|lia]. }
      { lia. }
      { done. }
      exists w'. split; [done|]. split; [done|]. split.
      * by apply Hf', relocated_fresh.
      * eapply allocations_succeed_tail; [done|]. by rewrite Hp'.
  - (* a free slot is left *)
    assert (length vals < cap) as Hlt.
    { destruct (_data v); destruct Hd; [lia|]. subst. simpl in *. lia. }
    mrun. mrun. rewrite Hcap.
    replace (cap =? 0) with false by (symmetry; apply Nat.eqb_neq; lia).
    mrun.
    destruct (emplace_back_construct this vals cap (ByValue x) x w)
      as (w' & Hrun & Hh' & Hn' & Hp' & Hf'); [done..|].
    exists w'. split; [done|]. split; [done|]. split; [by apply Hf'|].
    by eapply allocations_succeed_same.
Qed.

(** ** Append and read back *)

Lemma emplace_back_all_app this (xs ys : list T) w :
  emplace_back_all this (xs ++ ys) w =
  bind (emplace_back_all this xs) (fun _ => emplace_back_all this ys) w.
Proof.
  revert w. induction xs as [|x xs IH]; intros w; simpl; [done|].
  rewrite bind_assoc. apply bind_ext_r. intros _ w'. apply IH.
Qed.

Lemma holds_size this vals cap w :
  holds w this vals cap → size this w = Ok (length vals) w.
Proof.
  intros (v & Hv & Hsz & _). unfold size. mrun. by rewrite Hsz.
Qed.

Lemma holds_index_read this vals cap w i x :
  holds w this vals cap → vals !! i = Some x → index_read this i w = Ok x w.
Proof.
  intros (v & Hv & Hsz & Hcap & Hd) Hi. unfold index_read. mrun.
  destruct (_data v) as [p|]; [|destruct Hd; by subst].
  destruct Hd as [Hb _]. eapply read_slot_run; [done|].
  unfold block_of. rewrite lookup_app_l.
  - by rewrite list_lookup_fmap, Hi.
  - rewrite length_fmap. by eapply lookup_lt_Some.
Qed.

Lemma emplace_back_all_spec this (xs : list T) w :
  holds w this [] 0 → heap_fresh w → allocations_succeed w →
  ∃ w', emplace_back_all this xs w = Ok tt w' ∧
        holds w' this xs (growth_schedule (length xs)) ∧
        heap_fresh w' ∧ allocations_succeed w'.
Proof.
  intros Hh Hf Ha. induction xs as [|x xs IH] using rev_ind.
  - exists w. by repeat split.
  - destruct IH as (w1 & Hrun & Hh1 & Hf1 & Ha1).
    destruct (emplace_back_spec this xs _ x w1 Hh1 Hf1 Ha1) as (w2 & Hrun2 & Hh2 & Hf2 & Ha2).
    exists w2. split.
    + rewrite emplace_back_all_app. erewrite bind_run by done.
      simpl. by erewrite bind_run by done.
    + rewrite length_app. simpl. rewrite Nat.add_1_r. simpl. done.
Qed.

(** X25. From an empty vector (size 0, capacity 0) and with an allocator
    that does not fail, [emplace_back] called for each value of [xs],
    passed as a value that lives in no block, returns; afterwards [size()] is the number of values, reading index [i]
    yields the [i]-th value inserted, and the capacity is the one given by
    the growth schedule: 16 after the first insertion, doubled by each
    insertion that finds the vector full, hence 16 after 16 insertions and
    32 after 17. *)
Theorem emplace_back_round_trip this (xs : list T) w :
  holds w this [] 0 → heap_fresh w → allocations_succeed w →
  ∃ w', emplace_back_all this xs w = Ok tt w' ∧
        size this w' = Ok (length xs) w' ∧
        (∀ i x, xs !! i = Some x → index_read this i w' = Ok x w') ∧
        (∃ v, w_objs w' !! this = Some v ∧
              _size v = length xs ∧
              _capacity v = growth_schedule (length xs)) ∧
        growth_schedule 1 = 16 ∧ growth_schedule 16 = 16 ∧ growth_schedule 17 = 32.
Proof.
  intros Hh Hf Ha.
  destruct (emplace_back_all_spec this xs w Hh Hf Ha) as (w' & Hrun & Hh' & _).
  exists w'. split; [done|]. split; [by eapply holds_size|].
  split; [intros i x Hi; by eapply holds_index_read|].
  split; [|by vm_compute].
  destruct Hh' as (v & Hv & Hsz & Hcap & _). eauto.
Qed.

(** ** [resize] *)

Lemma construct_events_none d lo : construct_events d lo 0 = [].
Proof. by destruct d. Qed.

Lemma destroy_events_none d lo : destroy_events d lo 0 = [].
Proof. by destruct d. Qed.

Lemma resize_holds this vals cap n w :
  holds w this vals cap → heap_fresh w → allocations_succeed w →
  ∃ w' v v',
    w_objs w !! this = Some v ∧
    resize this n w = Ok tt w' ∧
    w_objs w' !! this = Some v' ∧
    holds w' this (take n vals ++ replicate (n - length vals) T_default) (cap `max` n) ∧
    w_trace w' = w_trace w ++ resize_events v n (w_next w) (_data v') ∧
    heap_fresh w' ∧ allocations_succeed w'.
Proof.
  intros Hh Hf Ha. pose proof Hh as (v & Hv & Hsz & Hcap & Hd).
  assert (next_alloc_ok w) as Hok by by apply allocations_succeed_next.
  enough (∃ w' v',
    resize this n w = Ok tt w' ∧
    w_objs w' !! this = Some v' ∧
    holds w' this (take n vals ++ replicate (n - length vals) T_default) (cap `max` n) ∧
    w_trace w' = w_trace w ++ resize_events v n (w_next w) (_data v') ∧
    heap_fresh w' ∧ allocations_succeed w') as (w' & v' & ?).
  { exists w', v, v'. tauto. }
  unfold resize, resize_events. rewrite resize_fuel_unfold.
  destruct (Nat.lt_total (length vals) n) as [Hgrow|[Hsame|Hshrink]].
  - (* new_size > _size *)
    rewrite take_ge by lia.
    rewrite (proj2 (Nat.sub_0_le (_size v) n)) by lia.
    rewrite destroy_events_none.
    destruct (Nat.ltb_spec (_capacity v) n) as [Hcapn|Hcapn].
    + (* reserve first *)
      set (w1 := relocated this v vals n w).
      assert (reserve_fuel 1 this n w = Ok tt w1) as Hres.
      { rewrite <- (reserve_fuel_above_size 1 this v) by (done || lia).
        apply (reserve_grow this v vals); try done.
        rewrite <- Hcap in Hd. destruct (_data v); [done|by destruct Hd]. }
      exists (log_all (EvConstruct (w_next w) <$> seq (length vals) (n - length vals))
                (with_objs <[this := mk_vector (Some (w_next w)) n n]>
                   (with_heap <[w_next w :=
                      (Some <$> vals) ++ replicate (n - length vals) (Some T_default) ++ []]> w1))),
        (mk_vector (Some (w_next w)) n n).
      split; [|split; [|split; [|split; [|split]]]].
      * mrun. rewrite (proj2 (Nat.ltb_lt _ _)) by lia.
        rewrite (proj2 (Nat.ltb_lt _ _) Hcapn).
        rewrite bind_assoc. erewrite bind_run by apply Hres.
        rewrite bind_assoc.
        erewrite (bind_run (get_obj _)) by (apply get_obj_run; simpl; apply lookup_insert_eq).
        simpl. rewrite Hsz.
        erewrite bind_run; cycle 1.
        { eapply (construct_loop this _ (w_next w) T_default (n - length vals)
                    (length vals) (Some <$> vals) []); simpl.
          - apply lookup_insert_eq.
          - done.
          - rewrite lookup_insert_eq. by rewrite app_nil_r.
          - by rewrite length_fmap. }
        erewrite (bind_run (get_obj _)) by (apply get_obj_run; simpl; apply lookup_insert_eq).
        simpl. rewrite Hsz, (proj2 (Nat.ltb_ge _ _)) by lia.
        mrun. erewrite set_size_run by (simpl; apply lookup_insert_eq).
        done.
      * simpl. apply lookup_insert_eq.
      * eexists. simpl. rewrite lookup_insert_eq. split; [done|]. simpl.
        rewrite length_app, length_replicate.
        split; [lia|]. split; [lia|]. split; [|lia].
        rewrite lookup_insert_eq. f_equal.
        unfold block_of. rewrite fmap_app, fmap_replicate, <- app_assoc.
        rewrite length_app, length_replicate.
        replace (cap `max` n - (length vals + (n - length vals))) with 0 by lia.
        done.
      * simpl. rewrite Hsz, app_nil_r. unfold relocate_events. simpl.
        rewrite <- !app_assoc. simpl. rewrite Hsz. do 2 f_equal.
        by rewrite <- !app_assoc.
      * eapply (heap_fresh_slots w1 _ (w_next w)); simpl.
        -- by apply relocated_fresh.
        -- done.
        -- by rewrite lookup_insert_eq.
        -- done.
      * by eapply allocations_succeed_tail.
    + (* enough capacity *)
      destruct (holds_data_nonzero w this vals cap v) as (p & Hp & Hb); [done|done|lia|].
      exists (log_all (EvConstruct p <$> seq (length vals) (n - length vals))
                (with_objs <[this := mk_vector (Some p) n (_capacity v)]>
                   (with_heap <[p :=
                      (Some <$> vals) ++ replicate (n - length vals) (Some T_default) ++
                      replicate (cap - n) None]> w))),
        (mk_vector (Some p) n (_capacity v)).
      split; [|split; [|split; [|split; [|split]]]].
      * mrun. rewrite (proj2 (Nat.ltb_lt _ _)) by lia.
        rewrite (proj2 (Nat.ltb_ge _ _) Hcapn).
        rewrite bind_assoc. mrun. rewrite bind_assoc. mrun. rewrite Hsz.
        erewrite bind_run; cycle 1.
        { eapply (construct_loop this v p T_default (n - length vals)
                    (length vals) (Some <$> vals) (replicate (cap - n) None)); try done.
          - rewrite Hb. unfold block_of. do 2 f_equal.
            rewrite <- replicate_add. f_equal. lia.
          - by rewrite length_fmap. }
        mrun. rewrite Hsz, (proj2 (Nat.ltb_ge _ _)) by lia.
        mrun. erewrite set_size_run by (simpl; apply Hv).
        rewrite Hp. done.
      * simpl. apply lookup_insert_eq.
      * eexists. simpl. rewrite lookup_insert_eq. split; [done|]. simpl.
        rewrite length_app, length_replicate.
        split; [lia|]. split; [lia|]. split; [|lia].
        rewrite lookup_insert_eq. f_equal.
        unfold block_of. rewrite fmap_app, fmap_replicate, <- app_assoc.
        rewrite length_app, length_replicate.
        do 3 f_equal. lia.
      * simpl. by rewrite Hsz, app_nil_r.
      * eapply (heap_fresh_slots w _ p); simpl; eauto.
      * by eapply allocations_succeed_same.
  - (* new_size = _size *)
    subst n. exists w, v.
    rewrite <- Hsz, Nat.sub_diag, construct_events_none, destroy_events_none.
    split; [|split; [done|split; [|split; [|done]]]].
    + rewrite <- resize_fuel_unfold. by apply resize_to_same_size.
    + rewrite Hsz, firstn_all. simpl. rewrite app_nil_r.
      replace (cap `max` length vals) with cap; [done|].
      destruct (_data v); destruct Hd; subst; simpl; lia.
    + replace (_capacity v <? _size v) with false; [by rewrite !app_nil_r|].
      symmetry. apply Nat.ltb_ge. destruct (_data v); destruct Hd; subst; simpl in *; lia.
  - (* new_size < _size *)
    destruct (holds_data_nonzero w this vals cap v) as (p & Hp & Hb); [done|done|..].
    { destruct (_data v); destruct Hd; subst; simpl in *; lia. }
    assert (length vals ≤ cap) as Hle.
    { rewrite Hp in Hd. by destruct Hd. }
    exists (with_objs <[this := mk_vector (Some p) n (_capacity v)]>
              (log_all (EvDestroy p <$> seq n (length vals - n))
                 (with_heap <[p :=
                    (Some <$> take n vals) ++ replicate (length vals - n) None ++
                    replicate (cap - length vals) None]> w))),
      (mk_vector (Some p) n (_capacity v)).
    split; [|split; [|split; [|split; [|split]]]].
    + mrun. rewrite (proj2 (Nat.ltb_ge _ _)) by lia.
      mrun. mrun. rewrite Hsz, (proj2 (Nat.ltb_lt _ _) Hshrink), Hp.
      erewrite bind_run; cycle 1.
      { replace (length vals - n) with (length (drop n vals)) by (rewrite length_drop; lia).
        eapply (destroy_loop p (drop n vals) n (Some <$> take n vals)).
        - rewrite Hb. unfold block_of. rewrite app_assoc, <- fmap_app.
          by rewrite take_drop.
        - rewrite length_fmap, length_take. lia. }
      erewrite set_size_run by (simpl; apply Hv).
      rewrite Hp, length_drop. done.
    + simpl. apply lookup_insert_eq.
    + eexists. simpl. rewrite lookup_insert_eq. split; [done|]. simpl.
      replace (n - length vals) with 0 by lia. simpl. rewrite app_nil_r.
      rewrite length_take.
      split; [lia|]. split; [lia|]. split; [|lia].
      rewrite lookup_insert_eq. f_equal. unfold block_of.
      rewrite length_take, <- replicate_add. do 2 f_equal. lia.
    + simpl. rewrite (proj2 (Nat.ltb_ge _ _)) by lia.
      rewrite (proj2 (Nat.sub_0_le n (_size v))) by lia.
      by rewrite Hp, Hsz.
    + eapply (heap_fresh_slots w _ p); simpl; eauto.
    + by eapply allocations_succeed_same.
Qed.

(** X26. On a well-formed vector holding [vals], with an allocator that
    does not fail, [resize(n)] returns and sets the size to [n].  The
    vector then holds the first [n] old values followed, when it grew, by
    default-constructed ones.  The events logged are exactly: the
    relocation done by [reserve(n)] when [n] exceeds the capacity, then a
    construction for each slot of [_size, n), then a destruction for each
    slot of [n, _size).  Consequently a later [resize(m)] with [m < n]
    leaves exactly [m] live elements, equal to the first [m] elements the
    vector held before that shrink. *)
Theorem resize_sets_size this vals cap n w :
  holds w this vals cap → heap_fresh w → allocations_succeed w →
  ∃ w' v v',
    w_objs w !! this = Some v ∧
    resize this n w = Ok tt w' ∧
    w_objs w' !! this = Some v' ∧ _size v' = n ∧
    holds w' this (take n vals ++ replicate (n - length vals) T_default) (cap `max` n) ∧
    w_trace w' = w_trace w ++ resize_events v n (w_next w) (_data v') ∧
    (cap < n →
       ∃ w1, reserve this n w = Ok tt w1 ∧
             w_trace w1 = w_trace w ++ relocate_events v n (w_next w)) ∧
    ∀ m, m < n →
      ∃ w'', resize this m w' = Ok tt w'' ∧
             size this w'' = Ok m w'' ∧
             holds w'' this
               (take m (take n vals ++ replicate (n - length vals) T_default))
               (cap `max` n).
Proof.
  intros Hh Hf Ha.
  destruct (resize_holds this vals cap n w Hh Hf Ha)
    as (w' & v & v' & Hv & Hrun & Hv' & Hh' & Htr & Hf' & Ha').
  assert (length (take n vals ++ replicate (n - length vals) T_default) = n) as Hlen.
  { rewrite length_app, length_take, length_replicate. lia. }
  exists w', v, v'. repeat split; try done.
  - destruct Hh' as (v'' & Hv'' & Hsz & _). rewrite Hv' in Hv''.
    injection Hv'' as <-. by rewrite Hsz.
  - intros Hlt. exists (relocated this v vals n w). split; [|done].
    destruct Hh as (v0 & Hv0 & Hsz & Hcap & Hd). rewrite Hv in Hv0. injection Hv0 as <-.
    apply (reserve_grow this v vals); try done.
    + rewrite <- Hcap in Hd. destruct (_data v); [done|by destruct Hd].
    + lia.
    + by apply allocations_succeed_next.
  - intros m Hm.
    destruct (resize_holds this _ _ m w' Hh' Hf' Ha')
      as (w'' & _ & _ & _ & Hrun' & _ & Hh'' & _).
    rewrite Hlen in Hh''. replace (m - n) with 0 in Hh'' by lia.
    simpl in Hh''. rewrite app_nil_r in Hh''.
    replace ((cap `max` n) `max` m) with (cap `max` n) in Hh'' by lia.
    exists w''. split; [done|]. split; [|done].
    erewrite holds_size by done. f_equal.
    rewrite length_take. lia.
Qed.

(** ** Computations that only touch slots *)

Lemma slots_only_refl w : slots_only w w.
Proof. repeat split. exists []. by rewrite app_nil_r. Qed.

Lemma slots_only_trans w1 w2 w3 :
  slots_only w1 w2 → slots_only w2 w3 → slots_only w1 w3.
Proof.
  intros (Ho & Hn & Hp & Hd & evs & Ht & Hl) (Ho' & Hn' & Hp' & Hd' & evs' & Ht' & Hl').
  repeat split; try congruence.
  exists (evs ++ evs'). rewrite Ht', Ht, app_assoc. split; [done|].
  by apply Forall_app_2.
Qed.

Lemma quiet_Ok {A} (m : M T A) w a w' :
  quiet m → m w = Ok a w' → slots_only w w'.
Proof. intros Hq Hm. specialize (Hq w). by rewrite Hm in Hq. Qed.

Lemma quiet_Throw {A} (m : M T A) w w' : quiet m → m w ≠ Throw w'.
Proof. intros Hq Hm. specialize (Hq w). by rewrite Hm in Hq. Qed.

Lemma quiet_ret {A} (a : A) : quiet (ret a : M T A).
Proof. intros w. apply slots_only_refl. Qed.

Lemma quiet_bind {A B} (m : M T A) (k : A → M T B) :
  quiet m → (∀ a, quiet (k a)) → quiet (bind m k).
Proof.
  intros Hm Hk w. unfold bind. specialize (Hm w).
  destruct (m w) as [a w1| | | |]; try done.
  specialize (Hk a w1). destruct (k a w1); try done.
  by eapply slots_only_trans.
Qed.

Lemma quiet_for_range lo count (body : nat → M T unit) :
  (∀ i, quiet (body i)) → quiet (for_range lo count body).
Proof.
  intros Hb. revert lo. induction count as [|c IH]; intros lo; simpl.
  - apply quiet_ret.
  - apply quiet_bind; auto.
Qed.

Lemma quiet_get_obj this : quiet (T:=T) (get_obj this).
Proof.
  intros w. unfold get_obj. destruct (_ !! _); [|done]. apply slots_only_refl.
Qed.

Lemma slots_only_store a i s w : slots_only w (store_slot a i s w).
Proof.
  repeat split; simpl; [apply dom_alter_L|].
  exists []. by rewrite app_nil_r.
Qed.

Lemma slots_only_log e w w' :
  lifetime_event e = true → slots_only w w' → slots_only w (log e w').
Proof.
  intros He (Ho & Hn & Hp & Hd & evs & Ht & Hl). repeat split; try done.
  exists (evs ++ [e]). simpl. rewrite Ht, app_assoc. split; [done|].
  apply Forall_app_2; [done|]. by apply Forall_singleton.
Qed.

Lemma quiet_construct_at p i v : quiet (T:=T) (construct_at p i v).
Proof.
  intros w. unfold construct_at. destruct p; [|done].
  destruct (slot_at _ _ _); [|done].
  apply slots_only_log; [done|]. apply slots_only_store.
Qed.

Lemma quiet_destroy_at p i : quiet (T:=T) (destroy_at p i).
Proof.
  intros w. unfold destroy_at. destruct p; [|done].
  destruct (slot_at _ _ _) as [[?|]|]; try done.
  apply slots_only_log; [done|]. apply slots_only_store.
Qed.

Lemma quiet_read_slot p i : quiet (T:=T) (read_slot p i).
Proof.
  intros w. unfold read_slot. destruct (slot_at _ _ _) as [[?|]|]; try done.
  apply slots_only_refl.
Qed.

Lemma quiet_move_slot p i : quiet (T:=T) (move_slot p i).
Proof.
  intros w. unfold move_slot. destruct p; [|done].
  destruct (slot_at _ _ _) as [[?|]|]; try done. apply slots_only_store.
Qed.

Lemma quiet_assign_slot p i x : quiet (T:=T) (assign_slot p i x).
Proof.
  intros w. unfold assign_slot. destruct p; [|done].
  destruct (slot_at _ _ _) as [[?|]|]; try done. apply slots_only_store.
Qed.

Lemma quiet_read_arg (a : arg T) : quiet (read_arg a).
Proof.
  destruct a; simpl;
    [apply quiet_ret|apply quiet_read_slot|apply quiet_move_slot].
Qed.

Ltac solve_quiet :=
  repeat first
    [ progress intros
    | apply quiet_ret | apply quiet_get_obj
    | apply quiet_construct_at | apply quiet_destroy_at
    | apply quiet_move_slot | apply quiet_read_slot | apply quiet_assign_slot
    | apply quiet_for_range
    | apply quiet_bind
    | progress unfold destroy_n ].

(** The loops of the header. *)
Lemma quiet_destroy_n p lo n : quiet (T:=T) (destroy_n p lo n).
Proof. solve_quiet. Qed.

Lemma quiet_construct_default_loop this lo n :
  quiet (for_range lo n (fun i =>
    do t <- get_obj this; construct_at (_data t) i T_default)).
Proof. solve_quiet. Qed.

Lemma quiet_copy_loop this other lo n :
  quiet (T:=T) (for_range lo n (fun i =>
    do o <- get_obj other;
    do v <- read_slot (_data o) i;
    do t <- get_obj this;
    construct_at (_data t) i v)).
Proof. solve_quiet. Qed.

Lemma quiet_move_loop this q lo n :
  quiet (for_range lo n (fun i =>
    do t <- get_obj this;
    do v <- move_slot (_data t) i;
    construct_at (Some q) i v)).
Proof. solve_quiet. Qed.

(** ** Footprint of the growing operations *)

(** Two hypotheses that look up the same object speak of the same
    value. *)
Ltac same_obj :=
  repeat match goal with
  | H1 : ?m !! ?k = Some ?a, H2 : ?m !! ?k = Some ?b |- _ =>
      assert (b = a) as -> by congruence; clear H2
  end.

Lemma in_place_refl this v w : w_objs w !! this = Some v → in_place this w w.
Proof.
  intros Hv. exists v, v. rewrite insert_id by done.
  repeat split; try done. exists []. by rewrite app_nil_r.
Qed.

Lemma lifetime_not_zero_allocation (evs : list event) :
  Forall (λ e, lifetime_event e = true) evs →
  Forall (λ e, zero_allocation e = false) evs.
Proof. intros Hl. eapply Forall_impl; [apply Hl|]. by intros [[|?] ?| | |]. Qed.

(** The three branches of [reserve]. *)
Lemma reserve_Ok_cases this n w w' :
  reserve this n w = Ok tt w' →
  ∃ v, w_objs w !! this = Some v ∧
       ((n < _size v ∧
         w' = with_objs <[this := mk_vector (_data v) (_size v) (_size v)]> w) ∨
        (_size v ≤ n ≤ _capacity v ∧ w' = w) ∨
        (_size v ≤ n ∧ _capacity v < n ∧ relocation this w w')).
Proof.
  unfold reserve. rewrite reserve_fuel_unfold. intros H. minv H.
  exists a. split; [done|].
  destruct (Nat.ltb_spec n (_size a)) as [Hlt|Hge].
  - erewrite bind_run in H by (by apply resize_to_same_size). minv H. same_obj.
    left. done.
  - destruct (Nat.ltb_spec (_capacity a) n) as [Hcap|Hcap]; cycle 1.
    { minv H. right. left. done. }
    right. right. split; [done|]. split; [done|].
    minv H. simpl in *. same_obj.
    apply (quiet_Ok _ _ _ _ (quiet_move_loop _ _ _ _)) in H3
      as (Ho0 & Hn0 & Hp0 & Hd0 & evs0 & Ht0 & Hl0).
    apply (quiet_Ok _ _ _ _ (quiet_destroy_n _ _ _)) in H5
      as (Ho1 & Hn1 & Hp1 & Hd1 & evs1 & Ht1 & Hl1).
    simpl in *. rewrite Ho0 in H4. rewrite Ho1, Ho0 in H6. same_obj.
    assert (w_objs w2 = w_objs w ∧ w_next w2 = Pos.succ (w_next w) ∧
            w_plan w2 = tail (w_plan w) ∧
            dom (w_heap w2) = ({[w_next w]} ∪ dom (w_heap w)) ∖ block_set (_data a) ∧
            ∃ evs, w_trace w2 = w_trace w ++ evs ∧
                   Forall (λ e, zero_allocation e = false) evs)
      as (Ho2 & Hn2 & Hp2 & Hd2 & evs2 & Ht2 & Hl2).
    { apply deallocate_Ok in H7. destruct (_data a) as [p|]; simpl.
      - destruct H7 as (b & Hb & Hlen & ->). simpl.
        rewrite dom_delete_L, Hd1, Hd0, dom_insert_L.
        repeat split; try congruence.
        exists ([EvAllocate n (w_next w)] ++ evs0 ++ evs1 ++ [EvDeallocate p (_capacity a)]).
        rewrite Ht1, Ht0. rewrite <- !app_assoc. split; [done|].
        repeat apply Forall_app_2; try by apply lifetime_not_zero_allocation.
        + apply Forall_singleton. simpl. destruct n; [lia|done].
        + by apply Forall_singleton.
      - subst w2. rewrite Hd1, Hd0, dom_insert_L.
        repeat split; try congruence; [set_solver|].
        exists ([EvAllocate n (w_next w)] ++ evs0 ++ evs1).
        rewrite Ht1, Ht0. rewrite <- !app_assoc. split; [done|].
        repeat apply Forall_app_2; try by apply lifetime_not_zero_allocation.
        apply Forall_singleton. simpl. destruct n; [lia|done]. }
    rewrite Ho2 in *. same_obj. rewrite lookup_insert_eq in H. injection H as <-.
    exists a, (mk_vector (Some (w_next w)) (_size a) n). simpl.
    rewrite insert_insert_eq, Ho2.
    repeat split; try done; try lia. eauto.
Qed.

Lemma reserve_Ok_footprint this n w w' :
  reserve this n w = Ok tt w' → footprint this w w'.
Proof.
  intros (v & Hv & [[Hlt ->]|[[Hle ->]|(_ & _ & Hr)]])%reserve_Ok_cases.
  - left. exists v, (mk_vector (_data v) (_size v) (_size v)).
    repeat split; simpl; try done; try lia. exists []. by rewrite app_nil_r.
  - left. by eapply in_place_refl.
  - by right.
Qed.

Lemma ret_Throw {A} (a : A) w w' : ret a w ≠ Throw w'.
Proof. done. Qed.

Ltac tinv_prim H :=
  lazymatch type of H with
  | ret _ _ = Throw _ => by apply ret_Throw in H
  | get_obj _ _ = Throw _ => by apply get_obj_Throw in H
  | set_data _ _ _ = Throw _ => by apply set_data_Throw in H
  | set_size _ _ _ = Throw _ => by apply set_size_Throw in H
  | set_capacity _ _ _ = Throw _ => by apply set_capacity_Throw in H
  | deallocate _ _ _ = Throw _ => by apply deallocate_Throw in H
  | construct_at _ _ _ _ = Throw _ => by apply construct_at_Throw in H
  | read_arg _ _ = Throw _ => by apply (quiet_Throw _ _ _ (quiet_read_arg _)) in H
  | destroy_n _ _ _ _ = Throw _ => by apply (quiet_Throw _ _ _ (quiet_destroy_n _ _ _)) in H
  | for_range _ _ _ _ = Throw _ =>
      first [ by apply (quiet_Throw _ _ _ (quiet_move_loop _ _ _ _)) in H
            | by apply (quiet_Throw _ _ _ (quiet_copy_loop _ _ _ _)) in H
            | by apply (quiet_Throw _ _ _ (quiet_construct_default_loop _ _ _)) in H
            | idtac ]
  | allocate _ _ = Throw _ => apply (proj1 (allocate_Throw _ _ _)) in H as [H ->]
  | _ => idtac
  end.

(** Decompose an hypothesis [m w = Throw w'] along the binds of [m]: one
    goal is left for each computation of [m] that may throw. *)
Ltac tinv H :=
  cbv beta in H;
  lazymatch type of H with
  | bind _ _ _ = Throw _ =>
      let a := fresh "a" in
      let w := fresh "w" in
      let H1 := fresh "H" in
      apply (proj1 (bind_Throw _ _ _ _)) in H as [H | (a & w & H1 & H)];
      [ tinv H
      | lazymatch type of a with unit => destruct a | _ => idtac end;
        minv H1; tinv H ]
  | _ => tinv_prim H
  end.

(** [reserve] throws only from its call to [allocate], which comes before
    any other effect. *)
Lemma reserve_Throw this n w w' :
  reserve this n w = Throw w' →
  w' = alloc_failed w ∧ ∃ v, w_objs w !! this = Some v ∧ _capacity v < n.
Proof.
  unfold reserve. rewrite reserve_fuel_unfold. intros H. tinv H.
  destruct (Nat.ltb_spec n (_size a)) as [Hlt|Hge].
  - erewrite bind_run in H by (by apply resize_to_same_size). tinv H.
  - destruct (Nat.ltb_spec (_capacity a) n) as [Hcap|Hcap]; [|tinv H].
    tinv H. eauto.
Qed.

Lemma slots_only_in_place this v w w' :
  w_objs w !! this = Some v → slots_only w w' → in_place this w w'.
Proof.
  intros Hv (Ho & Hn & Hp & Hd & Hev). exists v, v.
  rewrite insert_id by done. by repeat split.
Qed.

Lemma in_place_trans this w1 w2 w3 :
  in_place this w1 w2 → in_place this w2 w3 → in_place this w1 w3.
Proof.
  intros (v1 & v2 & Hv1 & Ho2 & Hd2 & Hc2 & Hn2 & Hp2 & Hh2 & evs2 & Ht2 & Hl2)
         (v2' & v3 & Hv2 & Ho3 & Hd3 & Hc3 & Hn3 & Hp3 & Hh3 & evs3 & Ht3 & Hl3).
  rewrite Ho2, lookup_insert_eq in Hv2. injection Hv2 as <-.
  exists v1, v3. rewrite Ho3, Ho2, insert_insert_eq.
  repeat split; try congruence; [auto|].
  exists (evs2 ++ evs3). rewrite Ht3, Ht2, app_assoc. split; [done|].
  by apply Forall_app_2.
Qed.

Lemma in_place_relocation this w1 w2 w3 :
  in_place this w1 w2 → relocation this w2 w3 → relocation this w1 w3.
Proof.
  intros (v1 & v2 & Hv1 & Ho2 & Hd2 & Hc2 & Hn2 & Hp2 & Hh2 & evs2 & Ht2 & Hl2)
         (v2' & v3 & Hv2 & Ho3 & Hd3 & Hc3 & Hn3 & Hp3 & Hh3 & evs3 & Ht3 & Hl3).
  rewrite Ho2, lookup_insert_eq in Hv2. injection Hv2 as <-.
  exists v1, v3. rewrite Ho3, Ho2, insert_insert_eq.
  repeat split; try congruence.
  exists (evs2 ++ evs3). rewrite Ht3, Ht2, app_assoc. split; [done|].
  apply Forall_app_2; [by apply lifetime_not_zero_allocation|done].
Qed.

Lemma relocation_in_place this w1 w2 w3 :
  relocation this w1 w2 → in_place this w2 w3 → relocation this w1 w3.
Proof.
  intros (v1 & v2 & Hv1 & Ho2 & Hd2 & Hc2 & Hn2 & Hp2 & Hh2 & evs2 & Ht2 & Hl2)
         (v2' & v3 & Hv2 & Ho3 & Hd3 & Hc3 & Hn3 & Hp3 & Hh3 & evs3 & Ht3 & Hl3).
  rewrite Ho2, lookup_insert_eq in Hv2. injection Hv2 as <-.
  exists v1, v3. rewrite Ho3, Ho2, insert_insert_eq.
  repeat split; try congruence; [lia|].
  exists (evs2 ++ evs3). rewrite Ht3, Ht2, app_assoc. split; [done|].
  apply Forall_app_2; [done|by apply lifetime_not_zero_allocation].
Qed.

Lemma footprint_in_place this w1 w2 w3 :
  footprint this w1 w2 → in_place this w2 w3 → footprint this w1 w3.
Proof.
  intros [H12|H12] H23; [left|right];
    eauto using in_place_trans, relocation_in_place.
Qed.

(** Writing [_size] of [this] is an in-place step. *)
Lemma set_size_in_place this v n w :
  w_objs w !! this = Some v →
  in_place this w (with_objs <[this := mk_vector (_data v) n (_capacity v)]> w).
Proof.
  intros Hv. exists v, (mk_vector (_data v) n (_capacity v)).
  repeat split; try done. exists []. simpl. by rewrite app_nil_r.
Qed.

Lemma resize_Ok_footprint this n w w' :
  resize this n w = Ok tt w' → footprint this w w'.
Proof.
  unfold resize. rewrite resize_fuel_unfold. intros H. minv H.
  assert (footprint this w w0) as F1.
  { destruct (Nat.ltb_spec (_size a) n) as [Hlt|Hge]; cycle 1.
    { minv H1. left. by eapply in_place_refl. }
    minv H1.
    assert (footprint this w w2) as F.
    { destruct (_capacity a <? n).
      - rewrite <- (reserve_fuel_above_size 1 this a) in H4 by (done || lia).
        by eapply reserve_Ok_footprint.
      - minv H4. left. by eapply in_place_refl. }
    eapply footprint_in_place; [done|].
    eapply slots_only_in_place; [done|].
    by eapply quiet_Ok; [apply quiet_construct_default_loop|]. }
  eapply footprint_in_place; [done|].
  eapply in_place_trans; [|by apply set_size_in_place].
  eapply slots_only_in_place; [done|].
  destruct (n <? _size a0).
  - by eapply quiet_Ok; [apply quiet_destroy_n|].
  - minv H3. apply slots_only_refl.
Qed.

Lemma resize_Throw this n w w' :
  resize this n w = Throw w' → w' = alloc_failed w.
Proof.
  unfold resize. rewrite resize_fuel_unfold. intros H. tinv H.
  - destruct (Nat.ltb_spec (_size a) n) as [Hlt|Hge]; [|tinv H].
    tinv H. destruct (_capacity a <? n); [|tinv H].
    rewrite <- (reserve_fuel_above_size 1 this a) in H by (done || lia).
    by apply reserve_Throw in H as [-> _].
  - destruct (n <? _size a0); tinv H.
Qed.

(** The first statement of [emplace_back] either does nothing or
    relocates. *)
Lemma emplace_back_first_reserve this v w w' :
  w_objs w !! this = Some v →
  (if _size v =? _capacity v then reserve this (2 * _capacity v) else ret tt) w = Ok tt w' →
  w' = w ∨ relocation this w w'.
Proof.
  intros Hv H. destruct (Nat.eqb_spec (_size v) (_capacity v)) as [Heq|Hne].
  - apply reserve_Ok_cases in H as (v' & Hv' & [[Hlt _]|[[Hle ->]|(_ & _ & Hr)]]).
    + same_obj. lia.
    + by left.
    + by right.
  - minv H. by left.
Qed.

Lemma emplace_back_Ok_footprint this (ar : arg T) w w' :
  emplace_back this ar w = Ok tt w' → footprint this w w'.
Proof.
  unfold emplace_back. intros H. minv H. same_obj.
  assert (footprint this w w1) as F.
  { destruct (emplace_back_first_reserve this a w w0 H0 H1) as [->|Hr].
    - same_obj. destruct (_capacity a =? 0).
      + by eapply reserve_Ok_footprint.
      + minv H3. left. by eapply in_place_refl.
    - pose proof Hr as (v & v' & Hv & Ho & _ & Hc & _).
      rewrite Ho, lookup_insert_eq in H2. injection H2 as <-.
      replace (_capacity v' =? 0) with false in H3
        by (symmetry; apply Nat.eqb_neq; lia).
      minv H3. by right. }
  eapply footprint_in_place; [done|].
  eapply in_place_trans; [|by apply set_size_in_place].
  eapply slots_only_in_place; [done|].
  eapply slots_only_trans.
  - by eapply quiet_Ok; [apply quiet_read_arg|].
  - by eapply quiet_Ok; [apply quiet_construct_at|].
Qed.

Lemma emplace_back_Throw this (ar : arg T) w w' :
  emplace_back this ar w = Throw w' → w' = alloc_failed w.
Proof.
  unfold emplace_back. intros H. tinv H.
  - destruct (_size a =? _capacity a); [|tinv H].
    by apply reserve_Throw in H as [-> _].
  - destruct (emplace_back_first_reserve this a w w0 H0 H1) as [->|Hr].
    + destruct (_capacity a0 =? 0); [|tinv H].
      by apply reserve_Throw in H as [-> _].
    + destruct Hr as (v & v' & Hv & Ho & _ & Hc & _).
      rewrite Ho, lookup_insert_eq in H2. injection H2 as <-.
      replace (_capacity v' =? 0) with false in H
        by (symmetry; apply Nat.eqb_neq; lia).
      tinv H.
Qed.

(** ** What each remaining operation does to objects and blocks *)

Lemma ctor_default_Ok this w w' :
  ctor_default this w = Ok tt w' →
  w_objs w !! this = None ∧ w' = with_objs <[this := mk_vector None 0 0]> w.
Proof. unfold ctor_default. intros H. minv H. done. Qed.

Lemma ctor_sized_Ok this s w w' :
  ctor_sized this s w = Ok tt w' →
  w_objs w !! this = None ∧
  w_objs w' = <[this := mk_vector (Some (w_next w)) s s]> (w_objs w) ∧
  w_next w' = Pos.succ (w_next w) ∧
  dom (w_heap w') = {[w_next w]} ∪ dom (w_heap w).
Proof.
  unfold ctor_sized. intros H. minv H. simpl in *. simplify_map_eq. simpl in *.
  apply (quiet_Ok _ _ _ _ (quiet_construct_default_loop _ _ _)) in H
    as (Ho & Hn & _ & Hd & _). simpl in *.
  rewrite insert_insert_eq in Ho. rewrite dom_insert_L in Hd. done.
Qed.

Lemma ctor_sized_Throw this s w w' :
  ctor_sized this s w = Throw w' → w' = alloc_failed w.
Proof.
  unfold ctor_sized. intros H.
  apply construct_obj_Throw in H as (Hnew & w1 & H & ->).
  tinv H. apply world_eq; simpl; try done.
  rewrite delete_insert_eq. by apply delete_id.
Qed.

Lemma ctor_copy_Ok this other w w' :
  ctor_copy this other w = Ok tt w' →
  ∃ o, w_objs w !! other = Some o ∧ w_objs w !! this = None ∧
  w_objs w' = <[this := mk_vector (Some (w_next w)) (_size o) (_capacity o)]> (w_objs w) ∧
  w_next w' = Pos.succ (w_next w) ∧
  dom (w_heap w') = {[w_next w]} ∪ dom (w_heap w).
Proof.
  unfold ctor_copy. intros H. minv H. simpl in *.
  assert (this ≠ other) by congruence.
  simplify_map_eq. simpl in *.
  apply (quiet_Ok _ _ _ _ (quiet_copy_loop _ _ _ _)) in H
    as (Ho & Hn & _ & Hd & _). simpl in *.
  rewrite insert_insert_eq in Ho. rewrite dom_insert_L in Hd. eauto 10.
Qed.

Lemma ctor_copy_Throw this other w w' :
  ctor_copy this other w = Throw w' → w' = alloc_failed w.
Proof.
  unfold ctor_copy. intros H. tinv H.
  apply construct_obj_Throw in H as (Hnew & w1 & H & ->).
  tinv H. apply world_eq; simpl; try done.
  rewrite delete_insert_eq. by apply delete_id.
Qed.

Lemma ctor_move_Ok this other w w' :
  ctor_move this other w = Ok tt w' →
  ∃ o, w_objs w !! other = Some o ∧ w_objs w !! this = None ∧
  w_objs w' = <[other := mk_vector None 0 (_capacity o)]>
                (<[this := mk_vector (_data o) (_size o) (_capacity o)]> (w_objs w)) ∧
  w_next w' = Pos.succ (w_next w) ∧
  dom (w_heap w') = {[w_next w]} ∪ dom (w_heap w).
Proof.
  unfold ctor_move. intros H. minv H. simpl in *.
  assert (this ≠ other) by congruence.
  simplify_map_eq. simpl in *.
  exists a. rewrite !insert_insert_eq, dom_insert_L. done.
Qed.

Lemma assign_copy_Ok this other w w' :
  assign_copy this other w = Ok tt w' →
  ∃ v', w_objs w' = <[this := v']> (w_objs w) ∧ _data v' = Some (w_next w) ∧
        w_next w' = Pos.succ (w_next w) ∧
        dom (w_heap w') = {[w_next w]} ∪ dom (w_heap w).
Proof.
  unfold assign_copy. intros H. minv H. simpl in *.
  simplify_map_eq. simpl in *.
  apply (quiet_Ok _ _ _ _ (quiet_copy_loop _ _ _ _)) in H
    as (Ho & Hn & _ & Hd & _). simpl in *.
  rewrite !insert_insert_eq in Ho. rewrite dom_insert_L in Hd. eauto 10.
Qed.

(** When the allocation made by copy assignment fails, [_size] and
    [_capacity] of [this] have already been overwritten. *)
Lemma assign_copy_Throw this other w w' :
  assign_copy this other w = Throw w' →
  ∃ v v', w_objs w !! this = Some v ∧ _data v' = _data v ∧
          w_objs w' = <[this := v']> (w_objs w) ∧
          w_heap w' = w_heap w ∧ w_next w' = w_next w.
Proof.
  unfold assign_copy. intros H. tinv H. simpl in *.
  simplify_map_eq. simpl in *.
  exists x, (mk_vector (_data x) (_size a) (_capacity a0)).
  rewrite insert_insert_eq. done.
Qed.

Lemma assign_move_Ok this other w w' :
  assign_move this other w = Ok tt w' →
  ∃ v o, w_objs w !! this = Some v ∧ w_objs w !! other = Some o ∧
  w_objs w' = <[other := mk_vector None 0 (_capacity o)]>
                (<[this := mk_vector (_data o) (_size o) (_capacity o)]> (w_objs w)) ∧
  w_next w' = Pos.succ (w_next w) ∧
  dom (w_heap w') = {[w_next w]} ∪ dom (w_heap w).
Proof.
  unfold assign_move. intros H. minv H. simpl in *.
  destruct (decide (this = other)) as [->|Hne]; simplify_map_eq; simpl in *.
  - eexists _, _. split; [done|]. split; [done|].
    rewrite !insert_insert_eq, dom_insert_L. done.
  - eexists _, _. split; [done|]. split; [done|].
    rewrite !insert_insert_eq, dom_insert_L. done.
Qed.

Lemma index_write_Ok this i x w w' :
  index_write this i x w = Ok tt w' → slots_only w w'.
Proof.
  unfold index_write. intros H. minv H.
  by eapply quiet_Ok; [apply quiet_assign_slot|].
Qed.

Lemma assign_slot_Throw p i x w w' : assign_slot p i x w ≠ Throw w'.
Proof. apply quiet_Throw, quiet_assign_slot. Qed.

Lemma index_write_Throw this i x w w' : index_write this i x w ≠ Throw w'.
Proof.
  unfold index_write. intros H. tinv H. by apply assign_slot_Throw in H.
Qed.

Lemma dtor_Ok this w w' :
  dtor this w = Ok tt w' →
  ∃ v, w_objs w !! this = Some v ∧
       w_objs w' = delete this (w_objs w) ∧
       w_next w' = w_next w ∧
       dom (w_heap w') = dom (w_heap w) ∖ block_set (_data v) ∧
       ∃ evs, w_trace w' = w_trace w ++ evs ∧
              Forall (λ e, zero_allocation e = false) evs.
Proof.
  unfold dtor. intros H. minv H. exists a. split; [done|].
  destruct (_data a) as [p|] eqn:Hp.
  - minv H1.
    apply (quiet_Ok _ _ _ _ (quiet_destroy_n _ _ _)) in H
      as (Ho1 & Hn1 & _ & Hd1 & evs1 & Ht1 & Hl1).
    rewrite Ho1 in H2. same_obj. rewrite Hp in H3.
    apply deallocate_Ok in H3 as (b & Hb & Hlen & ->). simpl in *.
    rewrite delete_insert_eq, Ho1, dom_delete_L, Hd1.
    repeat split; try done.
    exists (evs1 ++ [EvDeallocate p (_capacity a)]).
    rewrite Ht1, app_assoc. split; [done|].
    apply Forall_app_2; [by apply lifetime_not_zero_allocation|].
    by apply Forall_singleton.
  - minv H1. simpl. repeat split; [set_solver|].
    exists []. by rewrite app_nil_r.
Qed.

Lemma dtor_Throw this w w' : dtor this w ≠ Throw w'.
Proof.
  unfold dtor. intros H. tinv H.
  - destruct (_data a); tinv H.
  - done.
Qed.

(** ** No block is shared *)

Lemma valid_update this v' w w' :
  valid_world w →
  w_objs w' = <[this := v']> (w_objs w) →
  (∀ p, p ∈ dom (w_heap w') → (p < w_next w')%positive) →
  (∀ j vj p, j ≠ this → w_objs w !! j = Some vj → _data vj = Some p →
             p ∈ dom (w_heap w')) →
  (∀ p, _data v' = Some p →
        p ∈ dom (w_heap w') ∧
        ∀ j vj, j ≠ this → w_objs w !! j = Some vj → _data vj ≠ Some p) →
  valid_world w'.
Proof.
  intros (Hf & Ha & Hu) Ho Hfresh Hothers Hthis. split; [|split].
  - intros p Hp. apply Hfresh. by apply elem_of_dom.
  - intros i v p Hi Hd. rewrite Ho in Hi.
    destruct (decide (i = this)) as [->|Hne].
    + rewrite lookup_insert_eq in Hi. injection Hi as <-. by apply Hthis.
    + rewrite lookup_insert_ne in Hi by done. by eapply Hothers.
  - intros i j vi vj p Hi Hj Hdi Hdj. rewrite Ho in Hi, Hj.
    destruct (decide (i = this)) as [->|Hi'], (decide (j = this)) as [->|Hj'];
      try done.
    + rewrite lookup_insert_eq in Hi. injection Hi as <-.
      rewrite lookup_insert_ne in Hj by done.
      destruct (Hthis p Hdi) as [_ Hno]. by destruct (Hno j vj).
    + rewrite lookup_insert_eq in Hj. injection Hj as <-.
      rewrite lookup_insert_ne in Hi by done.
      destruct (Hthis p Hdj) as [_ Hno]. by destruct (Hno i vi).
    + rewrite lookup_insert_ne in Hi, Hj by done. by eapply Hu.
Qed.

Lemma valid_fresh_block w p :
  valid_world w → p ∈ dom (w_heap w) → p ≠ w_next w.
Proof.
  intros (Hf & _) Hp%elem_of_dom ->. specialize (Hf _ Hp). lia.
Qed.

Lemma valid_holder_block w j vj p :
  valid_world w → w_objs w !! j = Some vj → _data vj = Some p →
  p ∈ dom (w_heap w) ∧ p ≠ w_next w.
Proof.
  intros Hv Hj Hd. assert (p ∈ dom (w_heap w)) by (by eapply Hv).
  split; [done|]. by apply valid_fresh_block.
Qed.

(** [this] keeps its block (or drops to null); blocks are unchanged. *)
Lemma valid_keep this v v' w w' :
  valid_world w →
  w_objs w !! this = Some v →
  w_objs w' = <[this := v']> (w_objs w) →
  _data v' = _data v ∨ _data v' = None →
  w_next w' = w_next w → dom (w_heap w') = dom (w_heap w) →
  valid_world w'.
Proof.
  intros Hv Hthis Ho Hd Hn Hh. pose proof Hv as (Hf & Ha & Hu).
  eapply valid_update; [done..| | |].
  - intros p Hp. rewrite Hn. apply Hf. apply elem_of_dom. by rewrite <- Hh.
  - intros j vj p _ Hj Hp. rewrite Hh. by eapply Ha.
  - intros p Hp. destruct Hd as [Hd|Hd]; [|congruence]. rewrite Hd in Hp.
    split; [rewrite Hh; by eapply Ha|].
    intros j vj Hne Hj Hpj. apply Hne. by eapply (Hu j this).
Qed.

(** [this] adopts the block the allocator hands out next. *)
Lemma valid_adopt this v' (gone : gset positive) w w' :
  valid_world w →
  w_objs w' = <[this := v']> (w_objs w) →
  _data v' = Some (w_next w) →
  w_next w' = Pos.succ (w_next w) →
  dom (w_heap w') = ({[w_next w]} ∪ dom (w_heap w)) ∖ gone →
  w_next w ∉ gone →
  (∀ j vj p, j ≠ this → w_objs w !! j = Some vj → _data vj = Some p → p ∉ gone) →
  valid_world w'.
Proof.
  intros Hv Ho Hd Hn Hh Hq Hgone. pose proof Hv as (Hf & Ha & Hu).
  eapply valid_update; [done..| | |].
  - intros p Hp. rewrite Hn. rewrite Hh in Hp.
    apply elem_of_difference in Hp as [[->%elem_of_singleton|Hp]%elem_of_union _];
      [lia|].
    apply elem_of_dom in Hp. specialize (Hf _ Hp). lia.
  - intros j vj p Hne Hj Hp. rewrite Hh. apply elem_of_difference.
    split; [|by eapply Hgone]. apply elem_of_union. right. by eapply Ha.
  - intros p Hp. rewrite Hd in Hp. injection Hp as <-. split.
    + rewrite Hh. set_solver.
    + intros j vj _ Hj Hpj. by destruct (valid_holder_block w j vj _ Hv Hj Hpj).
Qed.

Lemma valid_same w w' :
  valid_world w →
  w_objs w' = w_objs w → w_next w' = w_next w →
  dom (w_heap w') = dom (w_heap w) →
  valid_world w'.
Proof.
  intros (Hf & Ha & Hu) Ho Hn Hh. split; [|split].
  - intros p Hp. rewrite Hn. apply Hf. apply elem_of_dom. rewrite <- Hh.
    by apply elem_of_dom.
  - by rewrite Ho, Hh.
  - by rewrite Ho.
Qed.

Lemma valid_more_blocks w w' :
  valid_world w →
  w_objs w' = w_objs w → w_next w' = Pos.succ (w_next w) →
  dom (w_heap w') = {[w_next w]} ∪ dom (w_heap w) →
  valid_world w'.
Proof.
  intros (Hf & Ha & Hu) Ho Hn Hh. split; [|split].
  - intros p Hp%elem_of_dom. rewrite Hn. rewrite Hh in Hp.
    apply elem_of_union in Hp as [->%elem_of_singleton|Hp]; [lia|].
    apply elem_of_dom in Hp. specialize (Hf _ Hp). lia.
  - rewrite Ho, Hh. intros i v p Hi Hd. apply elem_of_union. right. by eapply Ha.
  - by rewrite Ho.
Qed.

Lemma valid_delete this v w w' :
  valid_world w →
  w_objs w !! this = Some v →
  w_objs w' = delete this (w_objs w) →
  w_next w' = w_next w →
  dom (w_heap w') = dom (w_heap w) ∖ block_set (_data v) →
  valid_world w'.
Proof.
  intros (Hf & Ha & Hu) Hthis Ho Hn Hh. split; [|split].
  - intros p Hp%elem_of_dom. rewrite Hn. rewrite Hh in Hp.
    apply elem_of_difference in Hp as [Hp _]. apply Hf. by apply elem_of_dom.
  - rewrite Ho, Hh. intros i vi p Hi Hd.
    apply lookup_delete_Some in Hi as [Hne Hi].
    apply elem_of_difference. split; [by eapply Ha|].
    destruct (_data v) as [q|] eqn:Hq; simpl; [|set_solver].
    intros ->%elem_of_singleton. apply Hne. by eapply (Hu this i).
  - rewrite Ho. intros i j vi vj p Hi Hj.
    apply lookup_delete_Some in Hi as [_ Hi].
    apply lookup_delete_Some in Hj as [_ Hj]. by eapply Hu.
Qed.

(** [this] takes over the block of [other], which is left null. *)
Lemma valid_transfer this other o v' w w' :
  valid_world w →
  w_objs w !! other = Some o →
  _data v' = _data o →
  w_objs w' = <[other := mk_vector None 0 (_capacity o)]> (<[this := v']> (w_objs w)) →
  w_next w' = Pos.succ (w_next w) →
  dom (w_heap w') = {[w_next w]} ∪ dom (w_heap w) →
  valid_world w'.
Proof.
  intros Hv Hother Hd Ho Hn Hh.
  destruct (decide (this = other)) as [->|Hne].
  - rewrite insert_insert_eq in Ho.
    apply (valid_keep other o (mk_vector None 0 (_capacity o)) w
             (mk_world (w_objs w') (w_heap w) (w_next w) (w_plan w) (w_trace w)))
      in Hv; simpl; auto.
    by eapply valid_more_blocks.
  - rewrite insert_insert_ne in Ho by done.
    set (w1 := mk_world (<[other := mk_vector None 0 (_capacity o)]> (w_objs w))
                 (w_heap w) (w_next w) (w_plan w) (w_trace w)).
    assert (valid_world w1) as Hv1.
    { eapply (valid_keep other o); simpl; eauto. }
    set (w2 := mk_world (w_objs w') (w_heap w) (w_next w) (w_plan w) (w_trace w)).
    assert (valid_world w2) as Hv2.
    { eapply (valid_update this v' w1); simpl; [done|done| | |].
      - intros p Hp. by apply Hv, elem_of_dom.
      - intros j vj p _ Hj Hp. by eapply Hv1.
      - intros p Hp. rewrite Hd in Hp. split; [by eapply Hv|].
        intros j vj Hj Hlook Hpj.
        destruct (decide (j = other)) as [->|Hjo].
        + rewrite lookup_insert_eq in Hlook. by injection Hlook as <-.
        + rewrite lookup_insert_ne in Hlook by done.
          apply Hjo. destruct Hv as (_ & _ & Hu). by eapply (Hu j other). }
    by eapply (valid_more_blocks w2).
Qed.

Lemma footprint_valid this w w' :
  valid_world w → footprint this w w' → valid_world w'.
Proof.
  intros Hv [(v & v' & Hthis & Ho & Hd & _ & Hn & _ & Hh & _)
            |(v & v' & Hthis & Ho & Hd & _ & Hn & _ & Hh & _)].
  - eapply valid_keep; eauto.
  - eapply (valid_adopt this v' (block_set (_data v))); eauto.
    + destruct (_data v) as [p|] eqn:Hp; simpl; [|set_solver].
      destruct (valid_holder_block w this v p Hv Hthis Hp) as [_ Hne].
      set_solver.
    + intros j vj p Hne Hj Hp.
      destruct (_data v) as [q|] eqn:Hq; simpl; [|set_solver].
      intros ->%elem_of_singleton. apply Hne.
      destruct Hv as (_ & _ & Hu). by eapply (Hu j this).
Qed.

Lemma alloc_failed_valid w : valid_world w → valid_world (alloc_failed w).
Proof. intros Hv. by eapply valid_same. Qed.

Lemma exec_valid o w w' :
  valid_world w → exec o w = Ok tt w' ∨ exec o w = Throw w' → valid_world w'.
Proof.
  intros Hv Hrun. destruct o as [this|this s|this other|this other|this other
    |this other|this n|this n|this x|this i x|this]; simpl in Hrun.
  - (* vector_t() *)
    destruct Hrun as [[Hnew ->]%ctor_default_Ok|H].
    + eapply (valid_update this (mk_vector None 0 0) w); simpl; try done.
      * intros p Hp. by apply Hv, elem_of_dom.
      * intros j vj p _ Hj Hp. by eapply Hv.
    + unfold ctor_default in H. by apply construct_obj_Throw in H as (_ & ? & ? & _).
  - (* vector_t(s) *)
    destruct Hrun as [(Hnew & Ho & Hn & Hh)%ctor_sized_Ok| ->%ctor_sized_Throw];
      [|by apply alloc_failed_valid].
    eapply (valid_adopt this _ ∅); eauto; [by rewrite Hh; set_solver|set_solver..].
  - (* copy constructor *)
    destruct Hrun as [(o & Hother & Hnew & Ho & Hn & Hh)%ctor_copy_Ok| ->%ctor_copy_Throw];
      [|by apply alloc_failed_valid].
    eapply (valid_adopt this _ ∅); eauto; [by rewrite Hh; set_solver|set_solver..].
  - (* move constructor *)
    destruct Hrun as [(o & Hother & Hnew & Ho & Hn & Hh)%ctor_move_Ok|H].
    + by eapply (valid_transfer this other o (mk_vector (_data o) (_size o) (_capacity o))).
    + by apply noexcept_Throw in H.
  - (* copy assignment *)
    destruct Hrun as [(v' & Ho & Hd & Hn & Hh)%assign_copy_Ok
                     |(v & v' & Hthis & Hd & Ho & Hh & Hn)%assign_copy_Throw].
    + eapply (valid_adopt this v' ∅); eauto; [by rewrite Hh; set_solver|set_solver..].
    + eapply valid_keep; eauto. by rewrite Hh.
  - (* move assignment *)
    destruct Hrun as [(v & o & Hthis & Hother & Ho & Hn & Hh)%assign_move_Ok|H].
    + by eapply (valid_transfer this other o (mk_vector (_data o) (_size o) (_capacity o))).
    + by apply noexcept_Throw in H.
  - (* reserve *)
    destruct Hrun as [H%reserve_Ok_footprint|[-> _]%reserve_Throw];
      [by eapply footprint_valid|by apply alloc_failed_valid].
  - (* resize *)
    destruct Hrun as [H%resize_Ok_footprint| ->%resize_Throw];
      [by eapply footprint_valid|by apply alloc_failed_valid].
  - (* emplace_back *)
    destruct Hrun as [H%emplace_back_Ok_footprint| ->%emplace_back_Throw];
      [by eapply footprint_valid|by apply alloc_failed_valid].
  - (* v[i] = x *)
    destruct Hrun as [(Ho & Hn & _ & Hh & _)%index_write_Ok|H].
    + by eapply valid_same.
    + by apply index_write_Throw in H.
  - (* destructor *)
    destruct Hrun as [(v & Hthis & Ho & Hn & Hh & _)%dtor_Ok|H].
    + by eapply valid_delete.
    + by apply dtor_Throw in H.
Qed.

(** In a program whose blocks are not shared, assigning to an element of
    one vector changes nothing that can be observed through another. *)
Lemma write_isolated a b i x w w' :
  valid_world w → a ≠ b →
  index_write a i x w = Ok tt w' → view w' b = view w b.
Proof.
  intros (_ & _ & Hu) Hne H. unfold index_write in H. minv H.
  apply assign_slot_Ok in H as (p & v & Hp & _ & ->).
  unfold view. simpl. destruct (w_objs w !! b) as [vb|] eqn:Hb; [|done].
  destruct (_data vb) as [pb|] eqn:Hpb; [|done].
  rewrite lookup_alter_ne; [done|].
  intros <-. apply Hne. by eapply (Hu a b).
Qed.

(** C9. Whatever the operation (construction, copy, move, assignment,
    [reserve], [resize], [emplace_back], element assignment, destruction),
    if the program had no block referenced by two vectors, every non-null
    [_data] pointing to an allocated block, then the same holds once the
    operation has returned or thrown; and in the resulting state, assigning
    to an element of a vector [a] leaves the members and all slots of any
    other vector [b] as they were, whichever of the two is the copy or the
    source. *)
Theorem no_shared_region o w w' :
  valid_world w →
  exec o w = Ok tt w' ∨ exec o w = Throw w' →
  valid_world w' ∧
  ∀ a b i x w'',
    a ≠ b → index_write a i x w' = Ok tt w'' → view w'' b = view w' b.
Proof.
  intros Hv Hrun. assert (valid_world w') as Hv' by by eapply exec_valid.
  split; [done|]. intros a b i x w'' Hne Hw. by eapply write_isolated.
Qed.

(** ** Requests for 0 slots *)

Lemma ctor_sized_trace this s w w' :
  ctor_sized this s w = Ok tt w' →
  ∃ evs, w_trace w' = w_trace w ++ EvAllocate s (w_next w) :: evs ∧
         Forall (λ e, lifetime_event e = true) evs.
Proof.
  unfold ctor_sized. intros H. minv H. simpl in *. simplify_map_eq. simpl in *.
  apply (quiet_Ok _ _ _ _ (quiet_construct_default_loop _ _ _)) in H
    as (_ & _ & _ & _ & evs & Ht & Hl). simpl in *.
  exists evs. by rewrite Ht, <- app_assoc.
Qed.

Lemma ctor_copy_trace this other w w' :
  ctor_copy this other w = Ok tt w' →
  ∃ o evs, w_objs w !! other = Some o ∧
           w_trace w' = w_trace w ++ EvAllocate (_capacity o) (w_next w) :: evs ∧
           Forall (λ e, lifetime_event e = true) evs.
Proof.
  unfold ctor_copy. intros H. minv H. simpl in *.
  assert (this ≠ other) by congruence.
  simplify_map_eq. simpl in *.
  apply (quiet_Ok _ _ _ _ (quiet_copy_loop _ _ _ _)) in H
    as (_ & _ & _ & _ & evs & Ht & Hl). simpl in *.
  eexists _, evs. split; [done|]. by rewrite Ht, <- app_assoc.
Qed.

Lemma assign_copy_trace this other w w' :
  assign_copy this other w = Ok tt w' →
  ∃ o v' evs, w_objs w !! other = Some o ∧
              w_objs w' !! this = Some v' ∧
              _data v' = Some (w_next w) ∧ _capacity v' = _capacity o ∧
              w_trace w' = w_trace w ++ EvAllocate (_capacity o) (w_next w) :: evs ∧
              Forall (λ e, lifetime_event e = true) evs.
Proof.
  unfold assign_copy. intros H. minv H. simpl in *.
  destruct (decide (this = other)) as [->|Hne]; simplify_map_eq; simpl in *.
  all: apply (quiet_Ok _ _ _ _ (quiet_copy_loop _ _ _ _)) in H
    as (Ho & _ & _ & _ & evs & Ht & Hl); simpl in *.
  all: eexists _, _, evs; split; [done|]; rewrite Ho, lookup_insert_eq;
    split; [done|]; simpl; split; [done|]; split; [done|];
    by rewrite Ht, <- app_assoc.
Qed.

(** ** Failure of an allocation *)

(** When [reserve], [resize], [emplace_back], the sized constructor or the
    copy constructor throw, nothing but the allocator's plan has changed:
    objects, blocks and trace are those of the state before the call. *)
Lemma growth_failure_is_atomic o w w' :
  match o with
  | OpSized _ _ | OpCopy _ _ | OpReserve _ _ | OpResize _ _ | OpEmplaceBack _ _ => True
  | _ => False
  end →
  exec o w = Throw w' →
  w_objs w' = w_objs w ∧ w_heap w' = w_heap w ∧
  w_next w' = w_next w ∧ w_trace w' = w_trace w.
Proof.
  intros Hop Hrun.
  destruct o; try done; simpl in Hrun.
  - by apply ctor_sized_Throw in Hrun as ->.
  - by apply ctor_copy_Throw in Hrun as ->.
  - by apply reserve_Throw in Hrun as [-> _].
  - by apply resize_Throw in Hrun as ->.
  - by apply emplace_back_Throw in Hrun as ->.
Qed.

(** ** Blocks that are lost *)

(** Copy assignment releases nothing: the block the destination pointed
    to is still allocated afterwards, and no vector references it. *)
Lemma assign_copy_abandons_block this other v p w w' :
  valid_world w →
  w_objs w !! this = Some v → _data v = Some p →
  assign_copy this other w = Ok tt w' →
  p ∈ dom (w_heap w') ∧
  ∀ j vj, w_objs w' !! j = Some vj → _data vj ≠ Some p.
Proof.
  intros Hv Hthis Hp (v' & Ho & Hd & Hn & Hh)%assign_copy_Ok.
  destruct (valid_holder_block w this v p Hv Hthis Hp) as [Hin Hne].
  split; [rewrite Hh; set_solver|].
  intros j vj Hj Hpj. rewrite Ho in Hj.
  destruct (decide (j = this)) as [->|Hjt].
  - rewrite lookup_insert_eq in Hj. injection Hj as <-. congruence.
  - rewrite lookup_insert_ne in Hj by done.
    destruct Hv as (_ & _ & Hu). apply Hjt. by eapply (Hu j this).
Qed.

(** Both moves obtain a block from the allocator that no vector ever
    references. *)
Lemma move_abandons_fresh_block this other w w' :
  valid_world w →
  ctor_move this other w = Ok tt w' ∨ assign_move this other w = Ok tt w' →
  w_next w ∈ dom (w_heap w') ∧
  ∀ j vj, w_objs w' !! j = Some vj → _data vj ≠ Some (w_next w).
Proof.
  intros Hv Hrun.
  assert (∃ o, w_objs w !! other = Some o ∧
    w_objs w' = <[other := mk_vector None 0 (_capacity o)]>
                  (<[this := mk_vector (_data o) (_size o) (_capacity o)]> (w_objs w)) ∧
    dom (w_heap w') = {[w_next w]} ∪ dom (w_heap w)) as (o & Hother & Ho & Hh).
  { destruct Hrun as [(o & ? & ? & ? & ? & ?)%ctor_move_Ok
                     |(v & o & ? & ? & ? & ? & ?)%assign_move_Ok]; eauto. }
  split; [rewrite Hh; set_solver|].
  intros j vj Hj Hpj. rewrite Ho in Hj.
  destruct (decide (j = other)) as [->|Hjo].
  { rewrite lookup_insert_eq in Hj. by injection Hj as <-. }
  rewrite lookup_insert_ne in Hj by done.
  destruct (decide (j = this)) as [->|Hjt].
  - rewrite lookup_insert_eq in Hj. injection Hj as <-. simpl in Hpj.
    by destruct (valid_holder_block w other o _ Hv Hother Hpj).
  - rewrite lookup_insert_ne in Hj by done.
    by destruct (valid_holder_block w j vj _ Hv Hj Hpj).
Qed.

(** Move assignment does not release the block of its destination
    either. *)
Lemma assign_move_abandons_block this other v p w w' :
  valid_world w → this ≠ other →
  w_objs w !! this = Some v → _data v = Some p →
  assign_move this other w = Ok tt w' →
  p ∈ dom (w_heap w') ∧
  ∀ j vj, w_objs w' !! j = Some vj → _data vj ≠ Some p.
Proof.
  intros Hv Hne Hthis Hp (v0 & o & _ & Hother & Ho & Hn & Hh)%assign_move_Ok.
  destruct (valid_holder_block w this v p Hv Hthis Hp) as [Hin _].
  split; [rewrite Hh; set_solver|].
  intros j vj Hj Hpj. rewrite Ho in Hj.
  destruct (decide (j = other)) as [->|Hjo].
  { rewrite lookup_insert_eq in Hj. by injection Hj as <-. }
  rewrite lookup_insert_ne in Hj by done.
  destruct Hv as (_ & _ & Hu).
  destruct (decide (j = this)) as [->|Hjt].
  - rewrite lookup_insert_eq in Hj. injection Hj as <-. simpl in Hpj.
    apply Hne. by eapply (Hu this other).
  - rewrite lookup_insert_ne in Hj by done. apply Hjt. by eapply (Hu j this).
Qed.

(** Copy assignment of a non-empty vector to itself reads a slot of the
    block it has just allocated. *)
Lemma assign_copy_self_undefined this v w :
  w_objs w !! this = Some v → 0 < _size v → next_alloc_ok w →
  assign_copy this this w = Undefined.
Proof.
  intros Hv Hsz Hok. unfold assign_copy.
  do 7 mrun. mrun. simpl.
  destruct (_size v) as [|n]; [lia|]. simpl.
  apply bind_undefined. mrun. simpl.
  apply bind_undefined.
  unfold read_slot, slot_at. simpl. rewrite lookup_insert_eq.
  by destruct (_capacity v).
Qed.

(** ** Construction, copy and destruction of well-formed vectors *)

Lemma construct_obj_run this init body w w' :
  w_objs w !! this = None →
  body (with_objs <[this := init]> w) = Ok tt w' →
  construct_obj this init body w = Ok tt w'.
Proof. intros. by apply construct_obj_Ok. Qed.

Lemma ctor_sized_run this s w :
  w_objs w !! this = None → next_alloc_ok w →
  ctor_sized this s w =
  Ok tt (mk_world (<[this := mk_vector (Some (w_next w)) s s]> (w_objs w))
           (<[w_next w := replicate s (Some T_default)]> (w_heap w))
           (Pos.succ (w_next w)) (tail (w_plan w))
           (w_trace w ++ EvAllocate s (w_next w) ::
              (EvConstruct (w_next w) <$> seq 0 s))).
Proof.
  intros Hnew Hok. unfold ctor_sized. apply construct_obj_run; [done|].
  do 3 mrun. simpl.
  erewrite (construct_loop this _ (w_next w) T_default s 0 [] []); simpl.
  - f_equal. apply world_eq; simpl; try done.
    + by rewrite !insert_insert_eq.
    + by rewrite insert_insert_eq, app_nil_r.
    + by rewrite <- app_assoc.
  - apply lookup_insert_eq.
  - done.
  - rewrite lookup_insert_eq. by rewrite app_nil_r.
  - done.
Qed.

(** The destructor of a vector that owns a block. *)
Lemma dtor_run this v p vals w :
  w_objs w !! this = Some v → _data v = Some p → _size v = length vals →
  w_heap w !! p = Some (block_of vals (_capacity v)) →
  length vals ≤ _capacity v →
  dtor this w =
  Ok tt (mk_world (delete this (w_objs w)) (delete p (w_heap w))
           (w_next w) (w_plan w)
           (w_trace w ++ (EvDestroy p <$> seq 0 (length vals)) ++
              [EvDeallocate p (_capacity v)])).
Proof.
  intros Hv Hp Hsz Hb Hle. unfold dtor. mrun. rewrite Hp, Hsz.
  rewrite bind_assoc.
  erewrite bind_run; cycle 1.
  { eapply (destroy_loop p vals 0 []); [|done]. simpl. apply Hb. }
  rewrite bind_assoc. mrun. rewrite Hp. rewrite bind_assoc.
  erewrite bind_run; cycle 1.
  { eapply deallocate_run; simpl.
    - apply lookup_insert_eq.
    - rewrite length_app, !length_replicate. simpl. lia. }
  mrun. unfold end_obj. f_equal. apply world_eq; simpl; try done.
  - by rewrite delete_insert_eq.
  - by rewrite delete_insert_eq.
  - by rewrite <- app_assoc.
Qed.

(** The loop of the copy constructor and of copy assignment:
    [construct_at(_data + i, *(other._data + i))]. *)
Lemma copy_loop this other t o p q : ∀ (vs : list T) k pre post pre' post' w,
  w_objs w !! this = Some t → _data t = Some q →
  w_objs w !! other = Some o → _data o = Some p → p ≠ q →
  w_heap w !! p = Some (pre ++ (Some <$> vs) ++ post) → length pre = k →
  w_heap w !! q = Some (pre' ++ replicate (length vs) None ++ post') →
  length pre' = k →
  for_range k (length vs) (fun i =>
    do o <- get_obj other;
    do v <- read_slot (_data o) i;
    do t <- get_obj this;
    construct_at (_data t) i v) w =
  Ok tt (log_all (EvConstruct q <$> seq k (length vs))
           (with_heap <[q := pre' ++ (Some <$> vs) ++ post']> w)).
Proof.
  induction vs as [|v vs IH];
    intros k pre post pre' post' w Ht Hq Ho Hp Hne Hb Hk Hb' Hk'; simpl.
  - rewrite log_all_nil. unfold ret. f_equal.
    apply world_eq; simpl; try done. by rewrite insert_id.
  - rewrite !bind_assoc. mrun. rewrite Hp. rewrite bind_assoc.
    erewrite bind_run; cycle 1.
    { eapply read_slot_run; [done|]. by apply list_lookup_middle. }
    rewrite bind_assoc. mrun. rewrite Hq.
    erewrite bind_run; cycle 1.
    { eapply construct_at_run; [done|]. by apply list_lookup_middle. }
    erewrite (IH (S k) (pre ++ [Some v]) post (pre' ++ [Some v]) post');
      simpl; try done.
    + f_equal. apply world_eq; simpl; try done.
      * rewrite <- !app_assoc. simpl. by rewrite insert_insert_eq.
      * by rewrite <- app_assoc.
    + rewrite lookup_insert_ne by done. by rewrite <- app_assoc.
    + rewrite length_app. simpl. lia.
    + rewrite lookup_insert_eq. f_equal.
      rewrite insert_middle by done. by rewrite <- app_assoc.
    + rewrite length_app. simpl. lia.
Qed.

Lemma copy_tail this other o vals (d : option addr) w :
  this ≠ other →
  w_objs w !! other = Some o → _size o = length vals →
  match _data o with
  | Some p => w_heap w !! p = Some (block_of vals (_capacity o)) ∧
              length vals ≤ _capacity o
  | None => vals = []
  end →
  w_objs w !! this = Some (mk_vector d (_size o) (_capacity o)) →
  heap_fresh w → next_alloc_ok w →
  (do p <- allocate (_capacity o);
   set_data this (Some p) ;;
   do t <- get_obj this;
   for_range 0 (_size t) (fun i =>
     do o <- get_obj other;
     do v <- read_slot (_data o) i;
     do t <- get_obj this;
     construct_at (_data t) i v)) w = Ok tt (copied this o vals w).
Proof.
  intros Hne Ho Hsz Hd Ht Hf Hok.
  assert (w_heap w !! w_next w = None) as Hq by by apply heap_fresh_next.
  do 3 mrun. simpl. rewrite Hsz.
  destruct (_data o) as [p|] eqn:Hp.
  - destruct Hd as [Hb Hle].
    assert (p ≠ w_next w) as Hpq by congruence.
    erewrite (copy_loop this other _ o p (w_next w) vals 0 [] _ []
                (replicate (_capacity o - length vals) None)); simpl; try done.
    + f_equal. apply world_eq; simpl; try done.
      * by rewrite Hsz.
      * by rewrite insert_insert_eq.
      * by rewrite <- app_assoc.
    + apply lookup_insert_eq.
    + done.
    + by rewrite lookup_insert_ne.
    + rewrite lookup_insert_ne by done. apply Hb.
    + rewrite lookup_insert_eq. f_equal.
      rewrite <- replicate_add. f_equal. lia.
  - subst vals. simpl. unfold ret. f_equal. apply world_eq; simpl; try done.
    + by rewrite Hsz.
    + unfold block_of. simpl. by rewrite Nat.sub_0_r.
Qed.

Lemma ctor_copy_run this other o vals w :
  w_objs w !! this = None →
  w_objs w !! other = Some o → _size o = length vals →
  match _data o with
  | Some p => w_heap w !! p = Some (block_of vals (_capacity o)) ∧
              length vals ≤ _capacity o
  | None => vals = []
  end →
  heap_fresh w → next_alloc_ok w →
  ctor_copy this other w = Ok tt (copied this o vals w).
Proof.
  intros Hnew Ho Hsz Hd Hf Hok.
  assert (this ≠ other) as Hne by congruence.
  unfold ctor_copy. mrun. apply construct_obj_run; [done|].
  erewrite (bind_run (get_obj _)); cycle 1.
  { apply get_obj_run. simpl. by rewrite lookup_insert_ne. }
  rewrite (copy_tail this other o vals None); simpl; try done.
  - f_equal. apply world_eq; simpl; try done. by rewrite insert_insert_eq.
  - by rewrite lookup_insert_ne.
  - apply lookup_insert_eq.
Qed.

Lemma assign_copy_run this other t o vals w :
  this ≠ other →
  w_objs w !! this = Some t →
  w_objs w !! other = Some o → _size o = length vals →
  match _data o with
  | Some p => w_heap w !! p = Some (block_of vals (_capacity o)) ∧
              length vals ≤ _capacity o
  | None => vals = []
  end →
  heap_fresh w → next_alloc_ok w →
  assign_copy this other w = Ok tt (copied this o vals w).
Proof.
  intros Hne Ht Ho Hsz Hd Hf Hok. unfold assign_copy.
  mrun. mrun.
  erewrite (bind_run (get_obj _)); cycle 1.
  { apply get_obj_run. simpl. by rewrite lookup_insert_ne. }
  mrun. mrun. simpl.
  rewrite (copy_tail this other o vals (_data t)); simpl; try done.
  - f_equal. apply world_eq; simpl; try done. by rewrite !insert_insert_eq.
  - by rewrite !lookup_insert_ne.
  - apply lookup_insert_eq.
Qed.

(** X1. The sized constructor, for an object that does not exist yet and an
    allocator that serves the request: it returns, the new vector holds
    [s] default-constructed values in a buffer of exactly [s] slots,
    [size()] is [s], and it logged one request for [s] slots followed by
    one construction per slot, in index order. *)
Theorem sized_constructor_spec this s w :
  w_objs w !! this = None → next_alloc_ok w →
  ∃ w', ctor_sized this s w = Ok tt w' ∧
        holds w' this (replicate s T_default) s ∧
        size this w' = Ok s w' ∧
        w_trace w' = w_trace w ++ EvAllocate s (w_next w) ::
                       (EvConstruct (w_next w) <$> seq 0 s).
Proof.
  intros Hnew Hok. eexists. split; [by apply ctor_sized_run|].
  assert (holds (mk_world (<[this := mk_vector (Some (w_next w)) s s]> (w_objs w))
           (<[w_next w := replicate s (Some T_default)]> (w_heap w))
           (Pos.succ (w_next w)) (tail (w_plan w))
           (w_trace w ++ EvAllocate s (w_next w) ::
              (EvConstruct (w_next w) <$> seq 0 s)))
           this (replicate s T_default) s) as Hh.
  { eexists. simpl. rewrite lookup_insert_eq. split; [done|]. simpl.
    rewrite length_replicate. split; [done|]. split; [done|]. split; [|done].
    rewrite lookup_insert_eq. f_equal. unfold block_of.
    rewrite length_replicate, Nat.sub_diag, fmap_replicate. simpl.
    by rewrite app_nil_r. }
  split; [done|]. split; [|done].
  erewrite holds_size by done. by rewrite length_replicate.
Qed.

Lemma holds_source_data w other vals cap o :
  holds w other vals cap → w_objs w !! other = Some o →
  _size o = length vals ∧ _capacity o = cap ∧
  match _data o with
  | Some p => w_heap w !! p = Some (block_of vals (_capacity o)) ∧
              length vals ≤ _capacity o
  | None => vals = []
  end.
Proof.
  intros (o' & Ho' & Hsz & Hcap & Hd) Ho. rewrite Ho in Ho'. injection Ho' as <-.
  split; [done|]. split; [done|]. rewrite Hcap.
  destruct (_data o); [done|by destruct Hd].
Qed.

Lemma holds_lookup w this vals cap :
  holds w this vals cap → ∃ v, w_objs w !! this = Some v.
Proof. intros (v & Hv & _). eauto. Qed.

(** After the allocation and the copy loop, [this] holds the values of
    the source, and the source still holds them. *)
Lemma copied_holds this other o vals w :
  this ≠ other → heap_fresh w →
  w_objs w !! other = Some o →
  holds w other vals (_capacity o) →
  holds (copied this o vals w) this vals (_capacity o) ∧
  holds (copied this o vals w) other vals (_capacity o) ∧
  view (copied this o vals w) other = view w other.
Proof.
  intros Hne Hf Ho Hh.
  destruct (holds_source_data _ _ _ _ _ Hh Ho) as (Hsz & _ & Hd).
  assert (w_heap w !! w_next w = None) as Hq by by apply heap_fresh_next.
  assert (∀ p, _data o = Some p →
               <[w_next w := block_of vals (_capacity o)]> (w_heap w) !! p = w_heap w !! p)
    as Hkeep.
  { intros p Hp. rewrite Hp in Hd. destruct Hd as [Hb _].
    rewrite lookup_insert_ne; [done|congruence]. }
  split; [|split].
  - eexists. simpl. rewrite lookup_insert_eq. split; [done|]. simpl.
    split; [done|]. split; [done|]. rewrite lookup_insert_eq. split; [done|].
    destruct (_data o); [by destruct Hd|]. subst vals. simpl. lia.
  - destruct Hh as (o' & Ho' & Hsz' & Hcap' & Hd'). rewrite Ho in Ho'.
    injection Ho' as <-. exists o. simpl. rewrite lookup_insert_ne by done.
    split; [done|]. split; [done|]. split; [done|].
    destruct (_data o) as [p|] eqn:Hp; [|done].
    by rewrite Hkeep.
  - unfold view. simpl. rewrite lookup_insert_ne by done. rewrite Ho.
    destruct (_data o) as [p|] eqn:Hp; [|done]. by rewrite Hkeep.
Qed.

(** X2. The copy constructor, for a new object, a well-formed source and
    an allocator that serves the request: it returns; the copy holds the
    values of the source, with the source's capacity, in a block of its
    own that did not exist before; the source still holds its values and
    its members and buffer are untouched; the trace gained one request for
    the source's capacity and one construction per element. *)
Theorem copy_constructor_spec this other vals cap w :
  w_objs w !! this = None → holds w other vals cap →
  heap_fresh w → next_alloc_ok w →
  ∃ w' v', ctor_copy this other w = Ok tt w' ∧
        holds w' this vals cap ∧ holds w' other vals cap ∧
        view w' other = view w other ∧
        w_objs w' !! this = Some v' ∧ _data v' = Some (w_next w) ∧
        w_heap w !! w_next w = None ∧
        w_trace w' = w_trace w ++ EvAllocate cap (w_next w) ::
                       (EvConstruct (w_next w) <$> seq 0 (length vals)).
Proof.
  intros Hnew Hh Hf Hok.
  destruct (holds_lookup _ _ _ _ Hh) as [o Ho].
  destruct (holds_source_data _ _ _ _ _ Hh Ho) as (Hsz & Hcap & Hd).
  assert (this ≠ other) as Hne by congruence.
  subst cap.
  destruct (copied_holds this other o vals w Hne Hf Ho Hh) as (H1 & H2 & H3).
  exists (copied this o vals w), (mk_vector (Some (w_next w)) (_size o) (_capacity o)).
  split.
  { by apply ctor_copy_run. }
  repeat (split; [done|]). simpl. rewrite lookup_insert_eq.
  split; [done|]. split; [done|]. split; [by apply heap_fresh_next|done].
Qed.

(** X3. Copy assignment between two different vectors, with a well-formed
    source and an allocator that serves the request: it returns; the
    destination holds the values and the capacity of the source in a
    block that did not exist before; the source is untouched. *)
Theorem copy_assignment_spec this other t vals cap w :
  this ≠ other → w_objs w !! this = Some t → holds w other vals cap →
  heap_fresh w → next_alloc_ok w →
  ∃ w' v', assign_copy this other w = Ok tt w' ∧
        holds w' this vals cap ∧ holds w' other vals cap ∧
        view w' other = view w other ∧
        w_objs w' !! this = Some v' ∧ _data v' = Some (w_next w) ∧
        w_heap w !! w_next w = None.
Proof.
  intros Hne Ht Hh Hf Hok.
  destruct (holds_lookup _ _ _ _ Hh) as [o Ho].
  destruct (holds_source_data _ _ _ _ _ Hh Ho) as (Hsz & Hcap & Hd).
  subst cap.
  destruct (copied_holds this other o vals w Hne Hf Ho Hh) as (H1 & H2 & H3).
  exists (copied this o vals w), (mk_vector (Some (w_next w)) (_size o) (_capacity o)).
  split.
  { by apply (assign_copy_run this other t). }
  repeat (split; [done|]). simpl. rewrite lookup_insert_eq.
  split; [done|]. split; [done|]. by apply heap_fresh_next.
Qed.

(** X4. The destructor of a well-formed vector returns, ends the object,
    destroys each of its [size()] elements once, in index order, and then
    hands the block back with the capacity recorded in the object; a
    vector with a null [_data] destroys and releases nothing.  No other
    object and no other block is touched. *)
Theorem destructor_spec this v vals w :
  w_objs w !! this = Some v → holds w this vals (_capacity v) →
  ∃ w', dtor this w = Ok tt w' ∧
        w_objs w' = delete this (w_objs w) ∧
        w_heap w' = match _data v with
                    | Some p => delete p (w_heap w)
                    | None => w_heap w
                    end ∧
        w_next w' = w_next w ∧ w_plan w' = w_plan w ∧
        w_trace w' = w_trace w ++ destroy_events (_data v) 0 (_size v) ++
                       deallocate_events (_data v) (_capacity v).
Proof.
  intros Hv Hh.
  destruct (holds_source_data _ _ _ _ _ Hh Hv) as (Hsz & _ & Hd).
  destruct (_data v) as [p|] eqn:Hp.
  - destruct Hd as [Hb Hle]. eexists. split.
    { by apply (dtor_run this v p vals). }
    simpl. by rewrite Hsz.
  - eexists. split; [by apply (dtor_null this v)|]. simpl.
    by rewrite app_nil_r.
Qed.

(** X5. Constructing a vector of [s] elements and destroying it again
    gives back the objects and the heap of the start: the block obtained
    by the constructor is released by the destructor with the same
    size, and each of the [s] elements constructed is destroyed. *)
Theorem sized_construct_destroy_round_trip this s w :
  w_objs w !! this = None → heap_fresh w → next_alloc_ok w →
  ∃ w', (ctor_sized this s ;; dtor this) w = Ok tt w' ∧
        w_objs w' = w_objs w ∧ w_heap w' = w_heap w ∧
        w_trace w' = w_trace w ++
          [EvAllocate s (w_next w)] ++
          (EvConstruct (w_next w) <$> seq 0 s) ++
          (EvDestroy (w_next w) <$> seq 0 s) ++
          [EvDeallocate (w_next w) s].
Proof.
  intros Hnew Hf Hok. eexists. split.
  { erewrite bind_run by by apply ctor_sized_run.
    eapply (dtor_run this _ (w_next w) (replicate s T_default)); simpl.
    - apply lookup_insert_eq.
    - done.
    - by rewrite length_replicate.
    - rewrite lookup_insert_eq. f_equal. unfold block_of.
      rewrite length_replicate, Nat.sub_diag, fmap_replicate. simpl.
      by rewrite app_nil_r.
    - by rewrite length_replicate. }
  simpl. rewrite length_replicate.
  split; [|split].
  - rewrite delete_insert_eq. by apply delete_id.
  - rewrite delete_insert_eq. apply delete_id. by apply heap_fresh_next.
  - rewrite <- !app_assoc. done.
Qed.

(** X6. Copying a vector and destroying the copy gives back the objects
    and the heap of the start; the source holds its values throughout. *)
Theorem copy_destroy_round_trip this other vals cap w :
  w_objs w !! this = None → holds w other vals cap →
  heap_fresh w → next_alloc_ok w →
  ∃ w', (ctor_copy this other ;; dtor this) w = Ok tt w' ∧
        w_objs w' = w_objs w ∧ w_heap w' = w_heap w ∧
        holds w' other vals cap ∧
        w_trace w' = w_trace w ++
          [EvAllocate cap (w_next w)] ++
          (EvConstruct (w_next w) <$> seq 0 (length vals)) ++
          (EvDestroy (w_next w) <$> seq 0 (length vals)) ++
          [EvDeallocate (w_next w) cap].
Proof.
  intros Hnew Hh Hf Hok.
  destruct (holds_lookup _ _ _ _ Hh) as [o Ho].
  destruct (holds_source_data _ _ _ _ _ Hh Ho) as (Hsz & Hcap & Hd).
  assert (length vals ≤ cap) as Hle.
  { rewrite <- Hcap. destruct (_data o); [by destruct Hd|]. subst vals. simpl. lia. }
  assert (w_heap w !! w_next w = None) as Hq by by apply heap_fresh_next.
  eexists. split.
  { erewrite bind_run by by apply (ctor_copy_run this other o vals).
    eapply (dtor_run this _ (w_next w) vals).
    - apply lookup_insert_eq.
    - done.
    - done.
    - simpl. by rewrite lookup_insert_eq.
    - simpl. lia. }
  simpl. rewrite !delete_insert_eq, !delete_id by done.
  split; [done|]. split; [done|]. split.
  - destruct Hh as (o' & Ho' & Hh'). exists o'. done.
  - rewrite Hcap, <- !app_assoc. done.
Qed.

Lemma noexcept_run {A} (m : M T A) w a w' : m w = Ok a w' → noexcept m w = Ok a w'.
Proof. by apply noexcept_Ok. Qed.

(** The move constructor, run forward. *)
Lemma ctor_move_run this other o w :
  w_objs w !! this = None → w_objs w !! other = Some o → next_alloc_ok w →
  ctor_move this other w = Ok tt (moved this other o w).
Proof.
  intros Hnew Ho Hok. assert (this ≠ other) as Hne by congruence.
  unfold ctor_move. apply noexcept_run. mrun.
  apply construct_obj_run; [done|].
  do 3 mrun. simpl.
  erewrite (bind_run (get_obj _)); cycle 1.
  { apply get_obj_run. simpl. by rewrite !lookup_insert_ne. }
  mrun. simpl.
  erewrite (bind_run (set_data _ _)); cycle 1.
  { eapply set_data_run. simpl. by rewrite !lookup_insert_ne. }
  simpl. erewrite set_size_run by (simpl; apply lookup_insert_eq).
  f_equal. apply world_eq; simpl; try done.
  by rewrite !insert_insert_eq.
Qed.

(** Move assignment between two different vectors, run forward. *)
Lemma assign_move_run this other t o w :
  this ≠ other → w_objs w !! this = Some t → w_objs w !! other = Some o →
  next_alloc_ok w →
  assign_move this other w = Ok tt (moved this other o w).
Proof.
  intros Hne Ht Ho Hok.
  unfold assign_move, size. apply noexcept_run.
  rewrite bind_assoc. mrun. mrun. mrun.
  erewrite (bind_run (get_obj _)); cycle 1.
  { apply get_obj_run. simpl. by rewrite !lookup_insert_ne. }
  do 4 mrun. simpl.
  erewrite (bind_run (get_obj _)); cycle 1.
  { apply get_obj_run. simpl. by rewrite !lookup_insert_ne. }
  mrun. simpl.
  erewrite (bind_run (set_data _ _)); cycle 1.
  { eapply set_data_run. simpl. by rewrite !lookup_insert_ne. }
  simpl. erewrite set_size_run by (simpl; apply lookup_insert_eq).
  f_equal. apply world_eq; simpl; try done.
  by rewrite !insert_insert_eq.
Qed.

(** After a move, the destination holds what the source held, in the
    source's block. *)
Lemma moved_holds this other o vals w :
  this ≠ other → heap_fresh w → w_objs w !! other = Some o →
  holds w other vals (_capacity o) →
  holds (moved this other o w) this vals (_capacity o) ∧
  view (moved this other o w) this =
    Some (mk_vector (_data o) (_size o) (_capacity o),
          match _data o with Some p => w_heap w !! p | None => None end).
Proof.
  intros Hne Hf Ho Hh.
  destruct (holds_source_data _ _ _ _ _ Hh Ho) as (Hsz & _ & Hd).
  assert (w_heap w !! w_next w = None) as Hq by by apply heap_fresh_next.
  assert (∀ p, _data o = Some p →
               <[w_next w := replicate (_capacity o) None]> (w_heap w) !! p
               = w_heap w !! p) as Hkeep.
  { intros p Hp. rewrite Hp in Hd. destruct Hd as [Hb _].
    rewrite lookup_insert_ne; [done|congruence]. }
  split.
  - destruct Hh as (o' & Ho' & Hsz' & Hcap' & Hd'). rewrite Ho in Ho'.
    injection Ho' as <-.
    eexists. simpl. rewrite lookup_insert_ne, lookup_insert_eq by done.
    split; [done|]. simpl. split; [done|]. split; [done|].
    destruct (_data o) as [p|] eqn:Hp; [|done]. by rewrite Hkeep.
  - unfold view. simpl. rewrite lookup_insert_ne, lookup_insert_eq by done.
    simpl. destruct (_data o) as [p|] eqn:Hp; [|done]. by rewrite Hkeep.
Qed.

(** X7. The move constructor, for a new object, a well-formed source and
    an allocator that serves the request: it returns; the new vector
    holds the values of the source in the very block the source pointed
    to (members and block contents are the source's, bit for bit); no
    element is constructed, moved or destroyed: the only event is the
    request for a block of the source's capacity. *)
Theorem move_constructor_spec this other vals cap w :
  w_objs w !! this = None → holds w other vals cap →
  heap_fresh w → next_alloc_ok w →
  ∃ w', ctor_move this other w = Ok tt w' ∧
        holds w' this vals cap ∧
        view w' this = view w other ∧
        w_trace w' = w_trace w ++ [EvAllocate cap (w_next w)].
Proof.
  intros Hnew Hh Hf Hok.
  destruct (holds_lookup _ _ _ _ Hh) as [o Ho].
  destruct (holds_source_data _ _ _ _ _ Hh Ho) as (Hsz & Hcap & Hd).
  assert (this ≠ other) as Hne by congruence. subst cap.
  destruct (moved_holds this other o vals w Hne Hf Ho Hh) as [H1 H2].
  exists (moved this other o w). split; [by apply ctor_move_run|].
  split; [done|]. split; [|done].
  rewrite H2. unfold view. rewrite Ho. by destruct o.
Qed.

(** X8. Move assignment between two different vectors, with a
    well-formed source and an allocator that serves the request: it
    returns and the destination holds the values of the source in the
    very block the source pointed to; no element is constructed, moved or
    destroyed, in particular none of the elements the destination had. *)
Theorem move_assignment_spec this other t vals cap w :
  this ≠ other → w_objs w !! this = Some t → holds w other vals cap →
  heap_fresh w → next_alloc_ok w →
  ∃ w', assign_move this other w = Ok tt w' ∧
        holds w' this vals cap ∧
        view w' this = view w other ∧
        w_trace w' = w_trace w ++ [EvAllocate cap (w_next w)].
Proof.
  intros Hne Ht Hh Hf Hok.
  destruct (holds_lookup _ _ _ _ Hh) as [o Ho].
  destruct (holds_source_data _ _ _ _ _ Hh Ho) as (Hsz & Hcap & Hd).
  subst cap.
  destruct (moved_holds this other o vals w Hne Hf Ho Hh) as [H1 H2].
  exists (moved this other o w). split; [by apply (assign_move_run this other t)|].
  split; [done|]. split; [|done].
  rewrite H2. unfold view. rewrite Ho. by destruct o.
Qed.

Lemma bind_throw {A B} (m : M T A) (k : A → M T B) w w' :
  m w = Throw w' → bind m k w = Throw w'.
Proof. unfold bind. by intros ->. Qed.

Lemma allocate_fail n w :
  head (w_plan w) = Some false → allocate n w = Throw (alloc_failed w).
Proof.
  unfold allocate, alloc_failed. destruct (w_plan w) as [|[] l]; simpl; try done.
Qed.

Lemma noexcept_terminate {A} (m : M T A) w w' :
  m w = Throw w' → noexcept m w = Terminate.
Proof. unfold noexcept. by intros ->. Qed.

(** X9. Both move operations are [noexcept] and yet ask the allocator for
    a block: when the allocator refuses that request, the exception
    cannot leave the function and the program is terminated. *)
Theorem move_allocation_failure_terminates this other o w :
  w_objs w !! other = Some o → head (w_plan w) = Some false →
  (w_objs w !! this = None → ctor_move this other w = Terminate) ∧
  (is_Some (w_objs w !! this) → assign_move this other w = Terminate).
Proof.
  intros Ho Hfail. split.
  - intros Hnew. unfold ctor_move.
    eapply (noexcept_terminate _ _ (with_objs (delete this) (alloc_failed _))).
    mrun. unfold construct_obj. rewrite Hnew.
    mrun. by erewrite bind_throw by by apply allocate_fail.
  - intros [t Ht]. unfold assign_move, size.
    destruct (decide (this = other)) as [->|Hne]; eapply noexcept_terminate;
      rewrite bind_assoc; do 3 mrun.
    + do 3 mrun. by erewrite bind_throw by by apply allocate_fail.
    + erewrite (bind_run (get_obj _)); cycle 1.
      { apply get_obj_run. simpl. by rewrite lookup_insert_ne. }
      do 2 mrun. by erewrite bind_throw by by apply allocate_fail.
Qed.

(** Reading the argument of [emplace_back] returns a value or is
    undefined. *)
Lemma read_arg_outcome (a : arg T) w :
  (∃ x w', read_arg a w = Ok x w') ∨ read_arg a w = Undefined.
Proof.
  destruct a as [x|p|p]; simpl.
  - left. by exists x, w.
  - unfold read_slot. destruct (slot_at _ _ _) as [[x|]|]; eauto.
  - unfold move_slot. destruct (ptr_block p); [|by right].
    destruct (slot_at _ _ _) as [[x|]|]; eauto.
Qed.

(** Constructing through a null pointer is undefined, whatever the
    argument. *)
Lemma construct_null_undefined {B} (a : arg T) i (k : M T B) w :
  (do x <- read_arg a; construct_at None i x ;; k) w = Undefined.
Proof.
  destruct (read_arg_outcome a w) as [(x & w' & Hr)|Hr].
  - by erewrite bind_run by done.
  - by apply bind_undefined.
Qed.

(** X10. A moved-from vector keeps its capacity field while its data
    pointer is null.  If that capacity is not 0, [emplace_back] on the
    moved-from vector, whatever its argument, sees room left, skips
    [reserve] and constructs through the null pointer, and [resize] to
    any size from 1 up to that capacity does the same: both are undefined
    behaviour. *)
Theorem moved_from_append_undefined this other o (a : arg T) w :
  w_objs w !! this = None → w_objs w !! other = Some o →
  _capacity o ≠ 0 → next_alloc_ok w →
  (ctor_move this other ;; emplace_back other a) w = Undefined ∧
  (∀ n, 0 < n ≤ _capacity o →
        (ctor_move this other ;; resize other n) w = Undefined).
Proof.
  intros Hnew Ho Hcap Hok. split.
  - erewrite bind_run by by apply ctor_move_run.
    unfold emplace_back. mrun. cbn [_size _capacity _data].
    rewrite (proj2 (Nat.eqb_neq 0 _)) by lia. do 2 mrun.
    cbn [_size _capacity _data].
    rewrite (proj2 (Nat.eqb_neq _ 0)) by lia. do 2 mrun.
    apply construct_null_undefined.
  - intros n Hn. erewrite bind_run by by apply ctor_move_run.
    unfold resize. rewrite resize_fuel_unfold. mrun.
    cbn [_size _capacity _data].
    rewrite (proj2 (Nat.ltb_lt 0 n)) by lia.
    rewrite (proj2 (Nat.ltb_ge _ _)) by lia.
    rewrite !bind_assoc. mrun. rewrite !bind_assoc. mrun. cbn [_size _capacity _data].
    destruct n as [|n]; [lia|]. cbn [for_range Nat.sub].
    rewrite !bind_assoc. mrun. done.
Qed.

(** X11. [reserve(n)] with [n] below the size of a vector that has spare
    capacity overwrites the capacity field with the size while the block
    keeps its length; the destructor then hands the block back with a
    size that is not the one it was allocated with, which is undefined
    behaviour. *)
Theorem reserve_below_size_then_destroy_undefined this vals cap n w :
  holds w this vals cap → n < length vals → length vals < cap →
  (reserve this n ;; dtor this) w = Undefined.
Proof.
  intros Hh Hn Hlt. pose proof Hh as (v & Hv & Hsz & Hcap & Hd).
  destruct (holds_data_nonzero _ _ _ _ _ Hh Hv) as (p & Hp & Hb); [lia|].
  erewrite bind_run; cycle 1.
  { apply (reserve_no_growth this v); [done|lia]. }
  rewrite (proj2 (Nat.ltb_lt _ _)) by lia.
  unfold dtor. mrun. simpl. rewrite Hp, Hsz. rewrite !bind_assoc.
  erewrite bind_run; cycle 1.
  { eapply (destroy_loop p vals 0 []); [|done]. simpl. apply Hb. }
  rewrite !bind_assoc. mrun.
  do 2 (apply bind_undefined). unfold deallocate. simpl.
  rewrite lookup_insert_eq. simpl.
  rewrite length_app, !length_replicate.
  rewrite (proj2 (Nat.eqb_neq _ _)); [done|]. lia.
Qed.

(** ** Element access *)

Lemma block_lookup_live (vals : list T) cap i x :
  vals !! i = Some x → block_of vals cap !! i = Some (Some x).
Proof.
  intros Hi. unfold block_of. rewrite lookup_app_l.
  - by rewrite list_lookup_fmap, Hi.
  - rewrite length_fmap. by eapply lookup_lt_Some.
Qed.

Lemma block_lookup_dead (vals : list T) cap i :
  length vals ≤ i →
  block_of vals cap !! i = None ∨ block_of vals cap !! i = Some None.
Proof.
  intros Hi. unfold block_of. rewrite lookup_app_r by by rewrite length_fmap.
  destruct (replicate _ _ !! _) as [s|] eqn:E; [|by left].
  apply lookup_replicate in E as [-> _]. by right.
Qed.

Lemma block_insert (vals : list T) cap i x :
  i < length vals →
  <[i := Some x]> (block_of vals cap) = block_of (<[i := x]> vals) cap.
Proof.
  intros Hi. unfold block_of.
  rewrite insert_app_l by by rewrite length_fmap.
  by rewrite list_fmap_insert, length_insert.
Qed.

Lemma holds_owner w this vals cap :
  holds w this vals cap → 0 < length vals →
  ∃ v p, w_objs w !! this = Some v ∧ _data v = Some p ∧ _size v = length vals ∧
         _capacity v = cap ∧ w_heap w !! p = Some (block_of vals cap) ∧
         length vals ≤ cap.
Proof.
  intros (v & Hv & Hsz & Hcap & Hd) Hpos.
  destruct (_data v) as [p|] eqn:Hp.
  - destruct Hd. eauto 10.
  - destruct Hd as [-> _]. simpl in Hpos. lia.
Qed.

(** X12. On a well-formed vector, assigning through [operator[]] at an
    index below the size returns and changes that one element: reading the index back gives
    the value written, every other index reads as before, and the members
    of the vector and the trace are as they were (nothing is allocated,
    constructed or destroyed). *)
Theorem index_write_read_round_trip this vals cap i x w :
  holds w this vals cap → i < length vals →
  ∃ w', index_write this i x w = Ok tt w' ∧
        holds w' this (<[i := x]> vals) cap ∧
        index_read this i w' = Ok x w' ∧
        (∀ j y, j ≠ i → vals !! j = Some y → index_read this j w' = Ok y w') ∧
        w_objs w' = w_objs w ∧ w_trace w' = w_trace w.
Proof.
  intros Hh Hi.
  destruct (holds_owner _ _ _ _ Hh) as (v & p & Hv & Hp & Hsz & Hcap & Hb & Hle);
    [lia|].
  destruct (lookup_lt_is_Some_2 vals i Hi) as [y Hy].
  assert (holds (with_heap <[p := block_of (<[i := x]> vals) cap]> w)
            this (<[i := x]> vals) cap) as Hh'.
  { exists v. simpl. rewrite Hp, length_insert, lookup_insert_eq. done. }
  eexists. split.
  { unfold index_write. mrun. rewrite Hp. unfold assign_slot.
    rewrite (slot_at_run p _ i (Some y)) by (done || by apply block_lookup_live).
    rewrite (store_slot_insert p i _ _ w Hb), block_insert by done. done. }
  split; [done|]. split; [|split; [|done]].
  - eapply holds_index_read; [done|]. by apply list_lookup_insert_eq.
  - intros j z Hj Hz. eapply holds_index_read; [done|].
    by rewrite list_lookup_insert_ne.
Qed.

(** X13. [operator[]] does not check its index: at an index that is not
    below the size, reading and assigning are undefined behaviour (the slot
    holds no element, or lies outside the buffer, or the buffer is
    null). *)
Theorem index_out_of_range_undefined this vals cap i x w :
  holds w this vals cap → length vals ≤ i →
  index_read this i w = Undefined ∧ index_write this i x w = Undefined.
Proof.
  intros (v & Hv & Hsz & Hcap & Hd) Hi.
  unfold index_read, index_write. do 2 mrun.
  unfold read_slot, assign_slot, slot_at.
  destruct (_data v) as [p|]; [|done].
  destruct Hd as [-> _].
  by destruct (block_lookup_dead vals cap i Hi) as [-> | ->].
Qed.

(** X14. [begin()] and [end()] delimit the elements: [end()] is [begin()]
    advanced by the size, the pointer [begin() + i] reads what
    [operator[]] reads at [i], which for [i] below the size is the
    element of index [i], and [end()] itself cannot be read. *)
Theorem begin_end_delimit_elements this vals cap w :
  holds w this vals cap →
  ∃ b e, begin this w = Ok b w ∧ end_ this w = Ok e w ∧
         e = advance b (length vals) ∧
         (∀ i, deref (advance b i) w = index_read this i w) ∧
         (∀ i y, vals !! i = Some y → deref (advance b i) w = Ok y w) ∧
         deref e w = Undefined.
Proof.
  intros Hh. pose proof Hh as (v & Hv & Hsz & Hcap & Hd).
  exists (mk_pointer (_data v) 0), (mk_pointer (_data v) (_size v)).
  assert (∀ i, deref (advance (mk_pointer (_data v) 0) i) w = index_read this i w)
    as Hread.
  { intros i. unfold index_read, deref, advance. by mrun. }
  split; [unfold begin; by mrun|]. split; [unfold end_; by mrun|].
  split; [by rewrite Hsz|]. split; [done|]. split.
  - intros i y Hy. rewrite Hread. by eapply holds_index_read.
  - unfold deref. simpl. rewrite Hsz. unfold read_slot, slot_at.
    destruct (_data v) as [p|]; [|done]. destruct Hd as [-> _].
    by destruct (block_lookup_dead vals cap (length vals) (le_n _)) as [-> | ->].
Qed.

(** [emplace_back] when the size is below the capacity: the state it
    ends in. *)
Lemma emplace_back_with_room this v vals cap (a : arg T) x w :
  w_objs w !! this = Some v → holds w this vals cap → length vals < cap →
  read_arg a w = Ok x w →
  ∃ w', emplace_back this a w = Ok tt w' ∧
        holds w' this (vals ++ [x]) cap ∧
        w_objs w' = <[this := mk_vector (_data v) (_size v + 1) (_capacity v)]> (w_objs w) ∧
        w_trace w' = w_trace w ++ construct_events (_data v) (length vals) 1 ∧
        w_plan w' = w_plan w ∧ w_next w' = w_next w ∧
        dom (w_heap w') = dom (w_heap w).
Proof.
  intros Hv Hh Hlt Hread.
  destruct (holds_data_nonzero _ _ _ _ _ Hh Hv) as (p & Hp & Hb); [lia|].
  destruct (holds_source_data _ _ _ _ _ Hh Hv) as (Hsz & Hcap & _).
  assert (block_of vals cap =
          (Some <$> vals) ++ None :: replicate (cap - length vals - 1) None) as Hblock.
  { unfold block_of. f_equal. rewrite <- replicate_S. f_equal. lia. }
  eexists. split; [|split].
  - unfold emplace_back. mrun.
    rewrite (proj2 (Nat.eqb_neq (_size v) _)) by lia. do 2 mrun.
    rewrite (proj2 (Nat.eqb_neq (_capacity v) 0)) by lia. do 2 mrun.
    rewrite Hp, Hsz.
    erewrite (bind_run (read_arg _)) by done.
    erewrite bind_run; cycle 1.
    { eapply construct_at_run; [done|]. rewrite Hblock.
      apply list_lookup_middle. by rewrite length_fmap. }
    mrun. by erewrite set_size_run by done.
  - eexists. simpl. rewrite lookup_insert_eq. split; [done|]. simpl.
    rewrite Hp, Hsz, length_app. simpl.
    split; [done|]. split; [done|]. split; [|lia].
    rewrite lookup_insert_eq. f_equal. rewrite Hblock.
    rewrite insert_middle by by rewrite length_fmap.
    unfold block_of. rewrite fmap_app, length_app, <- app_assoc. simpl.
    do 3 f_equal. lia.
  - simpl. rewrite Hp, Hsz. split; [done|]. split; [done|].
    split; [done|]. split; [done|].
    rewrite dom_insert_L. apply elem_of_dom_2 in Hb. set_solver.
Qed.

(** X15. [emplace_back] on a vector with room left (size below capacity)
    does not call the allocator, whatever the allocator would answer: the
    element is constructed in the first free slot of the block the vector
    has, the members change by [_size + 1] only, and the single event is
    that construction.  The argument is a value, or a reference to a slot
    that holds a live element, of this vector or of another, which is
    copied. *)
Theorem emplace_back_with_room_in_place this v vals cap (a : arg T) x w :
  w_objs w !! this = Some v → holds w this vals cap → length vals < cap →
  read_arg a w = Ok x w →
  ∃ w', emplace_back this a w = Ok tt w' ∧
        holds w' this (vals ++ [x]) cap ∧
        w_objs w' = <[this := mk_vector (_data v) (_size v + 1) (_capacity v)]> (w_objs w) ∧
        w_trace w' = w_trace w ++ construct_events (_data v) (length vals) 1 ∧
        w_plan w' = w_plan w ∧ w_next w' = w_next w ∧
        dom (w_heap w') = dom (w_heap w).
Proof. apply emplace_back_with_room. Qed.

(** X16. [reserve(n)] with [n] above the capacity of a well-formed
    vector, when the allocator serves the request: it returns, the vector
    holds the same values, in the same order, in a new block of [n]
    slots; the old block is no longer allocated; the trace gained the
    request, one construction per element in the new block, one
    destruction per element in the old block and the release of the old
    block with the old capacity. *)
Theorem reserve_grows_and_keeps_elements this v vals n w :
  w_objs w !! this = Some v → holds w this vals (_capacity v) →
  _capacity v < n → heap_fresh w → next_alloc_ok w →
  ∃ w', reserve this n w = Ok tt w' ∧
        holds w' this vals n ∧ heap_fresh w' ∧
        w_objs w' = <[this := mk_vector (Some (w_next w)) (_size v) n]> (w_objs w) ∧
        match _data v with
        | Some p => w_heap w' !! p = None
        | None => True
        end ∧
        w_trace w' = w_trace w ++ relocate_events v n (w_next w).
Proof.
  intros Hv Hh Hlt Hf Hok.
  destruct (holds_source_data _ _ _ _ _ Hh Hv) as (Hsz & _ & Hd).
  assert (length vals ≤ _capacity v) as Hle.
  { destruct (_data v); [by destruct Hd|]. subst vals. simpl. lia. }
  exists (relocated this v vals n w). split.
  { by apply reserve_grow. }
  split; [apply relocated_holds; [done|lia]|].
  split; [by apply relocated_fresh|]. split; [done|]. split; [|done].
  simpl. destruct (_data v) as [p|] eqn:Hp; [|done].
  destruct Hd as [Hb _].
  assert (w_heap w !! w_next w = None) as Hq by by apply heap_fresh_next.
  rewrite lookup_insert_ne by congruence. by rewrite lookup_delete_eq.
Qed.

(** X17. With an element type whose constructors do not throw, the
    only operations that can throw are the sized constructor, the copy
    constructor, [reserve], [resize], [emplace_back] and copy
    assignment.  When one of the first five throws, it gives the strong
    guarantee: objects, heap and trace are exactly those of the state
    before the call, only the refused request is consumed from the
    allocator's plan. *)
Theorem strong_exception_guarantee o w w' :
  match o with OpAssignCopy _ _ => False | _ => True end →
  exec o w = Throw w' →
  w' = alloc_failed w ∧
  match o with
  | OpSized _ _ | OpCopy _ _ | OpReserve _ _ | OpResize _ _ | OpEmplaceBack _ _ => True
  | _ => False
  end.
Proof.
  intros Hop Hrun. destruct o; simpl in Hrun; try done.
  - unfold ctor_default in Hrun.
    apply construct_obj_Throw in Hrun as (_ & w1 & H & _). done.
  - by apply ctor_sized_Throw in Hrun as ->.
  - by apply ctor_copy_Throw in Hrun as ->.
  - by apply noexcept_Throw in Hrun.
  - by apply noexcept_Throw in Hrun.
  - by apply reserve_Throw in Hrun as [-> _].
  - by apply resize_Throw in Hrun as ->.
  - by apply emplace_back_Throw in Hrun as ->.
  - by apply index_write_Throw in Hrun.
  - by apply dtor_Throw in Hrun.
Qed.

(** ** What an operation leaves alone *)

Lemma frame_refl who tmp w : frame who tmp w w.
Proof. unfold frame. split; [lia|]. split; [done|]. split; [done|]. eauto. Qed.

Lemma frame_trans who tmp tmp' w1 w2 w3 :
  frame who tmp w1 w2 → frame who tmp' w2 w3 →
  (∀ p, p ∈ tmp' → p ∈ tmp ∨ (w_next w1 ≤ p)%positive) →
  frame who tmp w1 w3.
Proof.
  intros (Hn1 & Ho1 & Hh1 & Hd1) (Hn2 & Ho2 & Hh2 & Hd2) Htmp.
  split; [lia|]. split; [|split].
  - intros j Hj. by rewrite Ho2, Ho1.
  - intros p Hp Hnt Hno. rewrite Hh2, Hh1; try done.
    + lia.
    + intros Hin. destruct (Htmp p Hin); [done|lia].
    + intros Hown. destruct (Hd1 p Hown) as [?|[?|?]]; [done|done|lia].
  - intros p Hown. destruct (Hd2 p Hown) as [Hown'|[Hin|Hge]].
    + by apply Hd1.
    + destruct (Htmp p Hin); eauto.
    + right. right. lia.
Qed.

(** A step that changes neither the objects nor, except at the block [a]
    it may write to, the heap. *)
Lemma frame_block who tmp a w w' :
  w_objs w' = w_objs w → w_next w' = w_next w →
  (∀ p, p ≠ a → w_heap w' !! p = w_heap w !! p) →
  permitted who tmp w (Some a) →
  frame who tmp w w'.
Proof.
  intros Ho Hn Hh Hp. split; [lia|]. split; [by rewrite Ho|]. split.
  - intros p _ Hnt Hno. apply Hh. intros ->.
    destruct (Hp a eq_refl); done.
  - intros p (j & v & Hj & Hv & Hd). left. exists j, v. by rewrite <- Ho.
Qed.

(** A step that changes nothing but the allocator's plan and the trace. *)
Lemma frame_same who tmp w w' :
  w_objs w' = w_objs w → w_next w' = w_next w → w_heap w' = w_heap w →
  frame who tmp w w'.
Proof.
  intros Ho Hn Hh. split; [lia|]. split; [by rewrite Ho|]. split.
  - intros. by rewrite Hh.
  - intros p (j & v & Hj & Hv & Hd). left. exists j, v. by rewrite <- Ho.
Qed.

(** Writing the members of one of the vectors [who]. *)
Lemma frame_put who tmp this v' w :
  this ∈ who → permitted who tmp w (_data v') →
  frame who tmp w (with_objs <[this := v']> w).
Proof.
  intros Hin Hp. split; [simpl; lia|]. split; [|split].
  - intros j Hj. simpl. rewrite lookup_insert_ne; [done|]. by intros <-.
  - done.
  - intros p (j & v & Hj & Hv & Hd). simpl in Hv.
    destruct (decide (this = j)) as [<-|Hne].
    + rewrite lookup_insert_eq in Hv. injection Hv as <-.
      destruct (Hp p Hd); eauto.
    + rewrite lookup_insert_ne in Hv by done. left. by exists j, v.
Qed.

Lemma frame_delete who tmp this w :
  this ∈ who → frame who tmp w (with_objs (delete this) w).
Proof.
  intros Hin. split; [simpl; lia|]. split; [|split].
  - intros j Hj. simpl. rewrite lookup_delete_ne; [done|]. by intros <-.
  - done.
  - intros p (j & v & Hj & Hv & Hd). simpl in Hv. left. exists j, v.
    split; [done|]. split; [|done].
    destruct (decide (this = j)) as [<-|Hne].
    + by rewrite lookup_delete_eq in Hv.
    + by rewrite lookup_delete_ne in Hv.
Qed.

Lemma permitted_own who tmp this t w :
  this ∈ who → w_objs w !! this = Some t → permitted who tmp w (_data t).
Proof. intros Hin Ht p Hp. left. by exists this, t. Qed.

Lemma permitted_tmp who tmp q w : q ∈ tmp → permitted who tmp w (Some q).
Proof. intros Hq p [= <-]. by right. Qed.

Lemma permitted_null who tmp w : permitted who tmp w None.
Proof. by intros p. Qed.

Lemma framed_ret {A} who tmp (a : A) w : framed who tmp (ret a : M T A) w.
Proof. apply frame_refl. Qed.

Lemma framed_bind {A B} who tmp (m : M T A) (k : A → M T B) w :
  framed who tmp m w →
  (∀ a w1, m w = Ok a w1 → framed who tmp (k a) w1) →
  framed who tmp (bind m k) w.
Proof.
  unfold framed, bind. intros Hm Hk. destruct (m w) as [a w1| | | |]; try done.
  specialize (Hk a w1 eq_refl). destruct (k a w1); try done.
  - eapply frame_trans; eauto.
  - eapply frame_trans; eauto.
Qed.

Lemma framed_for_range who tmp (body : nat → M T unit) count : ∀ lo w,
  (∀ i w1, framed who tmp (body i) w1) →
  framed who tmp (for_range lo count body) w.
Proof.
  induction count as [|n IH]; intros lo w Hb; simpl.
  - apply framed_ret.
  - apply framed_bind; [done|]. intros _ w1 _. by apply IH.
Qed.

(** Reading the members: what follows runs in the same state and knows
    the members read. *)
Lemma framed_get_obj {B} who tmp this (k : vector_t → M T B) w :
  (∀ t, w_objs w !! this = Some t → framed who tmp (k t) w) →
  framed who tmp (do t <- get_obj this; k t) w.
Proof.
  intros Hk. unfold framed, bind, get_obj.
  destruct (w_objs w !! this) as [t|] eqn:Ht; [|done]. by apply Hk.
Qed.

Lemma framed_put_obj who tmp this v w :
  this ∈ who → permitted who tmp w (_data v) →
  framed who tmp (put_obj this v) w.
Proof. intros. by apply frame_put. Qed.

Lemma framed_set_size who tmp this n w :
  this ∈ who → framed who tmp (set_size this n) w.
Proof.
  intros Hin. apply framed_get_obj. intros t Ht.
  apply framed_put_obj; [done|]. simpl. by eapply permitted_own.
Qed.

Lemma framed_set_capacity who tmp this n w :
  this ∈ who → framed who tmp (set_capacity this n) w.
Proof.
  intros Hin. apply framed_get_obj. intros t Ht.
  apply framed_put_obj; [done|]. simpl. by eapply permitted_own.
Qed.

Lemma framed_set_data who tmp this d w :
  this ∈ who → permitted who tmp w d → framed who tmp (set_data this d) w.
Proof.
  intros Hin Hd. apply framed_get_obj. intros t Ht. by apply framed_put_obj.
Qed.

(** A block obtained from the allocator may be written to by what
    follows. *)
Lemma framed_allocate {B} who tmp n (k : addr → M T B) w :
  (∀ w1, framed who (tmp ∪ {[ w_next w ]}) (k (w_next w)) w1) →
  framed who tmp (do p <- allocate n; k p) w.
Proof.
  intros Hk. unfold framed, bind, allocate.
  assert (∀ plan w',
    match k (w_next w)
            (mk_world (w_objs w) (<[w_next w := replicate n None]> (w_heap w))
               (Pos.succ (w_next w)) plan (w_trace w ++ [EvAllocate n (w_next w)]))
    with Ok _ w2 | Throw w2 => w' = w2 | _ => False end →
    frame who tmp w w') as Hstep.
  { intros plan w' Hw'.
    specialize (Hk (mk_world (w_objs w) (<[w_next w := replicate n None]> (w_heap w))
               (Pos.succ (w_next w)) plan (w_trace w ++ [EvAllocate n (w_next w)]))).
    unfold framed in Hk.
    assert (frame who (tmp ∪ {[w_next w]})
              (mk_world (w_objs w) (<[w_next w := replicate n None]> (w_heap w))
                 (Pos.succ (w_next w)) plan (w_trace w ++ [EvAllocate n (w_next w)]))
              w') as Hf.
    { destruct (k _ _); try done; by subst. }
    eapply (frame_trans who tmp (tmp ∪ {[w_next w]}) w _ w'); [|exact Hf|].
    - split; [simpl; lia|]. split; [done|]. split.
      + intros p Hp _ _. simpl. rewrite lookup_insert_ne; [done|lia].
      + intros p (j & v & Hj & Hv & Hd). left. by exists j, v.
    - intros p [Hp| ->%elem_of_singleton]%elem_of_union; [by left|right; lia]. }
  destruct (w_plan w) as [|[] plan]; simpl.
  - destruct (k _ _) eqn:E; try done; eapply Hstep; by rewrite E.
  - destruct (k _ _) eqn:E; try done; eapply Hstep; by rewrite E.
  - by apply frame_same.
Qed.

Lemma framed_store who tmp a i s evs w :
  permitted who tmp w (Some a) →
  frame who tmp w (log_all evs (store_slot a i s w)).
Proof.
  intros Hp. apply (frame_block who tmp a); try done.
  intros p Hne. simpl. by rewrite lookup_alter_ne.
Qed.

Lemma framed_construct_at who tmp d i v w :
  permitted who tmp w d → framed who tmp (construct_at d i v) w.
Proof.
  intros Hp. unfold framed, construct_at. destruct d as [a|]; [|done].
  destruct (slot_at _ _ _); [|done].
  by apply (framed_store who tmp a i _ [EvConstruct a i]).
Qed.

Lemma framed_destroy_at who tmp d i w :
  permitted who tmp w d → framed who tmp (destroy_at d i) w.
Proof.
  intros Hp. unfold framed, destroy_at. destruct d as [a|]; [|done].
  destruct (slot_at _ _ _) as [[?|]|]; try done.
  by apply (framed_store who tmp a i _ [EvDestroy a i]).
Qed.

Lemma framed_move_slot who tmp d i w :
  permitted who tmp w d → framed who tmp (move_slot d i) w.
Proof.
  intros Hp. unfold framed, move_slot. destruct d as [a|]; [|done].
  destruct (slot_at _ _ _) as [[?|]|]; try done.
  apply (frame_block who tmp a); try done.
  intros p Hne. simpl. by rewrite lookup_alter_ne.
Qed.

Lemma framed_assign_slot who tmp d i x w :
  permitted who tmp w d → framed who tmp (assign_slot d i x) w.
Proof.
  intros Hp. unfold framed, assign_slot. destruct d as [a|]; [|done].
  destruct (slot_at _ _ _) as [[?|]|]; try done.
  apply (frame_block who tmp a); try done.
  intros p Hne. simpl. by rewrite lookup_alter_ne.
Qed.

Lemma framed_read_slot who tmp d i w : framed who tmp (read_slot d i) w.
Proof.
  unfold framed, read_slot. destruct (slot_at _ _ _) as [[?|]|]; try done.
  apply frame_refl.
Qed.

Lemma framed_deallocate who tmp d n w :
  permitted who tmp w d → framed who tmp (deallocate d n) w.
Proof.
  intros Hp. unfold framed, deallocate. destruct d as [a|]; [|apply frame_refl].
  destruct (w_heap w !! a); [|done]. destruct (_ =? _); [|done].
  apply (frame_block who tmp a); try done.
  intros p Hne. simpl. by rewrite lookup_delete_ne.
Qed.

Lemma permitted_objs who tmp w w' d :
  w_objs w' = w_objs w → permitted who tmp w d → permitted who tmp w' d.
Proof.
  intros Ho Hp p Hd. destruct (Hp p Hd) as [(j & v & ? & ? & ?)|?]; [|by right].
  left. exists j, v. by rewrite Ho.
Qed.

Lemma framed_destroy_n who tmp d n : ∀ lo w,
  permitted who tmp w d → framed who tmp (destroy_n d lo n) w.
Proof.
  unfold destroy_n. induction n as [|n IH]; intros lo w Hp; simpl.
  - apply framed_ret.
  - apply framed_bind; [by apply framed_destroy_at|].
    intros [] w1 H1. apply IH.
    apply (quiet_Ok _ _ _ _ (quiet_destroy_at _ _)) in H1 as (Ho & _).
    by eapply permitted_objs.
Qed.

Lemma framed_construct_obj who tmp this init body w :
  this ∈ who → _data init = None →
  (∀ w1, framed who tmp body w1) →
  framed who tmp (construct_obj this init body) w.
Proof.
  intros Hin Hinit Hb. unfold framed, construct_obj.
  destruct (w_objs w !! this); [done|].
  specialize (Hb (with_objs <[this := init]> w)). unfold framed in Hb.
  assert (frame who tmp w (with_objs <[this := init]> w)) as Hput.
  { apply frame_put; [done|]. rewrite Hinit. apply permitted_null. }
  destruct (body _) as [a w'|w'| | |]; try done.
  - eapply frame_trans; eauto.
  - eapply frame_trans; [|apply (frame_delete who tmp this w' Hin)|eauto].
    eapply frame_trans; eauto.
Qed.

Lemma framed_end_obj who tmp this w :
  this ∈ who → framed who tmp (end_obj this) w.
Proof. intros. by apply frame_delete. Qed.

Lemma framed_noexcept {A} who tmp (m : M T A) w :
  framed who tmp m w → framed who tmp (noexcept m) w.
Proof. unfold framed, noexcept. by destruct (m w). Qed.

Ltac solve_permitted :=
  first [ eapply permitted_own; cycle 1; [eassumption|set_solver]
        | apply permitted_tmp; set_solver
        | apply permitted_null ].

Ltac framed_step :=
  first
    [ apply framed_ret
    | apply framed_set_size; set_solver
    | apply framed_set_capacity; set_solver
    | apply framed_set_data; [set_solver|solve_permitted]
    | apply framed_construct_at; solve_permitted
    | apply framed_move_slot; solve_permitted
    | apply framed_assign_slot; solve_permitted
    | apply framed_read_slot
    | apply framed_destroy_n; solve_permitted
    | apply framed_deallocate; solve_permitted
    | apply framed_end_obj; set_solver
    | apply framed_allocate; intros ?
    | apply framed_get_obj; intros ? ?
    | apply framed_for_range; intros ? ?
    | match goal with
      | |- framed _ _ (match ?d with Some _ => _ | None => _ end) _ =>
          let E := fresh in destruct d eqn:E; rewrite <- ?E
      | |- framed _ _ (if ?c then _ else _) _ => destruct c
      end
    | apply framed_bind; [|intros ? ? ?] ].

Lemma framed_reserve_resize who fuel :
  (∀ tmp this n w, this ∈ who → framed who tmp (reserve_fuel fuel this n) w) ∧
  (∀ tmp this n w, this ∈ who → framed who tmp (resize_fuel fuel this n) w).
Proof.
  induction fuel as [|fuel [IHr IHs]]; [by split|].
  split; intros tmp this n w Hin.
  - rewrite reserve_fuel_unfold. framed_step. framed_step.
    + framed_step; [by apply IHs|]. repeat framed_step.
    + repeat framed_step.
  - rewrite resize_fuel_unfold. framed_step. framed_step.
    + framed_step.
      * framed_step; [|repeat framed_step].
        framed_step; [by apply IHr|]. repeat framed_step.
      * repeat framed_step.
    + repeat framed_step.
Qed.

Lemma framed_reserve who tmp this n w :
  this ∈ who → framed who tmp (reserve this n) w.
Proof. apply framed_reserve_resize. Qed.

Lemma framed_resize who tmp this n w :
  this ∈ who → framed who tmp (resize this n) w.
Proof. apply framed_reserve_resize. Qed.

(** Reading the argument of [emplace_back] changes at most a slot of the
    block it is moved from. *)
Lemma framed_read_arg who (a : arg T) w :
  framed who (match a with ByMove p => block_set (ptr_block p) | _ => ∅ end)
    (read_arg a) w.
Proof.
  destruct a as [x|p|p]; simpl.
  - apply framed_ret.
  - apply framed_read_slot.
  - apply framed_move_slot. intros q Hq. right. rewrite Hq. simpl. set_solver.
Qed.

(** Every operation stays within the frame of its targets and of the
    block its argument is moved from. *)
Lemma framed_exec o w : framed (targets o) (moved_from o) (exec o) w.
Proof.
  destruct o; simpl.
  - apply framed_construct_obj; [set_solver|done|]. intros. framed_step.
  - apply framed_construct_obj; [set_solver|done|]. intros. repeat framed_step.
  - unfold ctor_copy. framed_step.
    apply framed_construct_obj; [set_solver|done|]. intros. repeat framed_step.
  - unfold ctor_move. apply framed_noexcept. framed_step.
    apply framed_construct_obj; [set_solver|done|]. intros. repeat framed_step.
  - unfold assign_copy. repeat framed_step.
  - unfold assign_move, size. apply framed_noexcept. repeat framed_step.
  - apply framed_reserve. set_solver.
  - apply framed_resize. set_solver.
  - unfold emplace_back. framed_step. framed_step.
    + framed_step; [apply framed_reserve; set_solver|framed_step].
    + framed_step. framed_step.
      * framed_step; [apply framed_reserve; set_solver|framed_step].
      * framed_step. apply framed_bind; [apply framed_read_arg|].
        intros x w2 (Ho2 & _)%(quiet_Ok _ _ _ _ (quiet_read_arg _)).
        rewrite <- Ho2 in H3. repeat framed_step.
  - unfold index_write. repeat framed_step.
  - unfold dtor. repeat framed_step.
Qed.

(** What a vector outside the frame shows is unchanged. *)
Lemma frame_view who tmp w w' j :
  valid_world w → frame who tmp w w' → j ∉ who →
  (∀ v p, w_objs w !! j = Some v → _data v = Some p → p ∉ tmp) →
  view w' j = view w j.
Proof.
  intros (Hf & Ha & Hu) (Hn & Ho & Hh & _) Hj Htmp. unfold view. rewrite (Ho j Hj).
  destruct (w_objs w !! j) as [v|] eqn:Hv; [|done].
  destruct (_data v) as [p|] eqn:Hp; [|done].
  rewrite Hh; [done| |by eapply Htmp|].
  - apply Hf. apply elem_of_dom. by eapply Ha.
  - intros (i & vi & Hi & Hvi & Hpi).
    assert (i = j) by by eapply (Hu i j). by subst.
Qed.

(** X18. In a program whose blocks are not shared, an operation changes
    nothing that can be observed through a vector it is not applied to:
    the members and every slot of the buffer of any other vector are the
    same after the operation as before, whether it returned or threw.  For
    the copy constructor and copy assignment this includes the source
    (when it is not the destination); for the two moves the source is one
    of the vectors operated on.  The one way to reach into another
    vector is an [emplace_back] whose argument is an rvalue reference to
    one of its elements, which is moved from: the statement is about the
    vectors whose buffer such an argument does not point into (every
    other vector, for all other operations and arguments). *)
Theorem other_vectors_unchanged o w w' j :
  valid_world w → exec o w = Ok tt w' ∨ exec o w = Throw w' →
  j ∉ targets o →
  (∀ v p, w_objs w !! j = Some v → _data v = Some p → p ∉ moved_from o) →
  view w' j = view w j.
Proof.
  intros Hv Hrun Hj Hm. apply (frame_view (targets o) (moved_from o)); try done.
  pose proof (framed_exec o w) as Hf. unfold framed in Hf.
  by destruct Hrun as [H|H]; rewrite H in Hf.
Qed.

(** ** Repeating a request *)

Lemma deallocate_Ok_objs p n w w' :
  deallocate p n w = Ok tt w' → w_objs w' = w_objs w.
Proof.
  unfold deallocate. destruct p as [a|]; [|by intros [= ->]].
  destruct (w_heap w !! a); [|done]. destruct (_ =? _); [|done].
  by intros [= <-].
Qed.

(** The members after a [reserve] that had to grow the buffer. *)
Lemma reserve_Ok_grown this n w w' :
  reserve this n w = Ok tt w' →
  ∃ v, w_objs w !! this = Some v ∧
       (_size v ≤ n → _capacity v < n →
        w_objs w' !! this = Some (mk_vector (Some (w_next w)) (_size v) n)).
Proof.
  unfold reserve. rewrite reserve_fuel_unfold. intros H. minv H.
  exists a. split; [done|]. intros Hge Hcap.
  rewrite (proj2 (Nat.ltb_ge _ _) Hge), (proj2 (Nat.ltb_lt _ _) Hcap) in H.
  minv H. simpl in *. same_obj.
  apply (quiet_Ok _ _ _ _ (quiet_move_loop _ _ _ _)) in H3 as (Ho0 & _).
  apply (quiet_Ok _ _ _ _ (quiet_destroy_n _ _ _)) in H5 as (Ho1 & _).
  apply deallocate_Ok_objs in H7. simpl in *.
  rewrite H7, Ho1, Ho0 in H8. same_obj.
  rewrite lookup_insert_eq in H. injection H as <-. simpl.
  by rewrite lookup_insert_eq.
Qed.

(** The size after a [resize] that returned. *)
Lemma resize_Ok_size this n w w' :
  resize this n w = Ok tt w' →
  ∃ v', w_objs w' !! this = Some v' ∧ _size v' = n.
Proof.
  unfold resize. rewrite resize_fuel_unfold. intros H. minv H.
  eexists. simpl. by rewrite lookup_insert_eq.
Qed.

(** X19. [reserve] and [resize] are idempotent: asking twice for the
    same capacity, or for the same size, has the effect of asking once,
    whatever the state and whatever the outcome of the first call.  The
    second call allocates, constructs and destroys nothing. *)
Theorem reserve_resize_idempotent this n w :
  (reserve this n ;; reserve this n) w = reserve this n w ∧
  (resize this n ;; resize this n) w = resize this n w.
Proof.
  split.
  - unfold bind at 1. destruct (reserve this n w) as [[] w1| | | |] eqn:E; try done.
    destruct (reserve_Ok_grown _ _ _ _ E) as (v0 & Hv0 & Hgrown).
    destruct (reserve_Ok_cases _ _ _ _ E) as (v & Hv & [[Hlt ->]|[[Hle ->]|(Hge & Hcap & _)]]).
    + erewrite reserve_no_growth; cycle 1.
      { simpl. apply lookup_insert_eq. }
      { simpl. lia. }
      simpl. rewrite (proj2 (Nat.ltb_lt _ _) Hlt). f_equal.
      apply world_eq; simpl; try done. by rewrite insert_insert_eq.
    + done.
    + rewrite Hv in Hv0. injection Hv0 as <-.
      erewrite reserve_no_growth; cycle 1.
      { by apply Hgrown. }
      { simpl. lia. }
      simpl. by rewrite (proj2 (Nat.ltb_ge _ _) Hge).
  - unfold bind at 1. destruct (resize this n w) as [[] w1| | | |] eqn:E; try done.
    destruct (resize_Ok_size _ _ _ _ E) as (v' & Hv' & <-).
    by apply resize_to_same_size.
Qed.

(** ** From construction to destruction *)

Lemma owned_singleton this w p :
  owned {[ this ]} w p ↔ ∃ v, w_objs w !! this = Some v ∧ _data v = Some p.
Proof.
  split.
  - intros (j & v & ->%elem_of_singleton & Hv & Hd). eauto.
  - intros (v & Hv & Hd). exists this, v. set_solver.
Qed.

(** One step of [reserve], [resize] or [emplace_back] keeps the heap
    around the buffer as it was. *)
Lemma only_buffer_step this w0 w w' :
  heap_fresh w0 → heap_fresh w →
  only_buffer this w0 w → frame {[ this ]} ∅ w w' → footprint this w w' →
  only_buffer this w0 w'.
Proof.
  intros Hf0 Hf (Hn & Ho & v & Hv & Hnew & Hold) (Hn' & Ho' & Hh' & _) Hfoot.
  assert (∀ p, _data v ≠ Some p → ¬ owned {[ this ]} w p) as Hnot.
  { intros p Hp (v1 & Hv1 & Hd1)%owned_singleton. congruence. }
  assert (∀ p, (w_next w ≤ p)%positive → w_heap w !! p = None) as Hfresh.
  { intros p Hp. destruct (w_heap w !! p) eqn:E; [|done].
    specialize (Hf p (mk_is_Some _ _ E)). lia. }
  assert (∀ p, (w_next w ≤ p)%positive → w_heap w0 !! p = None) as Hfresh0.
  { intros p Hp. destruct (w_heap w0 !! p) eqn:E; [|done].
    specialize (Hf0 p (mk_is_Some _ _ E)). lia. }
  split; [lia|]. split.
  { intros j Hj. rewrite Ho'; [by apply Ho|set_solver]. }
  destruct Hfoot as [(v1 & v' & Hv1 & Hobjs & Hd & _ & _ & _ & Hdom & _)
                    |(v1 & v' & Hv1 & Hobjs & Hd & _ & _ & _ & Hdom & _)];
    rewrite Hv in Hv1; injection Hv1 as <-;
    exists v'; (split; [by rewrite Hobjs, lookup_insert_eq|]).
  - rewrite Hd. split; [done|]. intros p Hp.
    destruct (decide (p < w_next w)%positive) as [Hlt|Hge].
    + rewrite Hh'; [by apply Hold|done|set_solver|by apply Hnot].
    + rewrite <- (Hold p Hp), Hfresh by lia.
      apply not_elem_of_dom. rewrite Hdom. apply not_elem_of_dom.
      apply Hfresh. lia.
  - rewrite Hd. split.
    { intros p [= <-]. apply Hfresh0. lia. }
    intros p Hp. assert (p ≠ w_next w) as Hne by congruence.
    destruct (decide (_data v = Some p)) as [Hown|Hown].
    + rewrite (Hnew p Hown). apply not_elem_of_dom. rewrite Hdom, Hown.
      simpl. set_solver.
    + destruct (decide (p < w_next w)%positive) as [Hlt|Hge].
      * rewrite Hh'; [by apply Hold|done|set_solver|by apply Hnot].
      * rewrite <- (Hold p Hown), Hfresh by lia.
        apply not_elem_of_dom. rewrite Hdom.
        assert (p ∉ dom (w_heap w)).
        { apply not_elem_of_dom. apply Hfresh. lia. }
        set_solver.
Qed.

Lemma exec_frame o w w' :
  exec o w = Ok tt w' → frame (targets o) (moved_from o) w w'.
Proof.
  intros H. pose proof (framed_exec o w) as Hf. unfold framed in Hf.
  by rewrite H in Hf.
Qed.

(** Any number of [resize] and [emplace_back] on a well-formed vector
    return and leave it well-formed, with the rest of the heap as it
    was. *)
Lemma run_all_grows this w0 (ops : list op) : ∀ w vals cap,
  Forall (λ o, grows this o = true) ops →
  heap_fresh w0 →
  holds w this vals cap → heap_fresh w → allocations_succeed w →
  only_buffer this w0 w →
  ∃ w' vals' cap',
    run_all ops w = Ok tt w' ∧ holds w' this vals' cap' ∧
    only_buffer this w0 w'.
Proof.
  induction ops as [|o ops IH]; intros w vals cap Hops Hf0 Hh Hf Ha Hb.
  { exists w, vals, cap. done. }
  apply Forall_cons in Hops as [Ho Hops].
  assert (∃ w1 vals1 cap1, exec o w = Ok tt w1 ∧ holds w1 this vals1 cap1 ∧
            heap_fresh w1 ∧ allocations_succeed w1 ∧ footprint this w w1 ∧
            targets o = {[ this ]} ∧ moved_from o = ∅)
    as (w1 & vals1 & cap1 & Hrun & Hh1 & Hf1 & Ha1 & Hfoot & Ht & Hm).
  { destruct o as [| | | | | | |t n|t [x|p|p]| |]; simpl in Ho; try done;
      apply bool_decide_eq_true in Ho as ->; simpl.
    - destruct (resize_holds this vals cap n w Hh Hf Ha)
        as (w1 & v & v' & _ & Hrun & _ & Hh1 & _ & Hf1 & Ha1).
      exists w1. do 2 eexists. repeat (split; [done|]).
      split; [|done]. by apply (resize_Ok_footprint this n).
    - destruct (emplace_back_spec this vals cap x w Hh Hf Ha)
        as (w1 & Hrun & Hh1 & Hf1 & Ha1).
      exists w1. do 2 eexists. repeat (split; [done|]).
      split; [|done]. by apply (emplace_back_Ok_footprint this (ByValue x)). }
  assert (only_buffer this w0 w1) as Hb1.
  { apply (only_buffer_step this w0 w w1); try done.
    rewrite <- Ht, <- Hm. by apply exec_frame. }
  destruct (IH w1 vals1 cap1 Hops Hf0 Hh1 Hf1 Ha1 Hb1) as (w' & vals' & cap' & Hrun' & Hh' & Hb').
  exists w', vals', cap'. split; [|done].
  simpl. by erewrite bind_run by done.
Qed.

(** X20. A vector that is constructed (by the default or the sized
    constructor), then only resized and appended to with values that
    live in no block (not with references to elements of a vector), any
    number of times and in any order, and finally destroyed, leaks
    nothing when the allocator serves every request: the whole program
    returns, and the objects and the heap at the end are those of the
    start, so every block the vector acquired on the way has been
    released. *)
Theorem lifecycle_without_leak this s (c : op) (ops : list op) w :
  c = OpDefault this ∨ c = OpSized this s →
  w_objs w !! this = None → heap_fresh w → allocations_succeed w →
  Forall (λ o, grows this o = true) ops →
  ∃ w', (exec c ;; run_all ops ;; dtor this) w = Ok tt w' ∧
        w_objs w' = w_objs w ∧ w_heap w' = w_heap w.
Proof.
  intros Hc Hnew Hf Ha Hops.
  assert (next_alloc_ok w) as Hok by by apply allocations_succeed_next.
  assert (w_heap w !! w_next w = None) as Hq by by apply heap_fresh_next.
  assert (∃ w1 vals cap, exec c w = Ok tt w1 ∧ holds w1 this vals cap ∧
            heap_fresh w1 ∧ allocations_succeed w1 ∧ only_buffer this w w1)
    as (w1 & vals & cap & Hrun & Hh & Hf1 & Ha1 & Hb).
  { destruct Hc as [-> | ->]; simpl.
    - exists (with_objs <[this := mk_vector None 0 0]> w), [], 0.
      split; [by apply construct_obj_run|]. split; [|split; [done|split; [done|]]].
      + eexists. simpl. rewrite lookup_insert_eq. done.
      + split; [simpl; lia|]. split.
        { intros j Hj. simpl. by rewrite lookup_insert_ne. }
        eexists. simpl. rewrite lookup_insert_eq. done.
    - eexists. exists (replicate s T_default), s.
      split; [by apply ctor_sized_run|]. split; [|split; [|split; [|split]]].
      + eexists. simpl. rewrite lookup_insert_eq. split; [done|]. simpl.
        rewrite length_replicate. split; [done|]. split; [done|]. split; [|done].
        rewrite lookup_insert_eq. f_equal. unfold block_of.
        rewrite length_replicate, Nat.sub_diag, fmap_replicate. simpl.
        by rewrite app_nil_r.
      + intros p. simpl. rewrite lookup_insert. case_decide as Hp.
        * intros _. subst p. lia.
        * intros Hs. specialize (Hf p Hs). lia.
      + intros b Hb. simpl in Hb. apply Ha. destruct (w_plan w); [done|].
        simpl in Hb. set_solver.
      + simpl. lia.
      + split.
        { intros j Hj. simpl. by rewrite lookup_insert_ne. }
        eexists. simpl. rewrite lookup_insert_eq. split; [done|]. simpl. split.
        * by intros p [= <-].
        * intros p Hp. rewrite lookup_insert_ne; [done|congruence]. }
  destruct (run_all_grows this w ops w1 vals cap Hops Hf Hh Hf1 Ha1 Hb)
    as (w2 & vals2 & cap2 & Hrun2 & Hh2 & (_ & Ho2 & v2 & Hv2 & Hnew2 & Hold2)).
  assert (delete this (w_objs w2) = w_objs w) as Hobjs.
  { apply map_eq. intros j.
    destruct (decide (j = this)) as [->|Hj].
    - by rewrite lookup_delete_eq.
    - rewrite lookup_delete_ne by done. by apply Ho2. }
  destruct (holds_source_data _ _ _ _ _ Hh2 Hv2) as (Hsz2 & Hcap2 & Hd2).
  destruct (_data v2) as [p|] eqn:Hp.
  - destruct Hd2 as [Hblock Hle]. eexists. split.
    { erewrite bind_run by done. erewrite bind_run by done.
      by apply (dtor_run this v2 p vals2). }
    simpl. split; [done|].
    apply map_eq. intros a. destruct (decide (a = p)) as [->|Hne].
    + rewrite lookup_delete_eq. symmetry. by apply Hnew2.
    + rewrite lookup_delete_ne by done. apply Hold2. congruence.
  - eexists. split.
    { erewrite bind_run by done. erewrite bind_run by done.
      by apply (dtor_null this v2). }
    simpl. split; [done|].
    apply map_eq. intros a. by apply Hold2.
Qed.

(** ** Moving, then destroying *)

(** X21. Move construction followed by the destruction of both vectors,
    for a well-formed source: the program returns; the moved-from source
    releases nothing, the destination destroys each element once and
    releases the source's buffer once, with the capacity it was
    allocated with.  What is left in the heap beyond the start is the
    block the move constructor requested. *)
Theorem move_then_destroy_both this other o vals w :
  w_objs w !! this = None → w_objs w !! other = Some o →
  holds w other vals (_capacity o) →
  heap_fresh w → next_alloc_ok w →
  ∃ w', (ctor_move this other ;; dtor other ;; dtor this) w = Ok tt w' ∧
        w_objs w' = delete other (w_objs w) ∧
        w_heap w' = <[w_next w := replicate (_capacity o) None]>
                      (match _data o with
                       | Some p => delete p (w_heap w)
                       | None => w_heap w
                       end) ∧
        w_trace w' = w_trace w ++ [EvAllocate (_capacity o) (w_next w)] ++
                       destroy_events (_data o) 0 (length vals) ++
                       deallocate_events (_data o) (_capacity o).
Proof.
  intros Hnew Ho Hh Hf Hok.
  assert (this ≠ other) as Hne by congruence.
  destruct (holds_source_data _ _ _ _ _ Hh Ho) as (Hsz & _ & Hd).
  assert (w_heap w !! w_next w = None) as Hq by by apply heap_fresh_next.
  assert (delete this (delete other
            (<[other := mk_vector None 0 (_capacity o)]>
               (<[this := mk_vector (_data o) (_size o) (_capacity o)]> (w_objs w))))
          = delete other (w_objs w)) as Hobjs.
  { apply map_eq. intros j. destruct (decide (j = this)) as [->|Hj].
    - by rewrite lookup_delete_eq, lookup_delete_ne, Hnew.
    - rewrite lookup_delete_ne by done. destruct (decide (j = other)) as [->|Hj'].
      + by rewrite !lookup_delete_eq.
      + by rewrite !lookup_delete_ne, !lookup_insert_ne. }
  assert ((ctor_move this other ;; dtor other ;; dtor this) w =
          dtor this (with_objs (delete other) (moved this other o w))) as ->.
  { erewrite bind_run by by apply ctor_move_run.
    erewrite bind_run; [reflexivity|].
    eapply dtor_null; simpl; [apply lookup_insert_eq|done]. }
  destruct (_data o) as [p|] eqn:Hp.
  - destruct Hd as [Hb Hle]. assert (p ≠ w_next w) as Hpq by congruence.
    eexists. split.
    { eapply (dtor_run this _ p vals); simpl.
      - rewrite lookup_delete_ne, lookup_insert_ne, lookup_insert_eq by done.
        by rewrite Hp.
      - done.
      - done.
      - by rewrite lookup_insert_ne.
      - done. }
    simpl. rewrite ?Hp. split; [done|]. split.
    + by rewrite delete_insert_ne.
    + by rewrite <- !app_assoc.
  - eexists. split.
    { eapply dtor_null; simpl.
      - rewrite lookup_delete_ne, lookup_insert_ne, lookup_insert_eq by done.
        by rewrite Hp.
      - done. }
    simpl. rewrite ?Hp. done.
Qed.

(** ** The recursion between [reserve] and [resize] *)

(** X22. [reserve] calls [resize] and [resize] calls [reserve], but the
    recursion is never more than two calls deep: [reserve] only calls
    [resize] with the current size, which does not reach [reserve], and
    [resize] only calls [reserve] with a capacity above the size, which
    does not reach [resize].  Both functions therefore complete on every
    state, and more fuel changes nothing. *)
Theorem reserve_resize_recursion_is_two_deep this n fuel w :
  reserve_fuel (2 + fuel) this n w = reserve this n w ∧
  resize_fuel (2 + fuel) this n w = resize this n w ∧
  terminates (reserve this n) ∧ terminates (resize this n).
Proof.
  split; [apply reserve_fuel_enough|]. split; [apply resize_fuel_enough|].
  split; [apply reserve_terminates|apply resize_terminates].
Qed.

(** ** Pointers into the buffer *)

(** X23. Pointers obtained from [begin()] and the growth of the buffer.
    After a [reserve] that grows the buffer, every pointer into the old
    buffer dangles: reading through [begin() + i] taken before the call is
    undefined behaviour.  After an [emplace_back] that found room, the
    pointers taken before are still good and read the same elements. *)
Theorem pointers_and_growth this b vals cap w :
  holds w this vals cap → heap_fresh w → begin this w = Ok b w →
  (∀ n, cap < n → next_alloc_ok w →
     ∃ w', reserve this n w = Ok tt w' ∧
           ∀ i, deref (advance b i) w' = Undefined) ∧
  (∀ a x, length vals < cap → read_arg a w = Ok x w →
     ∃ w', emplace_back this a w = Ok tt w' ∧
           ∀ i y, vals !! i = Some y → deref (advance b i) w' = Ok y w').
Proof.
  intros Hh Hf Hb. unfold begin, bind, get_obj, ret in Hb.
  destruct (w_objs w !! this) as [v|] eqn:Hv; [|done]. injection Hb as <-.
  destruct (holds_source_data _ _ _ _ _ Hh Hv) as (Hsz & Hcap & Hd).
  split.
  - intros n Hn Hok. exists (relocated this v vals n w). split.
    { apply reserve_grow; try done. lia. }
    intros i. unfold deref, advance, read_slot, slot_at. simpl.
    destruct (_data v) as [p|] eqn:Hp; [|done].
    destruct Hd as [Hblock _].
    assert (p ≠ w_next w).
    { intros ->. by rewrite heap_fresh_next in Hblock. }
    by rewrite lookup_insert_ne, lookup_delete_eq.
  - intros a x Hlt Hread.
    destruct (emplace_back_with_room this v vals cap a x w Hv Hh Hlt Hread)
      as (w' & Hrun & Hh' & Ho' & _).
    exists w'. split; [done|]. intros i y Hy.
    assert (index_read this i w' = Ok y w') as Hr.
    { eapply holds_index_read; [done|]. by apply lookup_app_l_Some. }
    unfold index_read in Hr.
    erewrite bind_run in Hr; cycle 1.
    { apply get_obj_run. rewrite Ho'. apply lookup_insert_eq. }
    done.
Qed.

(** ** The source of a move *)

(** Move assignment to itself, run forward. *)
Lemma assign_move_self_run this o w :
  w_objs w !! this = Some o → next_alloc_ok w →
  assign_move this this w = Ok tt (moved this this o w).
Proof.
  intros Ho Hok.
  unfold assign_move, size. apply noexcept_run.
  rewrite bind_assoc. do 11 mrun. simpl.
  erewrite set_size_run by (simpl; apply lookup_insert_eq).
  f_equal. apply world_eq; simpl; try done.
  by rewrite !insert_insert_eq.
Qed.

(** Move assignment returns for every destination, the source itself
    included. *)
Lemma assign_move_returns this other t o w :
  w_objs w !! this = Some t → w_objs w !! other = Some o → next_alloc_ok w →
  assign_move this other w = Ok tt (moved this other o w).
Proof.
  intros Ht Ho Hok. destruct (decide (this = other)) as [->|Hne].
  - by apply assign_move_self_run.
  - by apply (assign_move_run this other t).
Qed.

(** What both moves leave of the source, and the destructor of a vector
    in that state. *)
Lemma moved_source this other o w :
  w_objs (moved this other o w) !! other = Some (mk_vector None 0 (_capacity o)) ∧
  ∃ w'', dtor other (moved this other o w) = Ok tt w'' ∧
         w_trace w'' = w_trace (moved this other o w) ∧
         w_heap w'' = w_heap (moved this other o w) ∧
         w_objs w'' = delete other (w_objs (moved this other o w)).
Proof.
  assert (w_objs (moved this other o w) !! other
          = Some (mk_vector None 0 (_capacity o))) as Hsrc.
  { simpl. apply lookup_insert_eq. }
  split; [done|]. eexists. split; [by eapply dtor_null|]. done.
Qed.

(** C10. Move construction into a new object and move assignment to an
    existing vector (the source itself included) return when the
    allocator serves their request, and leave the source with a null data
    pointer and size 0 while its capacity field still holds the value it
    had before the move.  Destroying the source then destroys no element
    and releases nothing: the heap and the trace of allocator and
    lifetime events are unchanged, only the source object itself is
    gone. *)
Theorem moved_from_source this this' other o w :
  w_objs w !! other = Some o → next_alloc_ok w →
  w_objs w !! this = None → is_Some (w_objs w !! this') →
  (∃ w', ctor_move this other w = Ok tt w' ∧
         w_objs w' !! other = Some (mk_vector None 0 (_capacity o)) ∧
         ∃ w'', dtor other w' = Ok tt w'' ∧
                w_trace w'' = w_trace w' ∧ w_heap w'' = w_heap w' ∧
                w_objs w'' = delete other (w_objs w')) ∧
  (∃ w', assign_move this' other w = Ok tt w' ∧
         w_objs w' !! other = Some (mk_vector None 0 (_capacity o)) ∧
         ∃ w'', dtor other w' = Ok tt w'' ∧
                w_trace w'' = w_trace w' ∧ w_heap w'' = w_heap w' ∧
                w_objs w'' = delete other (w_objs w')).
Proof.
  intros Ho Hok Hnew [t Ht]. split.
  - exists (moved this other o w). split; [by apply ctor_move_run|].
    apply moved_source.
  - exists (moved this' other o w).
    split; [by apply (assign_move_returns this' other t)|].
    apply moved_source.
Qed.

(** ** Requests for 0 slots, and vectors of capacity 0 *)

Lemma ctor_move_trace this other w w' :
  ctor_move this other w = Ok tt w' →
  ∃ o, w_objs w !! other = Some o ∧
       w_trace w' = w_trace w ++ [EvAllocate (_capacity o) (w_next w)].
Proof.
  unfold ctor_move. intros H. minv H. simpl in *.
  assert (this ≠ other) by congruence.
  simplify_map_eq. simpl in *. eauto.
Qed.

Lemma assign_move_trace this other w w' :
  assign_move this other w = Ok tt w' →
  ∃ o, w_objs w !! other = Some o ∧
       w_trace w' = w_trace w ++ [EvAllocate (_capacity o) (w_next w)].
Proof.
  unfold assign_move. intros H. minv H. simpl in *.
  destruct (decide (this = other)) as [->|Hne]; simplify_map_eq; simpl in *; eauto.
Qed.

(** What a copy assignment that throws leaves: the members already
    written, the data pointer and the trace as they were. *)
Lemma assign_copy_Throw_members this other w w' :
  assign_copy this other w = Throw w' →
  ∃ v o, w_objs w !! this = Some v ∧ w_objs w !! other = Some o ∧
         w_objs w' = <[this := mk_vector (_data v) (_size o) (_capacity o)]> (w_objs w) ∧
         w_trace w' = w_trace w.
Proof.
  unfold assign_copy. intros H. tinv H. simpl in *.
  destruct (decide (this = other)) as [->|Hne]; simplify_map_eq; simpl in *.
  all: eexists _, _; split; [done|]; split; [done|];
    by rewrite ?insert_insert_eq.
Qed.

Local Abbreviation zero_rule o w w' :=
  (∃ evs,
    w_trace w' = w_trace w ++ evs ∧
    (Exists (λ e, zero_allocation e = true) evs → first_request o w = Some 0) ∧
    (first_request o w = Some 0 → exec o w = Ok tt w' →
     EvAllocate 0 (w_next w) ∈ evs) ∧
    (∀ j v', w_objs w' !! j = Some v' → empty_with_block v' →
       (first_request o w = Some 0 ∧ stores_request o = Some j) ∨
       (∃ i v, (i = j ∨ adopts o j = Some i) ∧
               w_objs w !! i = Some v ∧ empty_with_block v)) ∧
    (∀ this, first_request o w = Some 0 → stores_request o = Some this →
       exec o w = Ok tt w' →
       ∃ v', w_objs w' !! this = Some v' ∧
             _data v' = Some (w_next w) ∧ _capacity v' = 0)).

Lemma no_zero_among (evs : list event) :
  Forall (λ e, zero_allocation e = false) evs →
  Exists (λ e, zero_allocation e = true) evs → False.
Proof.
  intros Hf He. apply Exists_exists in He as (e & Hin & He).
  rewrite Forall_forall in Hf. specialize (Hf e Hin). congruence.
Qed.

(** An operation that threw before it changed any object or logged any
    event. *)
Lemma zero_rule_unchanged o w w' :
  exec o w = Throw w' → w_objs w' = w_objs w → w_trace w' = w_trace w →
  zero_rule o w w'.
Proof.
  intros Hrun Ho Ht. exists []. rewrite app_nil_r.
  split; [done|]. split; [by intros ?%Exists_nil|].
  split; [intros _ Hok; congruence|]. split; [|intros ? _ _ Hok; congruence].
  intros j v' Hj He. right. exists j, v'. rewrite <- Ho. eauto.
Qed.

(** An operation that passes no capacity to the allocator on its own. *)
Lemma zero_rule_no_request o w w' evs :
  first_request o w = None →
  w_trace w' = w_trace w ++ evs →
  Forall (λ e, zero_allocation e = false) evs →
  (∀ j v', w_objs w' !! j = Some v' → empty_with_block v' →
           ∃ v, w_objs w !! j = Some v ∧ empty_with_block v) →
  zero_rule o w w'.
Proof.
  intros Hreq Ht Hz Hobj. exists evs. split; [done|]. split.
  { intros He. by destruct (no_zero_among evs). }
  split; [intros Hr; congruence|]. split; [|intros ? Hr; congruence].
  intros j v' Hj He. right. destruct (Hobj j v' Hj He) as (v & Hv & Hev).
  exists j, v. eauto.
Qed.

(** An operation that passes [n] to the allocator and is served. *)
Lemma zero_rule_request o w w' n evs :
  first_request o w = Some n →
  w_trace w' = w_trace w ++ EvAllocate n (w_next w) :: evs →
  Forall (λ e, lifetime_event e = true) evs →
  (∀ j v', w_objs w' !! j = Some v' → empty_with_block v' →
     (n = 0 ∧ stores_request o = Some j) ∨
     (∃ i v, (i = j ∨ adopts o j = Some i) ∧
             w_objs w !! i = Some v ∧ empty_with_block v)) →
  (∀ this, n = 0 → stores_request o = Some this →
     ∃ v', w_objs w' !! this = Some v' ∧
           _data v' = Some (w_next w) ∧ _capacity v' = 0) →
  zero_rule o w w'.
Proof.
  intros Hreq Ht Hl Hobj Hst. exists (EvAllocate n (w_next w) :: evs).
  split; [done|]. split; [|split; [|split]].
  - intros [He|He]%Exists_cons.
    + simpl in He. destruct n; [done|discriminate].
    + destruct (no_zero_among evs); [|done].
      by apply lifetime_not_zero_allocation.
  - intros Hr _. rewrite Hreq in Hr. injection Hr as ->. apply list_elem_of_here.
  - intros j v' Hj He. destruct (Hobj j v' Hj He) as [[-> Hs]|Hi]; [|by right].
    left. by rewrite Hreq.
  - intros this Hr Hs _. rewrite Hreq in Hr. injection Hr as ->. by apply Hst.
Qed.

Lemma lookup_insert_cases (objs : gmap nat vector_t) this v' j vj :
  <[this := v']> objs !! j = Some vj →
  (j = this ∧ vj = v') ∨ (j ≠ this ∧ objs !! j = Some vj).
Proof.
  destruct (decide (j = this)) as [->|Hne].
  - rewrite lookup_insert_eq. intros [= <-]. by left.
  - rewrite lookup_insert_ne by done. by right.
Qed.

(** What [reserve], [resize] and [emplace_back] do to the vectors of
    capacity 0. *)
Lemma zero_rule_footprint o this w w' :
  first_request o w = None → footprint this w w' → zero_rule o w w'.
Proof.
  intros Hreq [(v & v' & Hthis & Ho & Hd & Hc & _ & _ & _ & evs & Ht & Hl)
              |(v & v' & Hthis & Ho & Hd & Hc & _ & _ & _ & evs & Ht & Hl)].
  - apply (zero_rule_no_request o w w' evs); try done.
    { by apply lifetime_not_zero_allocation. }
    intros j vj Hj [Hcap Hdat]. rewrite Ho in Hj.
    apply lookup_insert_cases in Hj as [[-> ->]|[Hne Hj]].
    + exists v. split; [done|]. split; [by apply Hc|by rewrite <- Hd].
    + by exists vj.
  - apply (zero_rule_no_request o w w' evs); try done.
    intros j vj Hj [Hcap Hdat]. rewrite Ho in Hj.
    apply lookup_insert_cases in Hj as [[-> ->]|[Hne Hj]]; [lia|].
    by exists vj.
Qed.


(** ** An element of the vector as argument of [emplace_back] *)

(** After the growing branch of [reserve], nothing can be read through
    a pointer into the buffer the vector had. *)
Lemma relocated_stale this v vals n i w :
  heap_fresh w →
  match _data v with
  | Some p => is_Some (w_heap w !! p)
  | None => True
  end →
  slot_at (_data v) i (relocated this v vals n w) = None.
Proof.
  intros Hf Hd. unfold slot_at, relocated. simpl.
  destruct (_data v) as [p|] eqn:Hp; [|done].
  assert (p ≠ w_next w) as Hne.
  { intros ->. rewrite heap_fresh_next in Hd by done. by destruct Hd. }
  by rewrite lookup_insert_ne, lookup_delete_eq.
Qed.

Lemma read_arg_stale this v vals n i w :
  heap_fresh w →
  match _data v with
  | Some p => is_Some (w_heap w !! p)
  | None => True
  end →
  read_arg (ByRef (mk_pointer (_data v) i)) (relocated this v vals n w) = Undefined ∧
  read_arg (ByMove (mk_pointer (_data v) i)) (relocated this v vals n w) = Undefined.
Proof.
  intros Hf Hd. unfold read_arg, read_slot, move_slot.
  cbn [ptr_block ptr_index].
  pose proof (relocated_stale this v vals n i w Hf Hd) as Hs.
  destruct (_data v) as [p|]; [|done]. by rewrite Hs.
Qed.

(** [emplace_back] on a full vector, up to the point where the argument
    is read: the buffer has been relocated. *)
Lemma emplace_back_full this v vals (a : arg T) w :
  w_objs w !! this = Some v → holds w this vals (_capacity v) →
  length vals = _capacity v → heap_fresh w → next_alloc_ok w →
  ∃ n, emplace_back this a w =
       (do x <- read_arg a;
        construct_at (Some (w_next w)) (_size v) x ;;
        do t <- get_obj this;
        set_size this (_size t + 1)) (relocated this v vals n w).
Proof.
  intros Hv Hh Hfull Hf Hok.
  destruct (holds_source_data _ _ _ _ _ Hh Hv) as (Hsz & _ & Hd).
  unfold emplace_back. mrun.
  rewrite (proj2 (Nat.eqb_eq (_size v) (_capacity v))) by lia.
  destruct (Nat.eqb_spec (_capacity v) 0) as [Hz|Hnz].
  - exists 16.
    erewrite bind_run; cycle 1.
    { rewrite (reserve_no_growth this v) by (done || lia).
      rewrite (proj2 (Nat.ltb_ge _ _)) by lia. done. }
    mrun. rewrite (proj2 (Nat.eqb_eq (_capacity v) 0)) by done.
    erewrite bind_run; cycle 1.
    { apply (reserve_grow this v vals); try done. lia. }
    by erewrite (bind_run (get_obj _))
      by (apply get_obj_run; simpl; apply lookup_insert_eq).
  - exists (2 * _capacity v).
    erewrite bind_run; cycle 1.
    { apply (reserve_grow this v vals); try done. lia. }
    erewrite (bind_run (get_obj _))
      by (apply get_obj_run; simpl; apply lookup_insert_eq).
    cbn [_capacity _size _data].
    match goal with
    | |- context [?n =? 0] => destruct (Nat.eqb_spec n 0) as [?|_]; [lia|]
    end.
    mrun.
    by erewrite (bind_run (get_obj _))
      by (apply get_obj_run; simpl; apply lookup_insert_eq).
Qed.

(** X27. An element of the vector itself as the argument of
    [emplace_back], through a pointer [begin() + i] taken before the
    call.  When the vector is full, [emplace_back] first calls [reserve],
    which, once the allocator has served its request, destroys the
    elements and releases the buffer the pointer points into, and only
    then constructs the new element from the argument: whether the
    argument is copied or moved from, and whatever [i], this is undefined
    behaviour.  When there is room, the element of index [i] is copied to
    the end. *)
Theorem emplace_back_of_own_element this b vals cap i w :
  holds w this vals cap → heap_fresh w → next_alloc_ok w →
  begin this w = Ok b w →
  (length vals = cap →
     emplace_back this (ByRef (advance b i)) w = Undefined ∧
     emplace_back this (ByMove (advance b i)) w = Undefined) ∧
  (length vals < cap → ∀ x, vals !! i = Some x →
     ∃ w', emplace_back this (ByRef (advance b i)) w = Ok tt w' ∧
           holds w' this (vals ++ [x]) cap).
Proof.
  intros Hh Hf Hok Hb. unfold begin, bind, get_obj, ret in Hb.
  destruct (w_objs w !! this) as [v|] eqn:Hv; [|done]. injection Hb as <-.
  destruct (holds_source_data _ _ _ _ _ Hh Hv) as (Hsz & Hcap & Hd).
  unfold advance. simpl. split.
  - intros Hfull. rewrite <- Hcap in Hh, Hfull.
    assert (match _data v with
            | Some p => is_Some (w_heap w !! p)
            | None => True
            end) as Hlive.
    { destruct (_data v); [|done]. destruct Hd as [-> _]. eauto. }
    split.
    + destruct (emplace_back_full this v vals (ByRef (mk_pointer (_data v) i)) w)
        as [n ->]; try done.
      apply bind_undefined. by apply read_arg_stale.
    + destruct (emplace_back_full this v vals (ByMove (mk_pointer (_data v) i)) w)
        as [n ->]; try done.
      apply bind_undefined. by apply read_arg_stale.
  - intros Hlt x Hx.
    destruct (emplace_back_with_room this v vals cap
                (ByRef (mk_pointer (_data v) i)) x w Hv Hh Hlt)
      as (w' & Hrun & Hh' & _).
    + assert (index_read this i w = Ok x w) as Hr by by eapply holds_index_read.
      unfold index_read in Hr. by erewrite bind_run in Hr by by apply get_obj_run.
    + by exists w'.
Qed.

End VectorProofs.

(** ** Behaviour of [vector_t<int>] on concrete programs *)

(** C1. Failing input: a destination of capacity 4 copy-assigned from a
    source of capacity 100, both destroyed afterwards.  The program
    acquires three regions and releases two: the destination's original
    4-slot region is still allocated at the end, its four elements never
    destroyed. *)
Theorem copy_assign_leaks_destination :
  ∃ w, copy_assign_scenario empty_world = Ok tt w ∧
       w_objs w = ∅ ∧
       count_events is_allocate (w_trace w) = 3 ∧
       count_events is_deallocate (w_trace w) = 2 ∧
       w_heap w = {[ 1%positive := replicate 4 (Some 0%Z) ]}.
Proof.
  eexists. split; [vm_compute; reflexivity|].
  repeat split; vm_compute; reflexivity.
Qed.

(** C2. Failing input: the vector [7, 8] assigned to itself.  Copy
    assignment points [_data] at a new raw block and then copy-constructs
    from that same block, reading slots that hold no value: undefined
    behaviour.  Move assignment returns, but leaves the vector with a null
    [_data] and size 0 while the block holding 7 and 8 stays allocated. *)
Theorem self_assignment_loses_elements :
  two_elements empty_world = Ok tt two_elements_world ∧
  assign_copy 0 0 two_elements_world = Undefined ∧
  ∃ w, assign_move 0 0 two_elements_world = Ok tt w ∧
       w_objs w !! 0 = Some (mk_vector None 0 16) ∧
       w_heap w !! 1%positive = Some ([Some 7%Z; Some 8%Z] ++ replicate 14 None) ∧
       count_events is_deallocate (w_trace w) = 0.
Proof.
  split; [vm_compute; reflexivity|].
  split; [vm_compute; reflexivity|].
  eexists. split; [vm_compute; reflexivity|].
  repeat split; vm_compute; reflexivity.
Qed.

(** C3. Failing input: a source of size 3.  The move constructor requests
    a 3-slot block that it never uses nor releases; move assignment over a
    destination of size 2 requests another one and leaves the
    destination's former block, with its two live elements, allocated and
    unreferenced. *)
Theorem move_allocates_and_leaks :
  (∃ w, (ctor_sized 0 3 ;; ctor_move 1 0) empty_world = Ok tt w ∧
        w_trace w = [EvAllocate 3 1; EvConstruct 1 0; EvConstruct 1 1;
                     EvConstruct 1 2; EvAllocate 3 2] ∧
        w_objs w = {[ 0 := mk_vector None 0 3; 1 := mk_vector (Some 1%positive) 3 3 ]} ∧
        w_heap w !! 2%positive = Some [None; None; None]) ∧
  (∃ w, (ctor_sized 0 3 ;; ctor_sized 1 2 ;; assign_move 1 0) empty_world = Ok tt w ∧
        count_events is_allocate (w_trace w) = 3 ∧
        count_events is_deallocate (w_trace w) = 0 ∧
        w_objs w = {[ 0 := mk_vector None 0 3; 1 := mk_vector (Some 1%positive) 3 3 ]} ∧
        w_heap w !! 2%positive = Some [Some 0%Z; Some 0%Z]).
Proof.
  split; eexists; (split; [vm_compute; reflexivity|]);
    repeat split; vm_compute; reflexivity.
Qed.

(** C4. Failing input: [reserve(1)] on the vector [7, 8] of capacity 16.
    The request does not exceed the capacity, yet [_capacity] is 2
    afterwards, while nothing was allocated or released: the block still
    has its 16 slots.  The capacity member no longer is the size the
    block was allocated with, and every later release of the block is
    undefined behaviour: the destructor, a [reserve] that grows, an
    [emplace_back] (the vector now passes for full). *)
Theorem reserve_below_size_shrinks_capacity :
  w_objs two_elements_world !! 0 = Some (mk_vector (Some 1%positive) 2 16) ∧
  ∃ w, reserve 0 1 two_elements_world = Ok tt w ∧
       w_objs w !! 0 = Some (mk_vector (Some 1%positive) 2 2) ∧
       w_heap w = w_heap two_elements_world ∧
       w_trace w = w_trace two_elements_world ∧
       dtor 0 w = Undefined ∧
       reserve 0 32 w = Undefined ∧
       emplace_back 0 (ByValue 9%Z) w = Undefined.
Proof.
  split; [vm_compute; reflexivity|].
  eexists. split; [vm_compute; reflexivity|].
  repeat split; vm_compute; reflexivity.
Qed.

(** [reserve(5)] and [reserve(1)] on the vector [7, 8] of capacity 16. *)
Lemma reserve_within_capacity_witness :
  (∃ w', reserve 0 5 two_elements_world = Ok tt w' ∧
         w_heap w' = w_heap two_elements_world ∧
         w_trace w' = w_trace two_elements_world ∧
         (∃ v', w_objs w' !! 0 = Some v' ∧
                _data v' = Some 1%positive ∧ _size v' = 2 ∧
                _capacity v' = 16 ∧
                ∀ i, slot_at (_data v') i w' =
                     slot_at (Some 1%positive) i two_elements_world) ∧
         (2 ≤ 5 → w' = two_elements_world)) ∧
  (∃ w', reserve 0 1 two_elements_world = Ok tt w' ∧
         w_heap w' = w_heap two_elements_world ∧
         w_trace w' = w_trace two_elements_world ∧
         (∃ v', w_objs w' !! 0 = Some v' ∧
                _data v' = Some 1%positive ∧ _size v' = 2 ∧
                _capacity v' = 2 ∧
                ∀ i, slot_at (_data v') i w' =
                     slot_at (Some 1%positive) i two_elements_world) ∧
         (2 ≤ 1 → w' = two_elements_world)).
Proof.
  split.
  - apply (reserve_within_capacity 0 (mk_vector (Some 1%positive) 2 16) 5
             two_elements_world).
    + vm_compute; reflexivity.
    + simpl; lia.
  - apply (reserve_within_capacity 0 (mk_vector (Some 1%positive) 2 16) 1
             two_elements_world).
    + vm_compute; reflexivity.
    + simpl; lia.
Defined.

(** C5. Failing input: a destination of size 2, a source of size 5, and an
    allocator that refuses the request made by the copy assignment.  The
    exception propagates, but [_size] and [_capacity] of the destination
    already hold the source's values while [_data] still points to the
    2-slot block. *)
Theorem copy_assign_failure_is_not_atomic :
  ∃ w1 w2,
    (ctor_sized 0 2 ;; ctor_sized 1 5) third_allocation_fails = Ok tt w1 ∧
    w_objs w1 !! 0 = Some (mk_vector (Some 1%positive) 2 2) ∧
    assign_copy 0 1 w1 = Throw w2 ∧
    w_objs w2 !! 0 = Some (mk_vector (Some 1%positive) 5 5) ∧
    w_heap w2 !! 1%positive = Some [Some 0%Z; Some 0%Z].
Proof.
  do 2 eexists. split; [vm_compute; reflexivity|].
  split; [vm_compute; reflexivity|].
  split; [vm_compute; reflexivity|].
  split; vm_compute; reflexivity.
Qed.


(** The vector of three elements moved into a new vector, and
    move-assigned to the vector of two elements. *)
Lemma moved_from_source_witness :
  (∃ w', ctor_move 2 1 two_vectors_world = Ok tt w' ∧
         w_objs w' !! 1 = Some (mk_vector None 0 3) ∧
         ∃ w'', dtor 1 w' = Ok tt w'' ∧
                w_trace w'' = w_trace w' ∧ w_heap w'' = w_heap w' ∧
                w_objs w'' = delete 1 (w_objs w')) ∧
  (∃ w', assign_move 0 1 two_vectors_world = Ok tt w' ∧
         w_objs w' !! 1 = Some (mk_vector None 0 3) ∧
         ∃ w'', dtor 1 w' = Ok tt w'' ∧
                w_trace w'' = w_trace w' ∧ w_heap w'' = w_heap w' ∧
                w_objs w'' = delete 1 (w_objs w')).
Proof.
  apply (moved_from_source 2 0 1 (mk_vector (Some 2%positive) 3 3)
           two_vectors_world).
  - vm_compute; reflexivity.
  - unfold next_alloc_ok. simpl. done.
  - vm_compute; reflexivity.
  - eexists. vm_compute; reflexivity.
Defined.

Lemma holds_fresh_vector : holds fresh_vector_world 0 [] 0.
Proof. exists (mk_vector None 0 0). by repeat split. Qed.

Lemma heap_fresh_fresh_vector : heap_fresh fresh_vector_world.
Proof. intros p [b Hb]. unfold fresh_vector_world in Hb. simpl in Hb. by rewrite lookup_empty in Hb. Qed.

Lemma allocations_succeed_nil (w : world Z) : w_plan w = [] → allocations_succeed w.
Proof. intros Hp b Hb. rewrite Hp in Hb. by apply elem_of_nil in Hb. Qed.

(** Seventeen insertions into a default-constructed vector. *)
Lemma emplace_back_round_trip_witness :
  ∃ w', emplace_back_all 0 seventeen fresh_vector_world = Ok tt w' ∧
        size 0 w' = Ok 17 w' ∧
        (∀ i x, seventeen !! i = Some x → index_read 0 i w' = Ok x w') ∧
        (∃ v, w_objs w' !! 0 = Some v ∧ _size v = 17 ∧ _capacity v = 32) ∧
        growth_schedule 1 = 16 ∧ growth_schedule 16 = 16 ∧ growth_schedule 17 = 32.
Proof.
  apply (emplace_back_round_trip 0 seventeen fresh_vector_world).
  - apply holds_fresh_vector.
  - apply heap_fresh_fresh_vector.
  - by apply allocations_succeed_nil.
Defined.

Lemma holds_two_elements : holds two_elements_world 0 [7%Z; 8%Z] 16.
Proof.
  exists (mk_vector (Some 1%positive) 2 16).
  repeat split; try (vm_compute; reflexivity). simpl. lia.
Qed.

Lemma heap_fresh_two_elements : heap_fresh two_elements_world.
Proof.
  intros p [b Hb]. unfold two_elements_world in *. simpl in *.
  destruct (decide (p = 1%positive)) as [->|Hne]; [done|].
  by rewrite lookup_singleton_ne in Hb.
Qed.

(** [resize(20)] on the vector [7, 8] of capacity 16: the buffer is
    relocated first. *)
Lemma resize_sets_size_witness :
  ∃ w' v v',
    w_objs two_elements_world !! 0 = Some v ∧
    resize 0 20 two_elements_world = Ok tt w' ∧
    w_objs w' !! 0 = Some v' ∧ _size v' = 20 ∧
    holds w' 0 (take 20 [7%Z; 8%Z] ++ replicate (20 - 2) T_default) (16 `max` 20) ∧
    w_trace w' = w_trace two_elements_world ++
                 resize_events v 20 (w_next two_elements_world) (_data v') ∧
    (16 < 20 →
       ∃ w1, reserve 0 20 two_elements_world = Ok tt w1 ∧
             w_trace w1 = w_trace two_elements_world ++
                          relocate_events v 20 (w_next two_elements_world)) ∧
    ∀ m, m < 20 →
      ∃ w'', resize 0 m w' = Ok tt w'' ∧
             size 0 w'' = Ok m w'' ∧
             holds w'' 0 (take m (take 20 [7%Z; 8%Z] ++ replicate (20 - 2) T_default))
               (16 `max` 20).
Proof.
  apply (resize_sets_size 0 [7%Z; 8%Z] 16 20 two_elements_world).
  - apply holds_two_elements.
  - apply heap_fresh_two_elements.
  - by apply allocations_succeed_nil.
Defined.

Lemma valid_empty_world : valid_world empty_world.
Proof.
  split; [|split].
  - intros p [b Hb]. unfold empty_world in Hb. simpl in Hb.
    by rewrite lookup_empty in Hb.
  - intros i v p Hi. unfold empty_world in Hi. simpl in Hi.
    by rewrite lookup_empty in Hi.
  - intros i j vi vj p Hi. unfold empty_world in Hi. simpl in Hi.
    by rewrite lookup_empty in Hi.
Qed.

Lemma valid_two_vectors_world : valid_world two_vectors_world.
Proof.
  assert (∃ w1, exec (OpSized 0 2) empty_world = Ok tt w1 ∧
                exec (OpSized 1 3) w1 = Ok tt two_vectors_world) as (w1 & H1 & H2).
  { eexists. split; vm_compute; reflexivity. }
  eapply exec_valid; [|left; exact H2].
  eapply exec_valid; [|left; exact H1].
  apply valid_empty_world.
Qed.

(** Copy assignment between two vectors of sizes 2 and 3. *)
Lemma no_shared_region_witness :
  valid_world two_vectors_world ∧
  ∃ w', exec (OpAssignCopy 0 1) two_vectors_world = Ok tt w' ∧
        valid_world w' ∧
        ∀ a b i x w'',
          a ≠ b → index_write a i x w' = Ok tt w'' → view w'' b = view w' b.
Proof.
  split; [apply valid_two_vectors_world|].
  eexists. split; [vm_compute; reflexivity|].
  apply (no_shared_region (OpAssignCopy 0 1) two_vectors_world).
  - apply valid_two_vectors_world.
  - left. vm_compute; reflexivity.
Defined.

Lemma null_when_empty_fresh_vector : null_when_empty (w_objs fresh_vector_world).
Proof.
  intros i v Hi _. unfold fresh_vector_world in Hi. simpl in Hi.
  apply lookup_singleton_Some in Hi as [_ <-]. done.
Qed.


(** C7. Failing input: sixteen values appended to an empty vector, which
    is then full (size 16, capacity 16), followed by
    [v.emplace_back(v[0])].  The argument is a reference to the first
    element; [emplace_back] calls [reserve(32)], which destroys the
    elements and releases the block the reference points into, and then
    constructs the new element from that reference: a read of released
    storage, undefined behaviour.  The same call with the value 1 itself
    returns and index 16 then reads 1. *)
Theorem emplace_back_reads_released_block :
  ∃ w b, emplace_back_all 0 sixteen fresh_vector_world = Ok tt w ∧
         w_objs w !! 0 = Some (mk_vector (Some 1%positive) 16 16) ∧
         begin 0 w = Ok b w ∧
         deref b w = Ok 1%Z w ∧
         emplace_back 0 (ByRef b) w = Undefined ∧
         (∃ w1, reserve 0 32 w = Ok tt w1 ∧ deref b w1 = Undefined) ∧
         (∃ w', emplace_back 0 (ByValue 1%Z) w = Ok tt w' ∧
                size 0 w' = Ok 17 w' ∧ index_read 0 16 w' = Ok 1%Z w').
Proof.
  do 2 eexists. split; [vm_compute; reflexivity|].
  split; [vm_compute; reflexivity|].
  split; [vm_compute; reflexivity|].
  split; [vm_compute; reflexivity|].
  split; [vm_compute; reflexivity|].
  split; eexists; (split; [vm_compute; reflexivity|]).
  - vm_compute; reflexivity.
  - split; vm_compute; reflexivity.
Qed.

(** C8. Failing inputs: [resize] on a vector whose [_capacity] is not the
    size of its block.  After the vector [7, 8] of capacity 16 has been
    moved from, it has a null [_data], size 0 and capacity 16:
    [resize(5)] finds the capacity sufficient and constructs through the
    null pointer.  After [reserve(1)] on that vector, its capacity is 2
    over a block of 16 slots: [resize(20)] releases the block with size
    2.  Both are undefined behaviour, and the size is not set. *)
Theorem resize_with_stale_capacity :
  (∃ w, ctor_move 1 0 two_elements_world = Ok tt w ∧
        w_objs w !! 0 = Some (mk_vector None 0 16) ∧
        resize 0 5 w = Undefined) ∧
  (∃ w, reserve 0 1 two_elements_world = Ok tt w ∧
        w_objs w !! 0 = Some (mk_vector (Some 1%positive) 2 2) ∧
        w_heap w !! 1%positive = Some ([Some 7%Z; Some 8%Z] ++ replicate 14 None) ∧
        resize 0 20 w = Undefined).
Proof.
  split; eexists; (split; [vm_compute; reflexivity|]);
    repeat split; vm_compute; reflexivity.
Qed.

(** ** The further properties, on the same concrete states *)

Lemma holds_two_vectors_second : holds two_vectors_world 1 [0%Z; 0%Z; 0%Z] 3.
Proof.
  exists (mk_vector (Some 2%positive) 3 3).
  repeat split; try (vm_compute; reflexivity); simpl; lia.
Qed.

Lemma heap_fresh_two_vectors : heap_fresh two_vectors_world.
Proof. apply valid_two_vectors_world. Qed.

Lemma next_alloc_ok_nil (w : world Z) : w_plan w = [] → next_alloc_ok w.
Proof. unfold next_alloc_ok. by intros ->. Qed.

(** A second vector of three elements, constructed beside [7, 8]. *)
Lemma sized_constructor_spec_witness :
  ∃ w', ctor_sized 1 3 two_elements_world = Ok tt w' ∧
        holds w' 1 (replicate 3 T_default) 3 ∧
        size 1 w' = Ok 3 w' ∧
        w_trace w' = w_trace two_elements_world ++
                     EvAllocate 3 (w_next two_elements_world) ::
                       (EvConstruct (w_next two_elements_world) <$> seq 0 3).
Proof.
  apply (sized_constructor_spec 1 3 two_elements_world).
  - vm_compute; reflexivity.
  - by apply next_alloc_ok_nil.
Defined.

(** A copy of the vector of three elements. *)
Lemma copy_constructor_spec_witness :
  ∃ w' v', ctor_copy 2 1 two_vectors_world = Ok tt w' ∧
        holds w' 2 [0%Z; 0%Z; 0%Z] 3 ∧ holds w' 1 [0%Z; 0%Z; 0%Z] 3 ∧
        view w' 1 = view two_vectors_world 1 ∧
        w_objs w' !! 2 = Some v' ∧ _data v' = Some (w_next two_vectors_world) ∧
        w_heap two_vectors_world !! w_next two_vectors_world = None ∧
        w_trace w' = w_trace two_vectors_world ++
                     EvAllocate 3 (w_next two_vectors_world) ::
                       (EvConstruct (w_next two_vectors_world) <$>
                          seq 0 (length [0%Z; 0%Z; 0%Z])).
Proof.
  apply (copy_constructor_spec 2 1 [0%Z; 0%Z; 0%Z] 3 two_vectors_world).
  - vm_compute; reflexivity.
  - apply holds_two_vectors_second.
  - apply heap_fresh_two_vectors.
  - by apply next_alloc_ok_nil.
Defined.

(** The vector of two elements assigned from the vector of three. *)
Lemma copy_assignment_spec_witness :
  ∃ w' v', assign_copy 0 1 two_vectors_world = Ok tt w' ∧
        holds w' 0 [0%Z; 0%Z; 0%Z] 3 ∧ holds w' 1 [0%Z; 0%Z; 0%Z] 3 ∧
        view w' 1 = view two_vectors_world 1 ∧
        w_objs w' !! 0 = Some v' ∧ _data v' = Some (w_next two_vectors_world) ∧
        w_heap two_vectors_world !! w_next two_vectors_world = None.
Proof.
  apply (copy_assignment_spec 0 1 (mk_vector (Some 1%positive) 2 2)
           [0%Z; 0%Z; 0%Z] 3 two_vectors_world).
  - lia.
  - vm_compute; reflexivity.
  - apply holds_two_vectors_second.
  - apply heap_fresh_two_vectors.
  - by apply next_alloc_ok_nil.
Defined.

(** Destroying the vector [7, 8]. *)
Lemma destructor_spec_witness :
  ∃ w', dtor 0 two_elements_world = Ok tt w' ∧
        w_objs w' = delete 0 (w_objs two_elements_world) ∧
        w_heap w' = delete 1%positive (w_heap two_elements_world) ∧
        w_next w' = w_next two_elements_world ∧
        w_plan w' = w_plan two_elements_world ∧
        w_trace w' = w_trace two_elements_world ++
                     destroy_events (Some 1%positive) 0 2 ++
                     deallocate_events (Some 1%positive) 16.
Proof.
  apply (destructor_spec 0 (mk_vector (Some 1%positive) 2 16) [7%Z; 8%Z]
           two_elements_world).
  - vm_compute; reflexivity.
  - apply holds_two_elements.
Defined.

(** A vector of three elements constructed and destroyed beside
    [7, 8]. *)
Lemma sized_construct_destroy_round_trip_witness :
  ∃ w', (ctor_sized 1 3 ;; dtor 1) two_elements_world = Ok tt w' ∧
        w_objs w' = w_objs two_elements_world ∧
        w_heap w' = w_heap two_elements_world ∧
        w_trace w' = w_trace two_elements_world ++
          [EvAllocate 3 (w_next two_elements_world)] ++
          (EvConstruct (w_next two_elements_world) <$> seq 0 3) ++
          (EvDestroy (w_next two_elements_world) <$> seq 0 3) ++
          [EvDeallocate (w_next two_elements_world) 3].
Proof.
  apply (sized_construct_destroy_round_trip 1 3 two_elements_world).
  - vm_compute; reflexivity.
  - apply heap_fresh_two_elements.
  - by apply next_alloc_ok_nil.
Defined.

(** A copy of [7, 8], destroyed at once. *)
Lemma copy_destroy_round_trip_witness :
  ∃ w', (ctor_copy 1 0 ;; dtor 1) two_elements_world = Ok tt w' ∧
        w_objs w' = w_objs two_elements_world ∧
        w_heap w' = w_heap two_elements_world ∧
        holds w' 0 [7%Z; 8%Z] 16 ∧
        w_trace w' = w_trace two_elements_world ++
          [EvAllocate 16 (w_next two_elements_world)] ++
          (EvConstruct (w_next two_elements_world) <$> seq 0 (length [7%Z; 8%Z])) ++
          (EvDestroy (w_next two_elements_world) <$> seq 0 (length [7%Z; 8%Z])) ++
          [EvDeallocate (w_next two_elements_world) 16].
Proof.
  apply (copy_destroy_round_trip 1 0 [7%Z; 8%Z] 16 two_elements_world).
  - vm_compute; reflexivity.
  - apply holds_two_elements.
  - apply heap_fresh_two_elements.
  - by apply next_alloc_ok_nil.
Defined.

(** A vector move-constructed from [7, 8]. *)
Lemma move_constructor_spec_witness :
  ∃ w', ctor_move 1 0 two_elements_world = Ok tt w' ∧
        holds w' 1 [7%Z; 8%Z] 16 ∧
        view w' 1 = view two_elements_world 0 ∧
        w_trace w' = w_trace two_elements_world ++
                     [EvAllocate 16 (w_next two_elements_world)].
Proof.
  apply (move_constructor_spec 1 0 [7%Z; 8%Z] 16 two_elements_world).
  - vm_compute; reflexivity.
  - apply holds_two_elements.
  - apply heap_fresh_two_elements.
  - by apply next_alloc_ok_nil.
Defined.

(** The vector of two elements move-assigned from the vector of three. *)
Lemma move_assignment_spec_witness :
  ∃ w', assign_move 0 1 two_vectors_world = Ok tt w' ∧
        holds w' 0 [0%Z; 0%Z; 0%Z] 3 ∧
        view w' 0 = view two_vectors_world 1 ∧
        w_trace w' = w_trace two_vectors_world ++
                     [EvAllocate 3 (w_next two_vectors_world)].
Proof.
  apply (move_assignment_spec 0 1 (mk_vector (Some 1%positive) 2 2)
           [0%Z; 0%Z; 0%Z] 3 two_vectors_world).
  - lia.
  - vm_compute; reflexivity.
  - apply holds_two_vectors_second.
  - apply heap_fresh_two_vectors.
  - by apply next_alloc_ok_nil.
Defined.

(** Moving from the vector of three elements, into a new vector and
    into the vector of two elements, when the allocator refuses the
    request. *)
Lemma move_allocation_failure_terminates_witness :
  ctor_move 2 1 refusing_two_vectors_world = Terminate ∧
  assign_move 0 1 refusing_two_vectors_world = Terminate.
Proof.
  split.
  - apply (move_allocation_failure_terminates 2 1 (mk_vector (Some 2%positive) 3 3)
             refusing_two_vectors_world).
    + vm_compute; reflexivity.
    + vm_compute; reflexivity.
    + vm_compute; reflexivity.
  - apply (move_allocation_failure_terminates 0 1 (mk_vector (Some 2%positive) 3 3)
             refusing_two_vectors_world).
    + vm_compute; reflexivity.
    + vm_compute; reflexivity.
    + eexists. vm_compute; reflexivity.
Defined.

(** Appending to [7, 8] after it has been moved from. *)
Lemma moved_from_append_undefined_witness :
  (ctor_move 1 0 ;; emplace_back 0 (ByValue 9%Z)) two_elements_world = Undefined ∧
  (∀ n, 0 < n ≤ _capacity (mk_vector (Some 1%positive) 2 16) →
        (ctor_move 1 0 ;; resize 0 n) two_elements_world = Undefined).
Proof.
  apply (moved_from_append_undefined 1 0 (mk_vector (Some 1%positive) 2 16)
           (ByValue 9%Z) two_elements_world).
  - vm_compute; reflexivity.
  - vm_compute; reflexivity.
  - simpl. lia.
  - by apply next_alloc_ok_nil.
Defined.

(** [reserve(1)] on [7, 8], then its destruction. *)
Lemma reserve_below_size_then_destroy_undefined_witness :
  (reserve 0 1 ;; dtor 0) two_elements_world = Undefined.
Proof.
  apply (reserve_below_size_then_destroy_undefined 0 [7%Z; 8%Z] 16 1
           two_elements_world).
  - apply holds_two_elements.
  - simpl. lia.
  - simpl. lia.
Defined.

(** [v[1] = 9] on [7, 8]. *)
Lemma index_write_read_round_trip_witness :
  ∃ w', index_write 0 1 9%Z two_elements_world = Ok tt w' ∧
        holds w' 0 (<[1 := 9%Z]> [7%Z; 8%Z]) 16 ∧
        index_read 0 1 w' = Ok 9%Z w' ∧
        (∀ j y, j ≠ 1 → [7%Z; 8%Z] !! j = Some y → index_read 0 j w' = Ok y w') ∧
        w_objs w' = w_objs two_elements_world ∧
        w_trace w' = w_trace two_elements_world.
Proof.
  apply (index_write_read_round_trip 0 [7%Z; 8%Z] 16 1 9%Z two_elements_world).
  - apply holds_two_elements.
  - simpl. lia.
Defined.

(** [v[2]] on [7, 8]. *)
Lemma index_out_of_range_undefined_witness :
  index_read 0 2 two_elements_world = Undefined ∧
  index_write 0 2 9%Z two_elements_world = Undefined.
Proof.
  apply (index_out_of_range_undefined 0 [7%Z; 8%Z] 16 2 9%Z two_elements_world).
  - apply holds_two_elements.
  - simpl. lia.
Defined.

(** [begin()] and [end()] of [7, 8]. *)
Lemma begin_end_delimit_elements_witness :
  ∃ b e, begin 0 two_elements_world = Ok b two_elements_world ∧
         end_ 0 two_elements_world = Ok e two_elements_world ∧
         e = advance b (length [7%Z; 8%Z]) ∧
         (∀ i, deref (advance b i) two_elements_world =
               index_read 0 i two_elements_world) ∧
         (∀ i y, [7%Z; 8%Z] !! i = Some y →
                 deref (advance b i) two_elements_world = Ok y two_elements_world) ∧
         deref e two_elements_world = Undefined.
Proof.
  apply (begin_end_delimit_elements 0 [7%Z; 8%Z] 16 two_elements_world).
  apply holds_two_elements.
Defined.

(** A third [emplace_back] on [7, 8], with an allocator that would
    refuse. *)
Lemma emplace_back_with_room_in_place_witness :
  ∃ w', emplace_back 0 (ByValue 9%Z) refusing_world = Ok tt w' ∧
        holds w' 0 ([7%Z; 8%Z] ++ [9%Z]) 16 ∧
        w_objs w' = <[0 := mk_vector (Some 1%positive) (2 + 1) 16]>
                      (w_objs refusing_world) ∧
        w_trace w' = w_trace refusing_world ++
                     construct_events (Some 1%positive) (length [7%Z; 8%Z]) 1 ∧
        w_plan w' = w_plan refusing_world ∧ w_next w' = w_next refusing_world ∧
        dom (w_heap w') = dom (w_heap refusing_world).
Proof.
  apply (emplace_back_with_room_in_place 0 (mk_vector (Some 1%positive) 2 16)
           [7%Z; 8%Z] 16 (ByValue 9%Z) 9%Z refusing_world).
  - vm_compute; reflexivity.
  - apply holds_two_elements.
  - simpl. lia.
  - reflexivity.
Defined.

(** [reserve(32)] on [7, 8]. *)
Lemma reserve_grows_and_keeps_elements_witness :
  ∃ w', reserve 0 32 two_elements_world = Ok tt w' ∧
        holds w' 0 [7%Z; 8%Z] 32 ∧ heap_fresh w' ∧
        w_objs w' = <[0 := mk_vector (Some (w_next two_elements_world)) 2 32]>
                      (w_objs two_elements_world) ∧
        w_heap w' !! 1%positive = None ∧
        w_trace w' = w_trace two_elements_world ++
                     relocate_events (mk_vector (Some 1%positive) 2 16) 32
                       (w_next two_elements_world).
Proof.
  apply (reserve_grows_and_keeps_elements 0 (mk_vector (Some 1%positive) 2 16)
           [7%Z; 8%Z] 32 two_elements_world).
  - vm_compute; reflexivity.
  - apply holds_two_elements.
  - simpl. lia.
  - apply heap_fresh_two_elements.
  - by apply next_alloc_ok_nil.
Defined.

(** [reserve(32)] on [7, 8] when the allocator refuses. *)
Lemma strong_exception_guarantee_witness :
  exec (OpReserve 0 32) refusing_world = Throw (alloc_failed refusing_world) ∧
  alloc_failed refusing_world = alloc_failed refusing_world ∧ True.
Proof.
  split; [vm_compute; reflexivity|].
  apply (strong_exception_guarantee (OpReserve 0 32) refusing_world
           (alloc_failed refusing_world)).
  - exact I.
  - vm_compute; reflexivity.
Defined.

(** Copy assignment to the first of two vectors, seen from the second. *)
Lemma other_vectors_unchanged_witness :
  ∃ w', exec (OpAssignCopy 0 1) two_vectors_world = Ok tt w' ∧
        view w' 1 = view two_vectors_world 1.
Proof.
  eexists. split; [vm_compute; reflexivity|].
  apply (other_vectors_unchanged (OpAssignCopy 0 1) two_vectors_world).
  - apply valid_two_vectors_world.
  - left. vm_compute; reflexivity.
  - simpl. set_solver.
  - intros v p _ _. simpl. set_solver.
Defined.

(** A vector of three elements that is appended to, resized and appended
    to again before it is destroyed, beside [7, 8]. *)
Lemma lifecycle_without_leak_witness :
  ∃ w', (exec (OpSized 1 3) ;;
         run_all [OpEmplaceBack 1 (ByValue 5%Z); OpResize 1 40; OpEmplaceBack 1 (ByValue 6%Z);
                  OpResize 1 1] ;;
         dtor 1) two_elements_world = Ok tt w' ∧
        w_objs w' = w_objs two_elements_world ∧
        w_heap w' = w_heap two_elements_world.
Proof.
  apply (lifecycle_without_leak 1 3 (OpSized 1 3)
           [OpEmplaceBack 1 (ByValue 5%Z); OpResize 1 40; OpEmplaceBack 1 (ByValue 6%Z); OpResize 1 1]
           two_elements_world).
  - by right.
  - vm_compute; reflexivity.
  - apply heap_fresh_two_elements.
  - by apply allocations_succeed_nil.
  - repeat constructor.
Defined.

(** Moving from [7, 8], then destroying both vectors. *)
Lemma move_then_destroy_both_witness :
  ∃ w', (ctor_move 1 0 ;; dtor 0 ;; dtor 1) two_elements_world = Ok tt w' ∧
        w_objs w' = delete 0 (w_objs two_elements_world) ∧
        w_heap w' = <[w_next two_elements_world := replicate 16 None]>
                      (delete 1%positive (w_heap two_elements_world)) ∧
        w_trace w' = w_trace two_elements_world ++
                     [EvAllocate 16 (w_next two_elements_world)] ++
                     destroy_events (Some 1%positive) 0 (length [7%Z; 8%Z]) ++
                     deallocate_events (Some 1%positive) 16.
Proof.
  apply (move_then_destroy_both 1 0 (mk_vector (Some 1%positive) 2 16)
           [7%Z; 8%Z] two_elements_world).
  - vm_compute; reflexivity.
  - vm_compute; reflexivity.
  - apply holds_two_elements.
  - apply heap_fresh_two_elements.
  - by apply next_alloc_ok_nil.
Defined.

(** [begin()] of [7, 8], kept across a [reserve(32)] and across an
    [emplace_back]. *)
Lemma pointers_and_growth_witness :
  (∀ n, 16 < n → next_alloc_ok two_elements_world →
     ∃ w', reserve 0 n two_elements_world = Ok tt w' ∧
           ∀ i, deref (advance (mk_pointer (Some 1%positive) 0) i) w' = Undefined) ∧
  (∀ a x, length [7%Z; 8%Z] < 16 → read_arg a two_elements_world = Ok x two_elements_world →
     ∃ w', emplace_back 0 a two_elements_world = Ok tt w' ∧
           ∀ i y, [7%Z; 8%Z] !! i = Some y →
                  deref (advance (mk_pointer (Some 1%positive) 0) i) w' = Ok y w').
Proof.
  apply (pointers_and_growth 0 (mk_pointer (Some 1%positive) 0) [7%Z; 8%Z] 16
           two_elements_world).
  - apply holds_two_elements.
  - apply heap_fresh_two_elements.
  - vm_compute; reflexivity.
Defined.

(** [v.emplace_back(v[1])] on the vector of three elements, which is
    full, and on [7, 8], which has room. *)
Lemma emplace_back_of_own_element_witness :
  (emplace_back 1 (ByRef (advance (mk_pointer (Some 2%positive) 0) 1))
     two_vectors_world = Undefined ∧
   emplace_back 1 (ByMove (advance (mk_pointer (Some 2%positive) 0) 1))
     two_vectors_world = Undefined) ∧
  (∃ w', emplace_back 0 (ByRef (advance (mk_pointer (Some 1%positive) 0) 1))
           two_elements_world = Ok tt w' ∧
         holds w' 0 ([7%Z; 8%Z] ++ [8%Z]) 16).
Proof.
  split.
  - apply (emplace_back_of_own_element 1 (mk_pointer (Some 2%positive) 0)
             [0%Z; 0%Z; 0%Z] 3 1 two_vectors_world).
    + apply holds_two_vectors_second.
    + apply heap_fresh_two_vectors.
    + by apply next_alloc_ok_nil.
    + vm_compute; reflexivity.
    + reflexivity.
  - apply (emplace_back_of_own_element 0 (mk_pointer (Some 1%positive) 0)
             [7%Z; 8%Z] 16 1 two_elements_world).
    + apply holds_two_elements.
    + apply heap_fresh_two_elements.
    + by apply next_alloc_ok_nil.
    + vm_compute; reflexivity.
    + simpl. lia.
    + reflexivity.
Defined.
